(** * NL-to-SQL handler: guardrail validator, resilient invoker, query runner

    A shallow embedding of [src/lambda/nl2sql_handler.py] and the
    properties of its three helpers [sanitize_sql],
    [invoke_bedrock_with_retry] and [run_athena].

    Text is modelled as a list of code points.  The code-point type is
    [ascii], read as U+0000..U+00FF (Latin-1), with Python's own
    classification of those code points: [str.isspace] / [\s], and
    [\w] of a [str] pattern.  Within that range the [re.IGNORECASE] flag
    only identifies the 26 ASCII letter pairs. *)

From Stdlib Require Import List Bool Arith ZArith NArith Lia.
From Stdlib Require Import Ascii String DecimalString QArith Qminmax.
Import ListNotations.
Close Scope Q_scope.

Set Implicit Arguments.

(* ===================================================================== *)
(** ** Python string primitives *)
(* ===================================================================== *)

Module Py.

Definition str := list ascii.

(** A string literal of the source. *)
Definition lit (s : string) : str := list_ascii_of_string s.

Definition str_eq_dec : forall a b : str, {a = b} + {a <> b} :=
  list_eq_dec ascii_dec.

Definition code (c : ascii) : N := N_of_ascii c.

Definition between (lo hi : N) (c : ascii) : bool :=
  ((lo <=? code c) && (code c <=? hi))%N.

(** [str.isspace] on one code point, which is also [\s] of a [str]
    pattern: U+0009..U+000D, U+001C..U+0020, U+0085, U+00A0. *)
Definition isspace (c : ascii) : bool :=
  between 9 13 c || between 28 32 c || between 133 133 c || between 160 160 c.

Definition isupper_ascii (c : ascii) : bool := between 65 90 c.
Definition islower_ascii (c : ascii) : bool := between 97 122 c.
Definition isdigit_ascii (c : ascii) : bool := between 48 57 c.

(** [\w] of a [str] pattern: alphanumeric code points and the underscore.
    Above U+007F these are the letters and numerics of Latin-1. *)
Definition isword (c : ascii) : bool :=
  isupper_ascii c || islower_ascii c || isdigit_ascii c || between 95 95 c
  || between 170 170 c || between 178 179 c || between 181 181 c
  || between 185 186 c || between 188 190 c || between 192 214 c
  || between 216 246 c || between 248 255 c.

(** Case folding as far as [re.IGNORECASE] needs it on this range. *)
Definition lower (c : ascii) : ascii :=
  if isupper_ascii c then ascii_of_N (code c + 32) else c.

(** [s.lstrip()] / [s.lstrip(chars)], the stripped set given as [p]. *)
Fixpoint lstrip_by (p : ascii -> bool) (s : str) : str :=
  match s with
  | c :: s' => if p c then lstrip_by p s' else s
  | [] => []
  end.

(** [s.rstrip()] / [s.rstrip(chars)]. *)
Fixpoint rstrip_by (p : ascii -> bool) (s : str) : str :=
  match s with
  | c :: s' =>
      match rstrip_by p s' with
      | [] => if p c then [] else [c]
      | r => c :: r
      end
  | [] => []
  end.

Definition strip_by (p : ascii -> bool) (s : str) : str :=
  rstrip_by p (lstrip_by p s).

Definition one_of (chars : str) (c : ascii) : bool :=
  existsb (Ascii.eqb c) chars.

Definition strip (s : str) : str := strip_by isspace s.
Definition rstrip (s : str) : str := rstrip_by isspace s.
Definition strip_chars (chars s : str) : str := strip_by (one_of chars) s.
Definition rstrip_chars (chars s : str) : str := rstrip_by (one_of chars) s.

(** [ch in s] for a one-character [ch]. *)
Definition contains_char (ch : ascii) (s : str) : bool :=
  existsb (Ascii.eqb ch) s.

(** [s.split(ch)[0]]: the text before the first [ch], all of [s] when
    there is none. *)
Fixpoint split_head (ch : ascii) (s : str) : str :=
  match s with
  | c :: s' => if Ascii.eqb c ch then [] else c :: split_head ch s'
  | [] => []
  end.

(** [str(n)] of an [int], as an f-string interpolates it. *)
Definition str_of_int (n : Z) : str :=
  lit (NilZero.string_of_int (Z.to_int n)).

(** [x in S] for a set of strings. *)
Definition mem (x : str) (S : list str) : bool :=
  if in_dec str_eq_dec x S then true else false.

End Py.

(* ===================================================================== *)
(** ** The fragment of Python's [re] that the handler uses *)
(* ===================================================================== *)

Module Re.
Import Py.

(** Patterns.  Every pattern of the handler is compiled with
    [re.IGNORECASE]; literals therefore compare up to case.  The only
    repetitions in the source are greedy repetitions of a one-character
    class ([\s*], [\s+], [[a-zA-Z0-9_\.]+]). *)
Inductive regex : Type :=
| Bol                                   (* ^   *)
| Bnd                                   (* \b  *)
| Chr (c : ascii)                       (* a literal character *)
| Rep (p : ascii -> bool) (min : nat)   (* class* (min 0), class+ (min 1) *)
| Cat (r1 r2 : regex)
| Alt (r1 r2 : regex)
| Grp (r : regex).                      (* the capturing group ( ... ) *)

(** A literal word, character by character. *)
Fixpoint word (w : str) : regex :=
  match w with
  | [] => Rep (fun _ => false) 0
  | [c] => Chr c
  | c :: w' => Cat (Chr c) (word w')
  end.

Fixpoint alts (r : regex) (rs : list regex) : regex :=
  match rs with
  | [] => r
  | r' :: rs' => Alt r (alts r' rs')
  end.

Definition chr_matches (c d : ascii) : bool := Ascii.eqb (lower c) (lower d).

Definition isword_opt (o : option ascii) : bool :=
  match o with Some c => isword c | None => false end.

(** [\b]: exactly one of the code points around the position is a word
    character; the ends of the text count as non-word. *)
Definition at_boundary (prev : option ascii) (s : str) : bool :=
  xorb (isword_opt prev) (isword_opt (hd_error s)).

(** The matcher is a backtracking one, in continuation-passing style.  A
    position is the code point before it ([None] at the start of the text)
    and the text from it on; [g] is the text of the capturing group. *)
Definition cont (A : Type) : Type := option ascii -> str -> option str -> option A.

Fixpoint rep (A : Type) (p : ascii -> bool) (min : nat)
    (prev : option ascii) (s : str) (g : option str) (k : cont A) : option A :=
  let stop := match min with O => k prev s g | S _ => None end in
  match s with
  | c :: s' =>
      if p c then
        match rep p (pred min) (Some c) s' g k with
        | Some a => Some a
        | None => stop
        end
      else stop
  | [] => stop
  end.

Fixpoint exec (A : Type) (r : regex)
    (prev : option ascii) (s : str) (g : option str) (k : cont A) : option A :=
  match r with
  | Bol => match prev with None => k prev s g | Some _ => None end
  | Bnd => if at_boundary prev s then k prev s g else None
  | Chr c =>
      match s with
      | d :: s' => if chr_matches c d then k (Some d) s' g else None
      | [] => None
      end
  | Rep p min => rep p min prev s g k
  | Cat r1 r2 => exec r1 prev s g (fun prev' s' g' => exec r2 prev' s' g' k)
  | Alt r1 r2 =>
      match exec r1 prev s g k with
      | Some a => Some a
      | None => exec r2 prev s g k
      end
  | Grp r1 =>
      exec r1 prev s g
        (fun prev' s' _ => k prev' s' (Some (firstn (List.length s - List.length s') s)))
  end.

(** A match: the text of the group (if it took part) and the text left
    after the match. *)
Definition match_at (r : regex) (prev : option ascii) (s : str)
  : option (option str * str) :=
  exec r prev s None (fun _ s' g => Some (g, s')).

(** [re.match(r, s)]. *)
Definition re_match (r : regex) (s : str) : option (option str * str) :=
  match_at r None s.

(** [re.search(r, s)]: the leftmost position with a match. *)
Fixpoint search_from (r : regex) (prev : option ascii) (s : str)
  : option (option str * str) :=
  match match_at r prev s with
  | Some m => Some m
  | None =>
      match s with
      | c :: s' => search_from r (Some c) s'
      | [] => None
      end
  end.

Definition re_search (r : regex) (s : str) : option (option str * str) :=
  search_from r None s.

Definition group_text (g : option str) : str :=
  match g with Some t => t | None => [] end.

(** [re.finditer] for a pattern with one group: left to right, matches
    do not overlap.  An item stands for a match object [m]: [m.start()],
    [m.end()] and [m.group(1)].  [skip] counts the code points still
    covered by the previous match; [i] is the offset of the position.
    (Exact for patterns that match no empty text, as those of the
    handler.) *)
Definition item : Type := (nat * nat * str)%type.

Definition m_start (m : item) : nat := fst (fst m).
Definition m_end (m : item) : nat := snd (fst m).
Definition m_group (m : item) : str := snd m.

Fixpoint finditer_from (r : regex) (skip i : nat) (prev : option ascii) (s : str)
  : list item :=
  match s with
  | c :: s' =>
      match skip with
      | S n => finditer_from r n (S i) (Some c) s'
      | O =>
          match match_at r prev s with
          | Some (g, s1) =>
              let n := List.length s - List.length s1 in
              (i, i + n, group_text g)
                :: finditer_from r (pred n) (S i) (Some c) s'
          | None => finditer_from r 0 (S i) (Some c) s'
          end
      end
  | [] =>
      match skip, match_at r prev [] with
      | O, Some (g, _) => [(i, i, group_text g)]
      | _, _ => []
      end
  end.

Definition finditer (r : regex) (s : str) : list item :=
  finditer_from r 0 0 None s.

(** [re.findall(r, s)]: the groups of the matches. *)
Definition re_findall (r : regex) (s : str) : list str :=
  map m_group (finditer r s).

End Re.

(* ===================================================================== *)
(** ** SQL guardrail validator: [sanitize_sql] *)
(* ===================================================================== *)

Module Guardrail.
Import Py Re.

(** The four [raise ValueError(...)] of [sanitize_sql], by message:
    - [NotSelect]: "Only SELECT queries are allowed."
    - [MultipleStatements]: "Multiple statements are not allowed."
    - [SchemaNotAllowed allowed]:
        f"Query must use schemas in {sorted(ALLOWED_SCHEMAS)}";
      the message interpolates the allow-list and nothing else
    - [BannedKeyword]: "Only read-only SELECT queries are allowed." *)
Inductive ValidationError : Type :=
| NotSelect
| MultipleStatements
| SchemaNotAllowed (allowed : list str)
| BannedKeyword.

Inductive result : Type :=
| Ok (sql : str)
| Raise (e : ValidationError).

(** [^\s*select\b] *)
Definition SELECT_RE : regex :=
  Cat Bol (Cat (Rep isspace 0) (Cat (word (lit "select")) Bnd)).

(** [\blimit\b] *)
Definition LIMIT_RE : regex :=
  Cat Bnd (Cat (word (lit "limit")) Bnd).

(** The class [[a-zA-Z0-9_\.]]. *)
Definition istoken (c : ascii) : bool :=
  islower_ascii c || isupper_ascii c || isdigit_ascii c
  || Ascii.eqb c "_" || Ascii.eqb c ".".

(** [\b(?:from|join)\s+([a-zA-Z0-9_\.]+)] *)
Definition TABLE_RE : regex :=
  Cat Bnd
    (Cat (Alt (word (lit "from")) (word (lit "join")))
       (Cat (Rep isspace 1) (Grp (Rep istoken 1)))).

Definition banned_words : list str :=
  map lit ["create"; "drop"; "delete"; "update"; "insert"; "grant"; "msck";
           "alter"]%string.

(** [\b(unload|create|drop|delete|update|insert|grant|msck|alter)\b] *)
Definition BANNED_RE : regex :=
  Cat Bnd
    (Cat (Grp (alts (word (lit "unload")) (map word banned_words))) Bnd).

Definition SEMI : ascii := ";"%char.
Definition DOT : ascii := "."%char.
Definition DQUOTE : ascii := "034"%char.
Definition BACKTICK : ascii := "096"%char.
Definition QUOTE : ascii := "039"%char.

Section Config.

(** Module-level configuration, read from the environment at start. *)
Variable MAX_ROWS : Z.
Variable ALLOWED_SCHEMAS : list str.

(** Step 2 of the source: append a LIMIT when the text has none. *)
Definition enforce_limit (sql : str) : str :=
  match re_search LIMIT_RE sql with
  | None =>
      rstrip_chars [SEMI] (rstrip sql) ++ lit " LIMIT " ++ str_of_int MAX_ROWS
  | Some _ => sql
  end.

(** The body of [for t in tables]: [None] when the table passes. *)
Definition check_table (t : str) : option ValidationError :=
  let t := strip_chars [QUOTE] (strip_chars [BACKTICK]
             (strip_chars [DQUOTE] (strip t))) in
  if contains_char DOT t then
    let schema := split_head DOT t in
    if negb (mem schema ALLOWED_SCHEMAS)
    then Some (SchemaNotAllowed ALLOWED_SCHEMAS)
    else None
  else None.

(** The loop over [tables]: the first failing table raises. *)
Fixpoint check_tables (tables : list str) : option ValidationError :=
  match tables with
  | [] => None
  | t :: ts =>
      match check_table t with
      | Some e => Some e
      | None => check_tables ts
      end
  end.

Definition sanitize_sql (sql : str) : result :=
  let sql := strip sql in
  (* 1) Only SELECTs (no multiple statements) *)
  match re_match SELECT_RE sql with
  | None => Raise NotSelect
  | Some _ =>
      if contains_char SEMI (rstrip_chars [SEMI] (strip sql))
      then Raise MultipleStatements
      else
        (* 2) Enforce LIMIT if missing *)
        let sql := enforce_limit sql in
        (* 3) Check schemas for tables after FROM/JOIN *)
        let tables := re_findall TABLE_RE sql in
        match check_tables tables with
        | Some e => Raise e
        | None =>
            (* 4) block a few risky keywords *)
            match re_findall BANNED_RE sql with
            | _ :: _ => Raise BannedKeyword
            | [] => Ok sql
            end
        end
  end.

End Config.

End Guardrail.


(* ===================================================================== *)
(** ** Resilient invoker: [invoke_bedrock_with_retry] *)
(* ===================================================================== *)

Module Invoker.
Import Py.

Section Retry.

Variables response exn : Type.

(** What one pass through the [try] block does: [bedrock.invoke_model]
    and the decoding of its body either return, raise a botocore
    [ClientError] (carrying [e.response["Error"]["Code"]], or the empty
    string when absent), or raise something else.  The function ends in
    the same three ways, so this is its result type as well. *)
Inductive outcome : Type :=
| Returns (r : response)
| ClientError (code : str)
| OtherException (e : exn).

(** The world outside: the [k]-th call of the service and the [k]-th
    sample of [random.uniform(0, 0.3)]. *)
Variable invoke_model : nat -> outcome.
Variable uniform : nat -> Q.

(** What the function did to the world: calls made, samples drawn and the
    arguments of [time.sleep], in order. *)
Record trace : Type := { calls : nat; samples : nat; slept : list Q }.

Definition start : trace := {| calls := 0; samples := 0; slept := [] |}.

(** [code in ("ThrottlingException", "TooManyRequestsException")] *)
Definition throttled (code : str) : bool :=
  mem code [lit "ThrottlingException"; lit "TooManyRequestsException"].

(** [min(8.0, (2 ** attempt) * 0.5) + random.uniform(0, 0.3)], in seconds.
    Durations are exact rationals here; the source computes them in
    binary floating point. *)
Definition backoff (attempt : nat) (u : Q) : Q :=
  (Qmin 8 (inject_Z (2 ^ Z.of_nat attempt) * (1 # 2)) + u)%Q.

Variable max_attempts : Z.

(** The [while True] loop, one iteration per unit of fuel. *)
Fixpoint retry_loop (fuel : nat) (attempt : nat) (w : trace)
  : option (outcome * trace) :=
  match fuel with
  | O => None
  | S fuel' =>
      let o := invoke_model (calls w) in
      let w1 := {| calls := S (calls w); samples := samples w; slept := slept w |} in
      match o with
      | ClientError code =>
          if throttled code && (Z.of_nat attempt <? max_attempts - 1)%Z then
            let b := backoff attempt (uniform (samples w1)) in
            retry_loop fuel' (S attempt)
              {| calls := calls w1; samples := S (samples w1);
                 slept := slept w1 ++ [b] |}
          else Some (o, w1)
      | _ => Some (o, w1)
      end
  end.

(** Each retry raises [attempt], and none happens from
    [max_attempts - 1] on: this much fuel is never used up. *)
Definition invoke_bedrock_with_retry : option (outcome * trace) :=
  retry_loop (S (Z.to_nat (max_attempts - 1))) 0 start.

End Retry.

(** The default of the [max_attempts] parameter. *)
Definition DEFAULT_MAX_ATTEMPTS : Z := 6.

End Invoker.

(* ===================================================================== *)
(** ** Async query runner: [run_athena] *)
(* ===================================================================== *)

Module Runner.
Import Py.

(** A cell of a result row: [c.get("VarCharValue")]. *)
Definition cell : Type := option str.

(** A row: its ["Data"]. *)
Definition Row : Type := list cell.

(** One reply of [get_query_results]. *)
Record page : Type := { Rows : list Row; NextToken : option str }.

Inductive State : Type := QUEUED | RUNNING | SUCCEEDED | FAILED | CANCELLED.

Inductive outcome : Type :=
| ResultSet (headers : list str) (rows : list Row)
| RuntimeError (state : State)      (* "Athena query failed: ..." *)
| IndexError                        (* [Rows][0] of a first page without rows *)
| KeyError.                         (* a header cell without "VarCharValue" *)

(** Truth value of [next_token]: [None] and the empty string are false. *)
Definition truthy (t : option str) : bool :=
  match t with Some (_ :: _) => true | _ => false end.

(** [[col["VarCharValue"] for col in row]] *)
Fixpoint header_names (r : Row) : option (list str) :=
  match r with
  | [] => Some []
  | Some v :: r' =>
      match header_names r' with
      | Some vs => Some (v :: vs)
      | None => None
      end
  | None :: _ => None
  end.

Definition terminal (s : State) : bool :=
  match s with SUCCEEDED | FAILED | CANCELLED => true | _ => false end.

(** The wait loop over the replies of [get_query_execution]; [None] when
    the engine's replies end before a terminal state. *)
Fixpoint wait (polls : list State) : option State :=
  match polls with
  | [] => None
  | s :: polls' => if terminal s then Some s else wait polls'
  end.

Section Config.

Variable MAX_ROWS : Z.

Definition len (rows : list Row) : Z := Z.of_nat (List.length rows).

(** The [for r in res["ResultSet"]["Rows"]] loop of a later page, with
    its [break]. *)
Fixpoint append_rows (rows : list Row) (page_rows : list Row) : list Row :=
  match page_rows with
  | [] => rows
  | r :: rest =>
      let rows := rows ++ [r] in
      if (len rows >=? MAX_ROWS)%Z then rows else append_rows rows rest
  end.

(** [while next_token and len(rows) < MAX_ROWS], the engine's later
    replies given in order; [None] when a further page is asked for and
    the engine has none. *)
Fixpoint fetch_more (pages : list page) (next_token : option str)
    (rows : list Row) : option (list Row) :=
  if truthy next_token && (len rows <? MAX_ROWS)%Z then
    match pages with
    | [] => None
    | res :: pages' =>
        fetch_more pages' (NextToken res) (append_rows rows (Rows res))
    end
  else Some rows.

(** The result fetch that follows a SUCCEEDED poll. *)
Definition fetch_results (pages : list page) : option outcome :=
  match pages with
  | [] => None
  | res :: pages' =>
      match Rows res with
      | [] => Some IndexError
      | r0 :: data =>
          match header_names r0 with
          | None => Some KeyError
          | Some headers =>
              (* rows = []; for r in Rows[1:]: rows.append(...) *)
              let rows := data in
              match fetch_more pages' (NextToken res) rows with
              | Some rows => Some (ResultSet headers rows)
              | None => None
              end
          end
      end
  end.

Definition run_athena (polls : list State) (pages : list page)
  : option outcome :=
  match wait polls with
  | None => None
  | Some SUCCEEDED => fetch_results pages
  | Some s => Some (RuntimeError s)
  end.

End Config.

End Runner.

(* ===================================================================== *)
(** ** Vocabulary of the properties *)
(* ===================================================================== *)

Module Spec.
Import Py Re Guardrail.

(** Equal up to case. *)
Definition ci_eq (u w : str) : Prop := map lower u = map lower w.

(** The code point before the position reached by reading [pre] from a
    position whose previous code point is [prev]. *)
Definition prev_after (prev : option ascii) (pre : str) : option ascii :=
  fold_left (fun _ c => Some c) pre prev.

Definition all (p : ascii -> bool) (s : str) : Prop :=
  Forall (fun c => p c = true) s.

Definition none (p : ascii -> bool) (s : str) : Prop :=
  Forall (fun c => p c = false) s.

Definition isalpha_ascii (c : ascii) : bool :=
  islower_ascii c || isupper_ascii c.

Definition istoken_opt (o : option ascii) : bool :=
  match o with Some c => istoken c | None => false end.

(** The longest prefix of [s] in the class [p], and what follows it. *)
Fixpoint span (p : ascii -> bool) (s : str) : str * str :=
  match s with
  | c :: s' =>
      if p c then let (u, rest) := span p s' in (c :: u, rest) else ([], s)
  | [] => ([], [])
  end.

(** [s] starts with [w] up to case: the prefix read and the rest. *)
Fixpoint ci_prefix (w s : str) : option (str * str) :=
  match w with
  | [] => Some ([], s)
  | c :: w' =>
      match s with
      | d :: s' =>
          if chr_matches c d then
            match ci_prefix w' s' with
            | Some (u, rest) => Some (d :: u, rest)
            | None => None
            end
          else None
      | [] => None
      end
  end.

(** A copy of [w] starts the text and ends at a word boundary. *)
Definition keyword_end (w s : str) : bool :=
  match ci_prefix w s with
  | Some (_, rest) => negb (isword_opt (hd_error rest))
  | None => false
  end.

(** [w] stands as a whole word at a position. *)
Definition word_at (w : str) (prev : option ascii) (s : str) : bool :=
  negb (isword_opt prev) &&
  match ci_prefix w s with
  | Some (_, rest) => negb (isword_opt (hd_error rest))
  | None => false
  end.

(** [w] stands as a whole word somewhere from a position on. *)
Fixpoint has_word (w : str) (prev : option ascii) (s : str) : bool :=
  word_at w prev s ||
  match s with
  | c :: s' => has_word w (Some c) s'
  | [] => false
  end.

(** The pattern matches at a position; it matches somewhere from a
    position on. *)
Definition matches (r : regex) (prev : option ascii) (s : str) : bool :=
  match match_at r prev s with Some _ => true | None => false end.

Definition found (r : regex) (prev : option ascii) (s : str) : bool :=
  match search_from r prev s with Some _ => true | None => false end.

(** [s] contains [w] as a whole word, case-insensitively. *)
Definition contains_word (w s : str) : Prop :=
  exists pre u post,
    s = pre ++ u ++ post /\ ci_eq u w /\
    isword_opt (prev_after None pre) = false /\
    isword_opt (hd_error post) = false.

(** [s] begins with the token SELECT, case-insensitively, after any
    leading whitespace. *)
Definition begins_with_select (s : str) : Prop :=
  exists ws u rest,
    s = ws ++ u ++ rest /\ all isspace ws /\ ci_eq u (lit "select") /\
    isword_opt (hd_error rest) = false.

(** The nine keywords of the banned set. *)
Definition banned_set : list str := lit "unload" :: banned_words.

(** After the trim and the removal of the trailing terminators, a
    terminator is still there. *)
Definition inner_terminator (s : str) : Prop :=
  contains_char SEMI (rstrip_chars [SEMI] (strip s)) = true.

(** The same step with at most one trailing terminator removed. *)
Definition rstrip_one (ch : ascii) (s : str) : str :=
  match rev s with
  | c :: r => if Ascii.eqb c ch then rev r else s
  | [] => []
  end.

Definition count_char (ch : ascii) (s : str) : nat :=
  List.length (filter (Ascii.eqb ch) s).

(** A table reference at a position: a FROM or JOIN keyword [kw] that
    starts a word, whitespace [ws], and the token [tok], which ends
    where [post] begins. *)
Definition table_ref (prev : option ascii) (kw ws tok post : str) : Prop :=
  isword_opt prev = false /\
  (ci_eq kw (lit "from") \/ ci_eq kw (lit "join")) /\
  ws <> [] /\ all isspace ws /\
  tok <> [] /\ all istoken tok /\
  istoken_opt (hd_error post) = false.

(** What follows the keyword of [TABLE_RE]: whitespace and a token. *)
Definition table_tail (r : str) : option (str * str) :=
  match span isspace r with
  | ([], _) => None
  | (_ :: _, r2) =>
      match span istoken r2 with
      | ([], _) => None
      | (tok, r3) => Some (tok, r3)
      end
  end.

(** A match whose group is the token. *)
Definition with_group (m : option (str * str)) : option (option str * str) :=
  match m with
  | Some (tok, rest) => Some (Some tok, rest)
  | None => None
  end.

(** What [TABLE_RE] matches at a position: the token and the rest. *)
Definition table_at (prev : option ascii) (s : str) : option (str * str) :=
  if at_boundary prev s then
    match
      match ci_prefix (lit "from") s with
      | Some x => Some x
      | None => ci_prefix (lit "join") s
      end
    with
    | Some (_, r) => table_tail r
    | None => None
    end
  else None.

(** The code points of a decimal numeral: digits and the minus sign. *)
Definition isnumchar (c : ascii) : bool :=
  isdigit_ascii c || Ascii.eqb c "-".

(** The schema segment of a table token: the text before the first dot. *)
Definition schema_of (tok : str) : str := split_head DOT tok.

(** Steps 3 and 4 of [sanitize_sql], on the limit-enforced text. *)
Definition finish (ALLOWED_SCHEMAS : list str) (t : str) : result :=
  match check_tables ALLOWED_SCHEMAS (re_findall TABLE_RE t) with
  | Some e => Raise e
  | None =>
      match re_findall BANNED_RE t with
      | _ :: _ => Raise BannedKeyword
      | [] => Ok t
      end
  end.

(** An offset lies strictly inside a match of the scan. *)
Definition covered (n : nat) (items : list item) : Prop :=
  exists m, In m items /\ m_start m < n < m_end m.

(** What the invoker has done after [n] attempts of which all but the
    last were throttled: [n] calls, [n - 1] samples, and the [n - 1]
    sleeps of the backoff schedule. *)
Definition trace_after (uniform : nat -> Q) (n : nat) : Invoker.trace :=
  {| Invoker.calls := n;
     Invoker.samples := n - 1;
     Invoker.slept :=
       map (fun i => Invoker.backoff i (uniform i)) (seq 0 (n - 1)) |}.

(** An attempt is retried when it raises a throttled [ClientError] and
    attempts are left. *)
Definition retried (response exn : Type) (max_attempts : Z) (attempt : nat)
    (o : Invoker.outcome response exn) : bool :=
  match o with
  | Invoker.ClientError _ _ code =>
      Invoker.throttled code && (Z.of_nat attempt <? max_attempts - 1)%Z
  | _ => false
  end.

Definition after_call (w : Invoker.trace) : Invoker.trace :=
  {| Invoker.calls := S (Invoker.calls w);
     Invoker.samples := Invoker.samples w;
     Invoker.slept := Invoker.slept w |}.

Definition after_sleep (uniform : nat -> Q) (attempt : nat) (w : Invoker.trace)
  : Invoker.trace :=
  {| Invoker.calls := S (Invoker.calls w);
     Invoker.samples := S (Invoker.samples w);
     Invoker.slept :=
       Invoker.slept w
       ++ [Invoker.backoff attempt (uniform (Invoker.samples w))] |}.

(** A service that throttles its first [n] calls and then returns [r],
    and a constant jitter: a concrete world for the invoker. *)
Definition throttled_then (n r : nat) (i : nat) : Invoker.outcome nat unit :=
  if i <? n then Invoker.ClientError nat unit (lit "ThrottlingException")
  else Invoker.Returns unit r.

Definition steady_jitter (_ : nat) : Q := (1 # 10)%Q.

(** A first page of results: a header row and [n] equal data rows. *)
Definition one_column_page (n : nat) : Runner.page :=
  {| Runner.Rows := [Some (lit "n")] :: repeat [Some (lit "1")] n;
     Runner.NextToken := None |}.

End Spec.

(* ===================================================================== *)
(** ** Module-level configuration *)
(* ===================================================================== *)

Module Env.
Import Py.

(** [s.split(sep)] for a one-character separator. *)
Fixpoint split_on (sep : ascii) (s : str) : list str :=
  match s with
  | [] => [[]]
  | c :: s' =>
      if Ascii.eqb c sep then [] :: split_on sep s'
      else
        match split_on sep s' with
        | w :: ws => (c :: w) :: ws
        | [] => [[c]]
        end
  end.

(** [sep.join(xs)] *)
Fixpoint join (sep : str) (xs : list str) : str :=
  match xs with
  | [] => []
  | [x] => x
  | x :: xs' => x ++ sep ++ join sep xs'
  end.

Definition COMMA : ascii := ","%char.

(** [set([s.strip() for s in
         os.environ.get("ALLOWED_SCHEMAS","nyc_taxi").split(",")])];
    the set is kept as the list of its members, read through [mem]. *)
Definition allowed_schemas (env : option str) : list str :=
  map strip
    (split_on COMMA (match env with Some v => v | None => lit "nyc_taxi" end)).

End Env.

(* ===================================================================== *)
(** ** Decoded JSON and the generator's reply *)
(* ===================================================================== *)

Module Json.
Import Py.

Unset Elimination Schemes.

(** A value as [json.loads] returns it.  Numbers are integers here; the
    handler only ever asks whether a number is zero. *)
Inductive json : Type :=
| JNull
| JBool (b : bool)
| JNum (n : Z)
| JStr (s : str)
| JArr (l : list json)
| JObj (d : list (str * json)).

Set Elimination Schemes.

Definition dict : Type := list (str * json).

(** [d.get(k, default)] *)
Fixpoint get_default (d : dict) (k : str) (default : json) : json :=
  match d with
  | [] => default
  | (k', v) :: d' => if str_eq_dec k' k then v else get_default d' k default
  end.

(** [d.get(k)] *)
Definition get (d : dict) (k : str) : json := get_default d k JNull.

(** The truth value of a value, as [if], [not] and [or] read it. *)
Definition truthy (v : json) : bool :=
  match v with
  | JNull => false
  | JBool b => b
  | JNum n => negb (n =? 0)%Z
  | JStr s => match s with [] => false | _ => true end
  | JArr l => match l with [] => false | _ => true end
  | JObj d => match d with [] => false | _ => true end
  end.

(** The Python exceptions that the handler's code can raise by itself,
    and those that its helpers raise. *)
Inductive error (exn : Type) : Type :=
| NameError                       (* name 'base64' is not defined *)
| JSONDecodeError
| AttributeError                  (* [.get] of something that is no dict *)
| TypeError
| ValueError (e : Guardrail.ValidationError)
| BotoClientError (code : str)
| OtherError (e : exn)
| AthenaFailed (state : Runner.State)   (* RuntimeError of [run_athena] *)
| IndexError
| KeyError.

Arguments NameError {exn}.
Arguments JSONDecodeError {exn}.
Arguments AttributeError {exn}.
Arguments TypeError {exn}.
Arguments ValueError {exn} e.
Arguments BotoClientError {exn} code.
Arguments OtherError {exn} e.
Arguments AthenaFailed {exn} state.
Arguments IndexError {exn}.
Arguments KeyError {exn}.

Section Reply.

Variable exn : Type.

(** [for b in v]: a list gives its items, a string its one-character
    strings, a dict its keys; nothing else can be iterated. *)
Definition iterate (v : json) : error exn + list json :=
  match v with
  | JArr l => inr l
  | JStr s => inr (map (fun c => JStr [c]) s)
  | JObj d => inr (map (fun kv => JStr (fst kv)) d)
  | _ => inl TypeError
  end.

(** [b.get("type") == "text"] *)
Definition is_text (v : json) : bool :=
  match v with
  | JStr s => if str_eq_dec s (lit "text") then true else false
  | _ => false
  end.

(** The generator
    [b.get("text", "") for b in blocks if b.get("type") == "text"],
    run to its end as [join] does before it looks at the items. *)
Fixpoint selected (blocks : list json) : error exn + list json :=
  match blocks with
  | [] => inr []
  | JObj d :: rest =>
      if is_text (get d (lit "type")) then
        match selected rest with
        | inr ts => inr (get_default d (lit "text") (JStr []) :: ts)
        | inl e => inl e
        end
      else selected rest
  | _ :: _ => inl AttributeError
  end.

(** ["".join(items)]: every item has to be a string. *)
Fixpoint join_items (items : list json) : error exn + str :=
  match items with
  | [] => inr []
  | JStr s :: rest =>
      match join_items rest with
      | inr t => inr (s ++ t)
      | inl e => inl e
      end
  | _ :: _ => inl TypeError
  end.

(** ["".join(b.get("text", "") for b in out.get("content", [])
             if b.get("type") == "text").strip()] *)
Definition reply_text (out : json) : error exn + str :=
  match out with
  | JObj d =>
      match iterate (get_default d (lit "content") (JArr [])) with
      | inl e => inl e
      | inr blocks =>
          match selected blocks with
          | inl e => inl e
          | inr items =>
              match join_items items with
              | inl e => inl e
              | inr t => inr (strip t)
              end
          end
      end
  | _ => inl AttributeError
  end.

End Reply.

Arguments iterate {exn} v.
Arguments selected {exn} blocks.
Arguments join_items {exn} items.
Arguments reply_text {exn} out.

(** [text.strip().strip("```").strip()], the last line of
    [call_bedrock_for_sql]. *)
Definition clean_sql (text : str) : str :=
  strip (strip_chars (lit "```") (strip text)).

End Json.

(* ===================================================================== *)
(** ** The preview of [summarize_with_bedrock] *)
(* ===================================================================== *)

Module Summary.
Import Py Env.

Definition TAB : ascii := "009"%char.
Definition NEWLINE : ascii := "010"%char.

(** ["" if v is None else str(v)] on a cell of [run_athena]. *)
Definition cell_text (v : Runner.cell) : str :=
  match v with None => [] | Some t => t end.

(** [min(30, len(rows))] *)
Definition max_preview (rows : list Runner.Row) : nat :=
  Nat.min 30 (List.length rows).

(** The lines that are joined: the header line, then one line for each
    of [rows[:max_preview]]. *)
Definition preview_lines (headers : list str) (rows : list Runner.Row)
  : list str :=
  join [TAB] headers
    :: map (fun r => join [TAB] (map cell_text r))
         (firstn (max_preview rows) rows).

Definition preview_tsv (headers : list str) (rows : list Runner.Row) : str :=
  join [NEWLINE] (preview_lines headers rows).

End Summary.

(* ===================================================================== *)
(** ** The entry point: [lambda_handler] *)
(* ===================================================================== *)

Module Handler.
Import Py Json.

(** What a request to the generator is built from; the fixed texts
    around it (schema, system message, few-shot turns, token limits) are
    the same for every request of a kind. *)
Inductive payload : Type :=
| SqlRequest (question : str)
| SummaryRequest (question : str) (max_preview : nat) (preview_tsv : str).

(** The body of the handler's answer; [json.dumps] of it is not
    modelled. *)
Inductive response (exn : Type) : Type :=
| Status200 (question sql : str) (columns : list str)
    (rows : list Runner.Row) (row_count : nat) (narrative : str)
| Status400                       (* "Missing 'question' field" *)
| Status500 (e : error exn).

Arguments Status200 {exn} question sql columns rows row_count narrative.
Arguments Status400 {exn}.
Arguments Status500 {exn} e.

(** What a run did to the world: calls of the generator, sleeps, and
    the statements submitted to the query engine. *)
Record effects : Type :=
  { bedrock_calls : nat; sleeps : list Q; athena_queries : list str }.

Definition no_effects : effects :=
  {| bedrock_calls := 0; sleeps := []; athena_queries := [] |}.

Section Run.

Variable exn : Type.

(** The world: [json.loads], the [k]-th call of the generator with a
    payload, the [k]-th jitter sample, and the replies of the query
    engine to a statement. *)
Variable json_loads : str -> option json.
Variable bedrock : nat -> payload -> Invoker.outcome json exn.
Variable uniform : nat -> Q.
Variable athena : str -> list Runner.State * list Runner.page.

Variable MAX_ROWS : Z.
Variable ALLOWED_SCHEMAS : list str.

(** The first lines of the handler, up to [question]. *)
Definition parse_question (event : dict) : error exn + json :=
  if truthy (get event (lit "isBase64Encoded")) then
    (* json.loads(base64.b64decode(...)): base64 is never imported *)
    inl NameError
  else
    let body := get event (lit "body") in
    let loaded :=
      match body with
      | JStr t =>
          match json_loads t with
          | Some v => inr v
          | None => inl JSONDecodeError
          end
      | _ => inr body
      end in
    match loaded with
    | inl e => inl e
    | inr body =>
        let body := match body with JNull => JObj event | _ => body end in
        match body with
        | JObj d =>
            let q := get d (lit "question") in
            inr (if truthy q then q else get d (lit "q"))
        | _ => inl AttributeError
        end
    end.

(** [invoke_bedrock_with_retry(body)] in a world where the generator has
    been called [calls0] times and [samples0] samples were drawn. *)
Definition invoke (calls0 samples0 : nat) (p : payload)
  : option (Invoker.outcome json exn * Invoker.trace) :=
  Invoker.invoke_bedrock_with_retry
    (fun i => bedrock (calls0 + i) p) (fun i => uniform (samples0 + i))
    Invoker.DEFAULT_MAX_ATTEMPTS.

(** What the caller of the invoker gets: its value, or the exception. *)
Definition returned (o : Invoker.outcome json exn) : error exn + json :=
  match o with
  | @Invoker.Returns _ _ out => inr out
  | @Invoker.ClientError _ _ code => inl (BotoClientError code)
  | @Invoker.OtherException _ _ e => inl (OtherError e)
  end.

(** The end of [call_bedrock_for_sql]. *)
Definition generated_sql (o : Invoker.outcome json exn) : error exn + str :=
  match returned o with
  | inl e => inl e
  | inr out =>
      match reply_text out with
      | inl e => inl e
      | inr text => inr (clean_sql text)
      end
  end.

(** The end of [summarize_with_bedrock]. *)
Definition narrative_of (o : Invoker.outcome json exn) : error exn + str :=
  match returned o with
  | inl e => inl e
  | inr out => reply_text out
  end.

Definition after_invoke (fx : effects) (w : Invoker.trace) : effects :=
  {| bedrock_calls := bedrock_calls fx + Invoker.calls w;
     sleeps := sleeps fx ++ Invoker.slept w;
     athena_queries := athena_queries fx |}.

Definition after_query (fx : effects) (sql : str) : effects :=
  {| bedrock_calls := bedrock_calls fx;
     sleeps := sleeps fx;
     athena_queries := athena_queries fx ++ [sql] |}.

(** [summarize_with_bedrock] and the final [return]. *)
Definition summarize_and_return (q sql : str) (headers : list str)
    (rows : list Runner.Row) (fx : effects) (samples0 : nat)
  : option (response exn * effects) :=
  match
    invoke (bedrock_calls fx) samples0
      (SummaryRequest q (Summary.max_preview rows)
         (Summary.preview_tsv headers rows))
  with
  | None => None
  | Some (o, w) =>
      let fx := after_invoke fx w in
      match narrative_of o with
      | inl e => Some (Status500 e, fx)
      | inr narrative =>
          Some (Status200 q sql headers rows (List.length rows) narrative, fx)
      end
  end.

(** From [sanitize_sql] on. *)
Definition validate_and_run (q candidate : str) (fx : effects) (samples0 : nat)
  : option (response exn * effects) :=
  match Guardrail.sanitize_sql MAX_ROWS ALLOWED_SCHEMAS candidate with
  | Guardrail.Raise e => Some (Status500 (ValueError e), fx)
  | Guardrail.Ok sql =>
      let fx := after_query fx sql in
      match Runner.run_athena MAX_ROWS (fst (athena sql)) (snd (athena sql)) with
      | None => None
      | Some (Runner.ResultSet headers rows) =>
          summarize_and_return q sql headers rows fx samples0
      | Some (Runner.RuntimeError state) =>
          Some (Status500 (AthenaFailed state), fx)
      | Some Runner.IndexError => Some (Status500 IndexError, fx)
      | Some Runner.KeyError => Some (Status500 KeyError, fx)
      end
  end.

(** The handler.  [None] stands for a run that does not return: the
    query engine never reports a terminal state. *)
Definition lambda_handler (event : dict) : option (response exn * effects) :=
  match parse_question event with
  | inl e => Some (Status500 e, no_effects)
  | inr question =>
      if negb (truthy question) then Some (Status400, no_effects)
      else
        match question with
        | JStr q =>
            match invoke 0 0 (SqlRequest q) with
            | None => None
            | Some (o, w) =>
                let fx := after_invoke no_effects w in
                match generated_sql o with
                | inl e => Some (Status500 e, fx)
                | inr candidate =>
                    validate_and_run q candidate fx (Invoker.samples w)
                end
            end
        | _ =>
            (* "User question:\n" + question *)
            Some (Status500 TypeError, no_effects)
        end
  end.

End Run.

End Handler.

(* ===================================================================== *)
(** ** A concrete world for the handler *)
(* ===================================================================== *)

Module Demo.
Import Py Json Handler.

(** A reply of the generator with one text block. *)
Definition text_reply (t : str) : json :=
  JObj [(lit "content",
         JArr [JObj [(lit "type", JStr (lit "text")); (lit "text", JStr t)]])].

(** The generator answers a question with [sql] and a summary request
    with a sentence; no call is throttled. *)
Definition bedrock (sql : str) (_ : nat) (p : payload)
  : Invoker.outcome json unit :=
  match p with
  | SqlRequest _ => Invoker.Returns unit (text_reply sql)
  | SummaryRequest _ _ _ => Invoker.Returns unit (text_reply (lit " Two trips. "))
  end.

Definition json_loads (_ : str) : option json := None.

Definition uniform (_ : nat) : Q := (1 # 10)%Q.

(** The engine succeeds at the second poll with a header and [n] rows. *)
Definition athena (n : nat) (_ : str) : list Runner.State * list Runner.page :=
  ([Runner.RUNNING; Runner.SUCCEEDED],
   [{| Runner.Rows := [Some (lit "n")] :: repeat [Some (lit "1")] n;
       Runner.NextToken := None |}]).

(** A direct invocation: the event is the body. *)
Definition event (question : json) : dict := [(lit "question", question)].

Definition run (sql : str) (e : dict) : option (response unit * effects) :=
  lambda_handler json_loads (bedrock sql) uniform (athena 2) 100
    [lit "nyc_taxi"] e.

(** A run that succeeds: the question, the reply of the generator, the
    statement made of it, the answer and what the run did. *)
Definition question : str := lit "how many trips?".

Definition candidate : str :=
  lit "select count(*) from nyc_taxi.yellow_curated".

Definition statement : str :=
  lit "select count(*) from nyc_taxi.yellow_curated LIMIT 100".

Definition answer : response unit :=
  Status200 question statement [lit "n"]
    [[Some (lit "1")]; [Some (lit "1")]] 2 (lit "Two trips.").

Definition done : effects :=
  {| bedrock_calls := 2; sleeps := []; athena_queries := [statement] |}.



(** An engine that never finishes. *)
Definition stuck (_ : str) : list Runner.State * list Runner.page :=
  ([Runner.QUEUED; Runner.RUNNING], []).

(** A content block of a reply, and a reply made of blocks given as
    pairs of a type and a text. *)
Definition block (b : str * str) : json :=
  JObj [(lit "type", JStr (fst b)); (lit "text", JStr (snd b))].

Definition reply (blocks : list (str * str)) : json :=
  JObj [(lit "content", JArr (map block blocks))].

(** The texts of the blocks of type [text], in order, as one text. *)
Definition texts (blocks : list (str * str)) : str :=
  List.concat
    (map snd
       (filter (fun b => if str_eq_dec (fst b) (lit "text") then true else false)
          blocks)).

End Demo.

(* ===================================================================== *)
(** ** Facts about code points *)
(* ===================================================================== *)

Import Py Re Guardrail Spec.

(** Case analysis over all 256 code points. *)
Ltac each_char c :=
  destruct c as [[|] [|] [|] [|] [|] [|] [|] [|]];
  vm_compute; try reflexivity; try discriminate; auto.

Lemma space_not_word c : isspace c = true -> isword c = false.
Proof. each_char c. Qed.

Lemma space_not_token c : isspace c = true -> istoken c = false.
Proof. each_char c. Qed.

Lemma alpha_is_word c : isalpha_ascii c = true -> isword c = true.
Proof. each_char c. Qed.

Lemma alpha_is_token c : isalpha_ascii c = true -> istoken c = true.
Proof. each_char c. Qed.

Lemma alpha_not_space c : isalpha_ascii c = true -> isspace c = false.
Proof. each_char c. Qed.

Lemma token_not_space c : istoken c = true -> isspace c = false.
Proof. each_char c. Qed.

Lemma token_not_quote c :
  istoken c = true -> one_of [DQUOTE] c = false /\
  one_of [BACKTICK] c = false /\ one_of [QUOTE] c = false.
Proof. each_char c. Qed.

Lemma quote_not_token c :
  c = DQUOTE \/ c = BACKTICK \/ c = QUOTE -> istoken c = false.
Proof. intros [-> | [-> | ->]]; reflexivity. Qed.

Lemma lower_alpha c : isalpha_ascii (lower c) = isalpha_ascii c.
Proof. each_char c. Qed.

Lemma lower_idem c : lower (lower c) = lower c.
Proof. each_char c. Qed.

Lemma semi_space c : one_of [SEMI] c = true -> isspace c = false.
Proof. each_char c. Qed.

Lemma one_of_single ch c : one_of [ch] c = Ascii.eqb c ch.
Proof. unfold one_of; simpl. apply orb_false_r. Qed.

Lemma chr_matches_lower c d : chr_matches c d = true <-> lower c = lower d.
Proof. unfold chr_matches. apply Ascii.eqb_eq. Qed.

Lemma chr_matches_alpha c d :
  chr_matches c d = true -> isalpha_ascii c = true -> isalpha_ascii d = true.
Proof.
  intros H Hc. apply chr_matches_lower in H.
  rewrite <- lower_alpha, <- H, lower_alpha. exact Hc.
Qed.

Lemma chr_matches_refl c : chr_matches c c = true.
Proof. apply chr_matches_lower. reflexivity. Qed.

(* ===================================================================== *)
(** ** Facts about the string primitives *)
(* ===================================================================== *)

Section StripFacts.

Variable p : ascii -> bool.

Lemma all_app (q : ascii -> bool) a b : all q (a ++ b) <-> all q a /\ all q b.
Proof. unfold all. apply Forall_app. Qed.

Lemma none_app (q : ascii -> bool) a b : none q (a ++ b) <-> none q a /\ none q b.
Proof. unfold none. apply Forall_app. Qed.

Lemma lstrip_by_all ws s : all p ws -> lstrip_by p (ws ++ s) = lstrip_by p s.
Proof.
  induction 1 as [|c ws Hc _ IH]; simpl; [reflexivity|].
  rewrite Hc. exact IH.
Qed.

Lemma lstrip_by_head c s : p c = false -> lstrip_by p (c :: s) = c :: s.
Proof. intros H. simpl. rewrite H. reflexivity. Qed.

(** The text splits into the stripped prefix and what is left. *)
Lemma lstrip_by_split s :
  exists ws, s = ws ++ lstrip_by p s /\ all p ws.
Proof.
  induction s as [|c s [ws [E H]]]; simpl.
  - exists []. split; [reflexivity | constructor].
  - destruct (p c) eqn:Hc.
    + exists (c :: ws). split; [simpl; congruence | constructor; assumption].
    + exists []. split; [reflexivity | constructor].
Qed.

Lemma lstrip_by_hd s :
  match lstrip_by p s with c :: _ => p c = false | [] => True end.
Proof.
  induction s as [|c s IH]; simpl; [exact I|].
  destruct (p c) eqn:Hc; [exact IH | exact Hc].
Qed.

Lemma rstrip_by_all ws : all p ws -> rstrip_by p ws = [].
Proof.
  induction 1 as [|c ws Hc _ IH]; simpl; [reflexivity|].
  rewrite IH, Hc. reflexivity.
Qed.

Lemma rstrip_by_app_all s ws : all p ws -> rstrip_by p (s ++ ws) = rstrip_by p s.
Proof.
  intros H. induction s as [|c s IH]; simpl.
  - apply rstrip_by_all, H.
  - rewrite IH. reflexivity.
Qed.

Lemma rstrip_by_split s :
  exists ws, s = rstrip_by p s ++ ws /\ all p ws.
Proof.
  induction s as [|c s [ws [E H]]]; simpl.
  - exists []. split; [reflexivity | constructor].
  - destruct (rstrip_by p s) as [|d r] eqn:Hr.
    + simpl in E. subst ws. destruct (p c) eqn:Hc.
      * exists (c :: s). split; [reflexivity | constructor; assumption].
      * exists s. split; [reflexivity | assumption].
    + exists ws. split; [simpl in E |- *; congruence | assumption].
Qed.

(** A text that ends outside the class is left alone. *)
Lemma rstrip_by_keep s c : p c = false -> rstrip_by p (s ++ [c]) = s ++ [c].
Proof.
  intros Hc. induction s as [|d s IH]; simpl.
  - rewrite Hc. reflexivity.
  - rewrite IH. destruct (s ++ [c]) eqn:E; [|reflexivity].
    destruct s; discriminate.
Qed.

Lemma rstrip_by_app_keep s t c :
  p c = false -> rstrip_by p (s ++ t ++ [c]) = s ++ t ++ [c].
Proof. intros H. rewrite app_assoc. apply rstrip_by_keep, H. Qed.

Lemma rstrip_by_last s :
  rstrip_by p s = [] \/
  exists r c, rstrip_by p s = r ++ [c] /\ p c = false.
Proof.
  induction s as [|c s IH]; simpl; [left; reflexivity|].
  destruct (rstrip_by p s) as [|d r] eqn:Hr.
  - destruct (p c) eqn:Hc; [left; reflexivity|].
    right. exists [], c. split; [reflexivity | exact Hc].
  - right. destruct IH as [IH | [r' [c' [E Hc']]]]; [discriminate|].
    exists (c :: r'), c'. split; [simpl; rewrite E; reflexivity | exact Hc'].
Qed.

Lemma rstrip_by_idem s : rstrip_by p (rstrip_by p s) = rstrip_by p s.
Proof.
  destruct (rstrip_by_last s) as [E | [r [c [E Hc]]]]; rewrite E.
  - reflexivity.
  - apply rstrip_by_keep, Hc.
Qed.

Lemma rstrip_by_none s : none p s -> rstrip_by p s = s.
Proof.
  induction 1 as [|c s Hc _ IH]; simpl; [reflexivity|].
  rewrite IH, Hc. destruct s; reflexivity.
Qed.

Lemma lstrip_by_none s : none p s -> lstrip_by p s = s.
Proof. destruct 1 as [|c s Hc _]; simpl; [|rewrite Hc]; reflexivity. Qed.

Lemma strip_by_none s : none p s -> strip_by p s = s.
Proof.
  intros H. unfold strip_by. rewrite lstrip_by_none by exact H.
  apply rstrip_by_none, H.
Qed.

(** The head of a text survives the right strip when it is outside the
    class. *)
Lemma rstrip_by_cons c s :
  p c = false -> rstrip_by p (c :: s) = c :: rstrip_by p s.
Proof. intros H. simpl. rewrite H. destruct (rstrip_by p s); reflexivity. Qed.

Lemma lstrip_rstrip_comm_hd c s :
  p c = false -> lstrip_by p (rstrip_by p (c :: s)) = rstrip_by p (c :: s).
Proof.
  intros H. rewrite rstrip_by_cons by exact H. apply lstrip_by_head, H.
Qed.

Lemma strip_by_idem s : strip_by p (strip_by p s) = strip_by p s.
Proof.
  unfold strip_by.
  pose proof (lstrip_by_hd s) as Hh.
  destruct (lstrip_by p s) as [|c t]; [reflexivity|].
  rewrite lstrip_rstrip_comm_hd by exact Hh.
  apply rstrip_by_idem.
Qed.

(** The trim splits the text into whitespace, the trimmed text, and
    whitespace. *)
Lemma strip_by_split s :
  exists l r, s = l ++ strip_by p s ++ r /\ all p l /\ all p r.
Proof.
  destruct (lstrip_by_split s) as [l [El Hl]].
  destruct (rstrip_by_split (lstrip_by p s)) as [r [Er Hr]].
  exists l, r. unfold strip_by. rewrite <- Er. auto.
Qed.

End StripFacts.

Lemma strip_idem s : strip (strip s) = strip s.
Proof. apply strip_by_idem. Qed.

Lemma rstrip_strip s : rstrip (strip s) = strip s.
Proof. apply rstrip_by_idem. Qed.

(* ===================================================================== *)
(** ** Facts about the matcher *)
(* ===================================================================== *)

Lemma prev_after_app prev a b :
  prev_after prev (a ++ b) = prev_after (prev_after prev a) b.
Proof. unfold prev_after. apply fold_left_app. Qed.

Lemma prev_after_last prev a c : prev_after prev (a ++ [c]) = Some c.
Proof. rewrite prev_after_app. reflexivity. Qed.

Lemma prev_after_cons_some prev c a : exists d, prev_after prev (c :: a) = Some d.
Proof.
  simpl. generalize c. induction a as [|e a IH]; intros c0; simpl.
  - exists c0. reflexivity.
  - apply IH.
Qed.

(** Reading a non-empty text forgets where the reading started. *)
Lemma prev_after_nonempty p1 p2 a :
  a <> [] -> prev_after p1 a = prev_after p2 a.
Proof. destruct a; [congruence | reflexivity]. Qed.

Lemma prev_after_class (q : ascii -> bool) prev a :
  a <> [] -> all q a -> exists d, prev_after prev a = Some d /\ q d = true.
Proof.
  intros Hne Ha. destruct (exists_last Hne) as [a' [c E]]. subst a.
  exists c. split; [apply prev_after_last|].
  apply all_app in Ha. destruct Ha as [_ Hc]. inversion Hc; assumption.
Qed.

Lemma span_app p s : let (u, rest) := span p s in s = u ++ rest.
Proof.
  induction s as [|c s IH]; simpl; [reflexivity|].
  destruct (p c); [|reflexivity].
  destruct (span p s) as [u rest]. simpl. congruence.
Qed.

Lemma span_all p s : all p (fst (span p s)).
Proof.
  induction s as [|c s IH]; simpl; [constructor|].
  destruct (p c) eqn:Hc; [|constructor].
  destruct (span p s) as [u rest]. simpl in *. constructor; assumption.
Qed.

Lemma span_rest p s :
  match snd (span p s) with c :: _ => p c = false | [] => True end.
Proof.
  induction s as [|c s IH]; simpl; [exact I|].
  destruct (p c) eqn:Hc; [|exact Hc].
  destruct (span p s) as [u rest]. exact IH.
Qed.

(** The span of a text built from a run in the class and a rest that
    starts outside it. *)
Lemma span_exact p u rest :
  all p u ->
  match rest with c :: _ => p c = false | [] => True end ->
  span p (u ++ rest) = (u, rest).
Proof.
  intros Hu Hr. induction Hu as [|c u Hc _ IH]; simpl.
  - destruct rest as [|c r]; [reflexivity|]. simpl. rewrite Hr. reflexivity.
  - rewrite Hc, IH. reflexivity.
Qed.

Lemma ci_eq_refl w : ci_eq w w.
Proof. reflexivity. Qed.

Lemma ci_eq_length u w : ci_eq u w -> List.length u = List.length w.
Proof.
  unfold ci_eq. intros H. apply (f_equal (@List.length _)) in H.
  rewrite !length_map in H. exact H.
Qed.

Lemma ci_eq_alpha u w : ci_eq u w -> all isalpha_ascii w -> all isalpha_ascii u.
Proof.
  unfold ci_eq. revert w. induction u as [|c u IH]; intros [|d w] H Hw;
    try discriminate; [constructor|].
  simpl in H. injection H as Hc Hu. inversion Hw; subst.
  constructor.
  - rewrite <- lower_alpha, Hc, lower_alpha. assumption.
  - eapply IH; eassumption.
Qed.

(** [ci_prefix] decides "starts with [w] up to case". *)
Lemma ci_prefix_sound w s u rest :
  ci_prefix w s = Some (u, rest) -> s = u ++ rest /\ ci_eq u w.
Proof.
  unfold ci_eq. revert s u rest.
  induction w as [|c w IH]; intros s u rest; simpl.
  - intros H. injection H as <- <-. auto.
  - destruct s as [|d s]; [discriminate|].
    destruct (chr_matches c d) eqn:Hcd; [|discriminate].
    apply chr_matches_lower in Hcd.
    destruct (ci_prefix w s) as [[u' rest']|] eqn:Hp; [|discriminate].
    intros H. injection H as <- <-.
    apply IH in Hp. destruct Hp as [-> Hu']. simpl. split; congruence.
Qed.

Lemma ci_prefix_app u w rest :
  ci_eq u w -> ci_prefix w (u ++ rest) = Some (u, rest).
Proof.
  unfold ci_eq. revert u. induction w as [|c w IH]; intros [|d u] H;
    try discriminate; [reflexivity|].
  simpl in H. injection H as Hd Hu. simpl.
  assert (Hcd : chr_matches c d = true)
    by (apply chr_matches_lower; congruence).
  rewrite Hcd, (IH u Hu). reflexivity.
Qed.

Lemma ci_prefix_some w s u rest :
  ci_prefix w s = Some (u, rest) <-> s = u ++ rest /\ ci_eq u w.
Proof.
  split; [apply ci_prefix_sound|].
  intros [-> H]. apply ci_prefix_app, H.
Qed.

Lemma ci_prefix_cons c w d s :
  ci_prefix (c :: w) (d :: s) =
  if chr_matches c d then
    match ci_prefix w s with
    | Some (u, rest) => Some (d :: u, rest)
    | None => None
    end
  else None.
Proof. reflexivity. Qed.

(** A literal word consumes a prefix equal to it up to case. *)
Lemma exec_word A w prev s g (k : cont A) :
  w <> [] ->
  exec (word w) prev s g k =
  match ci_prefix w s with
  | Some (u, rest) => k (prev_after prev u) rest g
  | None => None
  end.
Proof.
  revert prev s. induction w as [|c w IH]; intros prev s Hne; [congruence|].
  destruct w as [|c' w].
  - simpl. destruct s as [|d s]; [reflexivity|].
    destruct (chr_matches c d); reflexivity.
  - change (word (c :: c' :: w)) with (Cat (Chr c) (word (c' :: w))).
    cbn [exec]. destruct s as [|d s]; [reflexivity|].
    rewrite (ci_prefix_cons c (c' :: w) d s).
    destruct (chr_matches c d); [|reflexivity].
    rewrite IH by discriminate.
    destruct (ci_prefix (c' :: w) s) as [[u rest]|]; reflexivity.
Qed.

(** Greedy repetition followed by something that cannot start inside the
    class: the whole span is taken, nothing is given back. *)
Lemma rep_skip A p min prev s g (k : cont A) :
  (forall prev' c s' g', p c = true -> k prev' (c :: s') g' = None) ->
  rep p min prev s g k =
  let (u, rest) := span p s in
  if min <=? List.length u then k (prev_after prev u) rest g else None.
Proof.
  intros Hk. revert min prev. induction s as [|c s IH]; intros min prev.
  - simpl. destruct min; reflexivity.
  - cbn [rep span]. destruct (p c) eqn:Hc.
    + rewrite IH. destruct (span p s) as [u rest].
      cbn [List.length prev_after fold_left].
      destruct min as [|min]; cbn [pred Nat.leb].
      * change (fold_left (fun _ c0 => Some c0) u (Some c))
          with (prev_after (Some c) u).
        rewrite (Hk _ _ _ _ Hc).
        destruct (k (prev_after (Some c) u) rest g); reflexivity.
      * change (fold_left (fun _ c0 => Some c0) u (Some c))
          with (prev_after (Some c) u).
        destruct (min <=? List.length u);
          [destruct (k (prev_after (Some c) u) rest g)|]; reflexivity.
    + destruct min; reflexivity.
Qed.

(** Greedy repetition followed by something that always succeeds. *)
Lemma rep_greedy A p min prev s g (k : cont A) :
  (forall prev' s' g', k prev' s' g' <> None) ->
  rep p min prev s g k =
  let (u, rest) := span p s in
  if min <=? List.length u then k (prev_after prev u) rest g else None.
Proof.
  intros Hk. revert min prev. induction s as [|c s IH]; intros min prev.
  - simpl. destruct min; reflexivity.
  - cbn [rep span]. destruct (p c) eqn:Hc.
    + rewrite IH. destruct (span p s) as [u rest].
      cbn [List.length prev_after fold_left].
      change (fold_left (fun _ c0 => Some c0) u (Some c))
        with (prev_after (Some c) u).
      destruct min as [|min]; cbn [pred Nat.leb].
      * destruct (k (prev_after (Some c) u) rest g) eqn:E; [reflexivity|].
        exfalso. exact (Hk _ _ _ E).
      * destruct (min <=? List.length u);
          [destruct (k (prev_after (Some c) u) rest g)|]; reflexivity.
    + destruct min; reflexivity.
Qed.

(* ===================================================================== *)
(** ** Search and scan *)
(* ===================================================================== *)

Section Scan.

Variable r : regex.

Lemma found_unfold prev s :
  found r prev s =
  matches r prev s ||
  match s with c :: s' => found r (Some c) s' | [] => false end.
Proof.
  unfold found, matches. destruct s as [|c s]; simpl;
    destruct (match_at r prev _); reflexivity.
Qed.

(** A search succeeds exactly when the pattern matches at some position. *)
Lemma found_iff prev s :
  found r prev s = true <->
  exists pre post, s = pre ++ post /\ matches r (prev_after prev pre) post = true.
Proof.
  revert prev. induction s as [|c s IH]; intros prev; rewrite found_unfold.
  - rewrite orb_false_r. split.
    + intros H. exists [], []. auto.
    + intros [pre [post [E H]]].
      symmetry in E. apply app_eq_nil in E. destruct E; subst. exact H.
  - rewrite orb_true_iff, IH. split.
    + intros [H | [pre [post [E H]]]].
      * exists [], (c :: s). auto.
      * exists (c :: pre), post. subst s. auto.
    + intros [[|d pre] [post [E H]]].
      * left. simpl in E. subst post. exact H.
      * right. simpl in E. injection E as <- E. exists pre, post. auto.
Qed.

(** The scan finds something exactly when the search does. *)
Lemma finditer_from_nil i prev s :
  finditer_from r 0 i prev s = [] <-> found r prev s = false.
Proof.
  revert i prev. induction s as [|c s IH]; intros i prev;
    rewrite found_unfold; unfold matches; simpl.
  - destruct (match_at r prev []) as [[g s1]|]; simpl; split;
      congruence.
  - destruct (match_at r prev (c :: s)) as [[g s1]|]; simpl.
    + split; discriminate.
    + apply IH.
Qed.

(** Every item of the scan is a match of the pattern at the item's
    offset. *)
Lemma finditer_from_sound s : forall skip i prev m,
  In m (finditer_from r skip i prev s) ->
  exists pre post g rest,
    s = pre ++ post /\ m_start m = i + List.length pre /\
    match_at r (prev_after prev pre) post = Some (g, rest) /\
    m_group m = group_text g /\
    m_end m = m_start m + (List.length post - List.length rest).
Proof.
  induction s as [|c s IH]; intros skip i prev m H.
  - simpl in H. destruct skip; [|contradiction].
    destruct (match_at r prev []) as [[g s1]|] eqn:E; [|contradiction].
    destruct H as [<-|[]]. exists [], [], g, s1. simpl.
    unfold m_start, m_end, m_group. simpl. repeat split; auto with arith.
  - simpl in H.
    assert (Hrec : forall n, In m (finditer_from r n (S i) (Some c) s) ->
      exists pre post g rest,
        c :: s = pre ++ post /\ m_start m = i + List.length pre /\
        match_at r (prev_after prev pre) post = Some (g, rest) /\
        m_group m = group_text g /\
        m_end m = m_start m + (List.length post - List.length rest)).
    { intros n Hn. destruct (IH _ _ _ _ Hn) as [pre [post [g [rest [E [Hs [Hm [Hg He]]]]]]]].
      exists (c :: pre), post, g, rest. subst s. simpl.
      repeat split; auto. lia. }
    destruct skip as [|n]; [|eapply Hrec; eassumption].
    destruct (match_at r prev (c :: s)) as [[g s1]|] eqn:E;
      [|eapply Hrec; eassumption].
    destruct H as [<- | H]; [|eapply Hrec; eassumption].
    exists [], (c :: s), g, s1. simpl. unfold m_start, m_end, m_group. simpl.
    repeat split; auto with arith.
Qed.

(** A match of the pattern at some offset is an item of the scan, unless
    the offset lies inside an item that starts earlier. *)
Lemma finditer_from_complete pre : forall skip i prev post g rest,
  skip <= List.length pre ->
  match_at r (prev_after prev pre) post = Some (g, rest) ->
  List.length rest < List.length post ->
  let n := i + List.length pre in
  let items := finditer_from r skip i prev (pre ++ post) in
  In (n, n + (List.length post - List.length rest), group_text g) items \/
  exists m, In m items /\ m_start m < n < m_end m.
Proof.
  induction pre as [|c pre IH]; intros skip i prev post g rest Hskip Hm Hlen n items.
  - subst n items. simpl in *. replace skip with 0 by lia.
    destruct post as [|d post]; [simpl in Hlen; lia|].
    simpl. rewrite Hm. left. left. f_equal. f_equal; lia.
  - subst n items. simpl List.length. simpl app. cbn [finditer_from].
    assert (Hrec : forall k, k <= List.length pre ->
      let items := finditer_from r k (S i) (Some c) (pre ++ post) in
      In (i + S (List.length pre),
          i + S (List.length pre) + (List.length post - List.length rest),
          group_text g) items \/
      exists m, In m items /\ m_start m < i + S (List.length pre) < m_end m).
    { intros k Hk. replace (i + S (List.length pre)) with (S i + List.length pre) by lia.
      apply IH; assumption. }
    destruct skip as [|k]; [|apply Hrec; simpl in Hskip; lia].
    destruct (match_at r prev (c :: pre ++ post)) as [[g1 s1]|] eqn:E;
      [|apply Hrec; lia].
    set (L := List.length (c :: pre ++ post) - List.length s1).
    destruct (le_lt_dec (pred L) (List.length pre)) as [Hle | Hgt].
    + destruct (Hrec (pred L) Hle) as [H | [m [H Hc]]].
      * left. right. exact H.
      * right. exists m. split; [right; exact H | exact Hc].
    + right. exists (i, i + L, group_text g1). split; [left; reflexivity|].
      unfold m_start, m_end. simpl. lia.
Qed.

End Scan.

Lemma finditer_nil r s : finditer r s = [] <-> found r None s = false.
Proof. apply finditer_from_nil. Qed.

Lemma re_findall_nil r s : re_findall r s = [] <-> found r None s = false.
Proof.
  unfold re_findall. rewrite <- finditer_nil.
  destruct (finditer r s); simpl; split; congruence.
Qed.

(* ===================================================================== *)
(** ** Whole-word patterns: [\bword\b] *)
(* ===================================================================== *)

Section Keyword.

Variable w : str.
Hypothesis w_nonempty : w <> [].
Hypothesis w_alpha : all isalpha_ascii w.

Lemma keyword_copy_nonempty u : ci_eq u w -> u <> [].
Proof.
  intros H E. apply ci_eq_length in H. subst u.
  destruct w; [congruence | discriminate].
Qed.

(** After a copy of the keyword the previous code point is a word one. *)
Lemma keyword_last prev u :
  ci_eq u w -> isword_opt (prev_after prev u) = true.
Proof.
  intros H.
  destruct (@prev_after_class isalpha_ascii prev u) as [d [E Hd]].
  - apply keyword_copy_nonempty, H.
  - eapply ci_eq_alpha; eassumption.
  - rewrite E. simpl. apply alpha_is_word, Hd.
Qed.

(** A copy of the keyword starts with a word code point. *)
Lemma keyword_first u rest :
  ci_eq u w -> isword_opt (hd_error (u ++ rest)) = true.
Proof.
  intros H. pose proof (keyword_copy_nonempty H) as Hne.
  pose proof (ci_eq_alpha H w_alpha) as Ha.
  destruct u as [|c u]; [congruence|]. inversion Ha; subst.
  simpl. apply alpha_is_word. assumption.
Qed.

(** The keyword cannot start at a code point that is not a letter. *)
Lemma keyword_not_here c s :
  isalpha_ascii c = false -> ci_prefix w (c :: s) = None.
Proof.
  intros Hc. destruct w as [|a w'] eqn:Ew; [congruence|].
  rewrite ci_prefix_cons. destruct (chr_matches a c) eqn:E; [|reflexivity].
  inversion w_alpha; subst.
  apply chr_matches_alpha in E; [congruence | assumption].
Qed.

Lemma keyword_not_nil : ci_prefix w [] = None.
Proof. destruct w; [congruence | reflexivity]. Qed.

(** [word \b] after the keyword's text. *)
Lemma word_then_bnd A prev s g (k : cont A) :
  exec (word w) prev s g
    (fun p' s' g' => if at_boundary p' s' then k p' s' g' else None) =
  match ci_prefix w s with
  | Some (u, rest) =>
      if negb (isword_opt (hd_error rest))
      then k (prev_after prev u) rest g else None
  | None => None
  end.
Proof.
  rewrite exec_word by exact w_nonempty.
  destruct (ci_prefix w s) as [[u rest]|] eqn:E; [|reflexivity].
  apply ci_prefix_sound in E. destruct E as [_ Hu].
  unfold at_boundary. rewrite (keyword_last prev Hu).
  destruct (isword_opt (hd_error rest)); reflexivity.
Qed.

(** [\b] before the keyword's text. *)
Lemma bnd_before prev s u rest :
  ci_prefix w s = Some (u, rest) ->
  at_boundary prev s = negb (isword_opt prev).
Proof.
  intros E. apply ci_prefix_sound in E. destruct E as [-> Hu].
  unfold at_boundary. rewrite (keyword_first _ Hu).
  destruct (isword_opt prev); reflexivity.
Qed.

(** [\bword\b] matches at a position exactly when the keyword stands
    there as a whole word. *)
Lemma matches_keyword prev s :
  matches (Cat Bnd (Cat (word w) Bnd)) prev s = word_at w prev s.
Proof.
  unfold matches, match_at, word_at. cbn [exec].
  rewrite (@word_then_bnd _ prev s None (fun _ s' g => Some (g, s'))).
  destruct (ci_prefix w s) as [[u rest]|] eqn:E.
  - rewrite (bnd_before prev s E).
    destruct (isword_opt prev), (isword_opt (hd_error rest)); reflexivity.
  - rewrite andb_false_r. destruct (at_boundary prev s); reflexivity.
Qed.

Lemma has_word_unfold prev s :
  has_word w prev s =
  word_at w prev s ||
  match s with c :: s' => has_word w (Some c) s' | [] => false end.
Proof. destruct s; reflexivity. Qed.

Lemma found_keyword prev s :
  found (Cat Bnd (Cat (word w) Bnd)) prev s = has_word w prev s.
Proof.
  revert prev. induction s as [|c s IH]; intros prev;
    rewrite found_unfold, has_word_unfold, matches_keyword.
  - reflexivity.
  - rewrite IH. reflexivity.
Qed.

(** [has_word] decides [contains_word]. *)
Lemma has_word_iff prev s :
  has_word w prev s = true <->
  exists pre u post,
    s = pre ++ u ++ post /\ ci_eq u w /\
    isword_opt (prev_after prev pre) = false /\
    isword_opt (hd_error post) = false.
Proof.
  rewrite <- found_keyword, found_iff. split.
  - intros [pre [post [E H]]]. rewrite matches_keyword in H.
    unfold word_at in H. apply andb_true_iff in H. destruct H as [Hp H].
    destruct (ci_prefix w post) as [[u rest]|] eqn:Ep; [|discriminate].
    apply ci_prefix_sound in Ep. destruct Ep as [-> Hu].
    exists pre, u, rest. repeat split; auto.
    + apply negb_true_iff, Hp.
    + apply negb_true_iff, H.
  - intros [pre [u [post [E [Hu [Hp Hq]]]]]].
    exists pre, (u ++ post). split; [exact E|].
    rewrite matches_keyword. unfold word_at.
    rewrite (ci_prefix_app post Hu), Hp, Hq. reflexivity.
Qed.

Lemma contains_word_iff s : contains_word w s <-> has_word w None s = true.
Proof. symmetry. apply has_word_iff. Qed.

(** The keyword's standing at a position does not depend on what the
    previous code point is, only on whether it is a word one. *)
Lemma word_at_prev p1 p2 s :
  isword_opt p1 = isword_opt p2 -> word_at w p1 s = word_at w p2 s.
Proof. unfold word_at. intros ->. reflexivity. Qed.

Lemma has_word_prev p1 p2 s :
  isword_opt p1 = isword_opt p2 -> has_word w p1 s = has_word w p2 s.
Proof.
  intros H. rewrite !has_word_unfold, (word_at_prev _ _ _ H). reflexivity.
Qed.

(** Non-word code points in front of the text change nothing. *)
Lemma has_word_lead l s prev :
  none isword l -> isword_opt prev = false ->
  has_word w prev (l ++ s) = has_word w prev s.
Proof.
  intros Hl. revert prev. induction Hl as [|c l Hc _ IH]; intros prev Hp;
    [reflexivity|].
  simpl app. rewrite has_word_unfold.
  assert (Hna : isalpha_ascii c = false).
  { destruct (isalpha_ascii c) eqn:E; [|reflexivity].
    apply alpha_is_word in E. congruence. }
  unfold word_at at 1. rewrite (keyword_not_here c _ Hna), andb_false_r.
  simpl. rewrite IH by exact Hc.
  apply has_word_prev. simpl. congruence.
Qed.

(** The end of the keyword's text, seen through an appended text that
    starts with a non-word code point. *)
Lemma word_at_app prev s t :
  isword_opt (hd_error t) = false ->
  word_at w prev s = true -> word_at w prev (s ++ t) = true.
Proof.
  intros Ht H. unfold word_at in *. apply andb_true_iff in H.
  destruct H as [Hp H]. rewrite Hp. simpl.
  destruct (ci_prefix w s) as [[u rest]|] eqn:E; [|discriminate].
  apply ci_prefix_sound in E. destruct E as [-> Hu].
  rewrite <- app_assoc, (ci_prefix_app _ Hu).
  destruct rest as [|c rest]; [|exact H].
  simpl. rewrite Ht. reflexivity.
Qed.

Lemma has_word_app prev s t :
  isword_opt (hd_error t) = false ->
  has_word w prev s = true -> has_word w prev (s ++ t) = true.
Proof.
  intros Ht. revert prev. induction s as [|c s IH]; intros prev;
    rewrite (has_word_unfold prev), (has_word_unfold prev (_ ++ t));
    intros H; apply orb_true_iff in H; apply orb_true_iff.
  - destruct H as [H | H]; [|discriminate].
    left. apply word_at_app; assumption.
  - destruct H as [H | H].
    + left. apply word_at_app; assumption.
    + right. simpl. apply IH, H.
Qed.

(** The keyword does not stand in a text of non-word code points. *)
Lemma has_word_nonword prev t : none isword t -> has_word w prev t = false.
Proof.
  intros Ht. revert prev. induction Ht as [|c t Hc _ IH]; intros prev.
  - simpl. unfold word_at. rewrite keyword_not_nil, andb_false_r. reflexivity.
  - rewrite has_word_unfold, IH. unfold word_at.
    assert (Hna : isalpha_ascii c = false).
    { destruct (isalpha_ascii c) eqn:E; [|reflexivity].
      apply alpha_is_word in E. congruence. }
    rewrite (keyword_not_here c _ Hna), andb_false_r. reflexivity.
Qed.

(** Non-word code points after the text change nothing either. *)
Lemma word_at_trail prev s t :
  none isword t -> word_at w prev (s ++ t) = word_at w prev s.
Proof.
  intros Ht. unfold word_at. f_equal.
  assert (Hhd : isword_opt (hd_error t) = false).
  { destruct Ht as [|c t Hc _]; [reflexivity | exact Hc]. }
  destruct (ci_prefix w s) as [[u rest]|] eqn:E.
  - apply ci_prefix_sound in E. destruct E as [-> Hu].
    rewrite <- app_assoc, (ci_prefix_app _ Hu).
    destruct rest; simpl; [rewrite Hhd|]; reflexivity.
  - destruct (ci_prefix w (s ++ t)) as [[u rest]|] eqn:E2; [|reflexivity].
    exfalso. apply ci_prefix_sound in E2. destruct E2 as [E2 Hu].
    (* the copy [u] of the keyword lies within [s], as [t] has no letter *)
    pose proof (ci_eq_alpha Hu w_alpha) as Ha. clear Hhd.
    assert (Hin : exists s2, s = u ++ s2).
    { clear E Hu. revert s rest E2. induction Ha as [|c u Hc _ IH]; intros s rest E2.
      - exists s. reflexivity.
      - destruct s as [|d s].
        + simpl in E2. subst t. inversion Ht; subst.
          apply alpha_is_word in Hc. congruence.
        + simpl in E2. injection E2 as <- E2.
          destruct (IH s rest E2) as [s2 ->]. exists s2. reflexivity. }
    destruct Hin as [s2 ->]. rewrite (ci_prefix_app _ Hu) in E. discriminate.
Qed.

Lemma has_word_trail prev s t :
  none isword t -> has_word w prev (s ++ t) = has_word w prev s.
Proof.
  intros Ht. revert prev. induction s as [|c s IH]; intros prev.
  - simpl app. rewrite (has_word_nonword prev Ht). simpl.
    unfold word_at. rewrite keyword_not_nil, andb_false_r. reflexivity.
  - simpl app. rewrite (has_word_unfold prev (c :: s ++ t)),
      (has_word_unfold prev (c :: s)).
    change (c :: s ++ t) with ((c :: s) ++ t).
    rewrite (word_at_trail prev (c :: s) Ht), IH. reflexivity.
Qed.

End Keyword.

(* ===================================================================== *)
(** ** The patterns of the validator *)
(* ===================================================================== *)

Lemma lit_alpha_select : all isalpha_ascii (lit "select").
Proof. repeat constructor. Qed.

Lemma lit_ne_select : lit "select" <> [].
Proof. discriminate. Qed.

Lemma lit_ne_limit : lit "limit" <> [].
Proof. discriminate. Qed.

Lemma lit_ne_from : lit "from" <> [].
Proof. discriminate. Qed.

Lemma lit_ne_join : lit "join" <> [].
Proof. discriminate. Qed.

Lemma lit_alpha_limit : all isalpha_ascii (lit "limit").
Proof. repeat constructor. Qed.

Lemma lit_alpha_from : all isalpha_ascii (lit "from").
Proof. repeat constructor. Qed.

Lemma lit_alpha_join : all isalpha_ascii (lit "join").
Proof. repeat constructor. Qed.

Lemma banned_alpha w : In w banned_set -> w <> [] /\ all isalpha_ascii w.
Proof.
  unfold banned_set, banned_words. simpl.
  intros H. repeat (destruct H as [<- | H]; [split; [discriminate | repeat constructor]|]).
  contradiction.
Qed.

Lemma span_lstrip p s : snd (span p s) = lstrip_by p s.
Proof.
  induction s as [|c s IH]; simpl; [reflexivity|].
  destruct (p c); [|reflexivity].
  destruct (span p s); exact IH.
Qed.

(** [^\s*select\b] at the start of a text. *)
Lemma matches_select t :
  matches SELECT_RE None t = word_at (lit "select") None (lstrip_by isspace t).
Proof.
  unfold matches, re_match, match_at, SELECT_RE. cbn [exec].
  rewrite rep_skip.
  - pose proof (span_lstrip isspace t) as Hs.
    destruct (span isspace t) as [ws r]. simpl in Hs. subst r.
    cbn [Nat.leb].
    rewrite (word_then_bnd lit_ne_select lit_alpha_select).
    unfold word_at. simpl negb at 1. cbn [andb].
    destruct (ci_prefix (lit "select") (lstrip_by isspace t)) as [[u rest]|];
      [|reflexivity].
    destruct (negb (isword_opt (hd_error rest))); reflexivity.
  - intros prev' c s' g' Hc.
    rewrite (word_then_bnd lit_ne_select lit_alpha_select).
    rewrite (keyword_not_here lit_ne_select lit_alpha_select);
      [reflexivity|].
    destruct (isalpha_ascii c) eqn:E; [|reflexivity].
    apply alpha_not_space in E. congruence.
Qed.

(** The first gate, in the words of the property. *)
Lemma begins_with_select_iff s :
  begins_with_select s <->
  word_at (lit "select") None (lstrip_by isspace s) = true.
Proof.
  unfold begins_with_select, word_at. simpl negb at 1. cbn [andb]. split.
  - intros [ws [u [rest [-> [Hws [Hu Hr]]]]]].
    rewrite lstrip_by_all by exact Hws.
    pose proof (keyword_copy_nonempty lit_ne_select lit_alpha_select Hu) as Hne.
    pose proof (ci_eq_alpha Hu lit_alpha_select) as Ha.
    destruct u as [|c u]; [congruence|]. inversion Ha; subst.
    change ((c :: u) ++ rest) with (c :: (u ++ rest)).
    rewrite lstrip_by_head by (apply alpha_not_space; assumption).
    change (c :: (u ++ rest)) with ((c :: u) ++ rest).
    rewrite (ci_prefix_app _ Hu), Hr. reflexivity.
  - intros H. destruct (lstrip_by_split isspace s) as [ws [E Hws]].
    destruct (ci_prefix (lit "select") (lstrip_by isspace s)) as [[u rest]|] eqn:Ep;
      [|discriminate].
    apply ci_prefix_sound in Ep. destruct Ep as [Es Hu].
    exists ws, u, rest. rewrite <- Es. repeat split; auto.
    apply negb_true_iff, H.
Qed.

Lemma re_match_select_iff t :
  re_match SELECT_RE t <> None <-> begins_with_select t.
Proof.
  rewrite begins_with_select_iff, <- matches_select.
  unfold matches, re_match. destruct (match_at SELECT_RE None t); split;
    congruence.
Qed.

(** Whitespace is not made of word code points. *)
Lemma spaces_nonword ws : all isspace ws -> none isword ws.
Proof.
  unfold all, none. intros H. eapply Forall_impl; [|exact H].
  intros c. apply space_not_word.
Qed.

(** The first gate sees the same thing before and after the trim. *)
Lemma begins_with_select_strip s :
  begins_with_select (strip s) <-> begins_with_select s.
Proof.
  rewrite !begins_with_select_iff. unfold strip, strip_by.
  pose proof (lstrip_by_hd isspace s) as Hh.
  destruct (rstrip_by_split isspace (lstrip_by isspace s)) as [ws [E Hws]].
  assert (Hl : lstrip_by isspace (rstrip_by isspace (lstrip_by isspace s))
               = rstrip_by isspace (lstrip_by isspace s)).
  { destruct (lstrip_by isspace s) as [|c x]; [reflexivity|].
    apply lstrip_rstrip_comm_hd, Hh. }
  rewrite Hl.
  rewrite <- (word_at_trail lit_alpha_select None
                (rstrip_by isspace (lstrip_by isspace s)) (spaces_nonword Hws)).
  rewrite <- E. reflexivity.
Qed.

(** [\blimit\b] somewhere in a text. *)
Lemma re_search_limit_iff t :
  re_search LIMIT_RE t <> None <-> contains_word (lit "limit") t.
Proof.
  rewrite (contains_word_iff lit_ne_limit lit_alpha_limit).
  rewrite <- (found_keyword lit_ne_limit lit_alpha_limit).
  unfold found, re_search, LIMIT_RE.
  destruct (search_from _ None t); split; congruence.
Qed.

(** Whole words are the same before and after the trim. *)
Lemma contains_word_strip w s :
  w <> [] -> all isalpha_ascii w ->
  (contains_word w (strip s) <-> contains_word w s).
Proof.
  intros Hne Ha. rewrite !(contains_word_iff Hne Ha).
  destruct (strip_by_split isspace s) as [l [r [E [Hl Hr]]]].
  fold (strip s) in E.
  rewrite <- (has_word_trail Hne Ha None (strip s) (spaces_nonword Hr)).
  rewrite <- (has_word_lead Hne Ha (strip s ++ r) None (spaces_nonword Hl) eq_refl).
  rewrite <- E. reflexivity.
Qed.

(** ** The banned-keyword pattern *)

Lemma word_at_keyword_end w prev s :
  w <> [] -> all isalpha_ascii w ->
  at_boundary prev s && keyword_end w s = word_at w prev s.
Proof.
  intros Hne Ha. unfold keyword_end, word_at.
  destruct (ci_prefix w s) as [[u rest]|] eqn:E.
  - rewrite (bnd_before Hne Ha prev s E). reflexivity.
  - rewrite !andb_false_r. reflexivity.
Qed.

(** An alternation of keywords followed by [\b] and something that
    always succeeds: it matches when one of the keywords ends there. *)
Lemma exec_alts_keywords A ws : forall w0 prev s g (k : cont A),
  (forall w, In w (w0 :: ws) -> w <> [] /\ all isalpha_ascii w) ->
  (forall p' s' g', k p' s' g' <> None) ->
  match exec (alts (word w0) (map word ws)) prev s g
          (fun p' s' g' => if at_boundary p' s' then k p' s' g' else None)
  with Some _ => true | None => false end =
  existsb (fun w => keyword_end w s) (w0 :: ws).
Proof.
  induction ws as [|w1 ws IH]; intros w0 prev s g k Hkw Hk.
  - destruct (Hkw w0 (or_introl eq_refl)) as [Hne Ha].
    cbn [map alts existsb]. rewrite (word_then_bnd Hne Ha), orb_false_r.
    unfold keyword_end.
    destruct (ci_prefix w0 s) as [[u rest]|]; [|reflexivity].
    destruct (negb (isword_opt (hd_error rest))); [|reflexivity].
    destruct (k (prev_after prev u) rest g) eqn:E; [reflexivity|].
    exfalso. exact (Hk _ _ _ E).
  - destruct (Hkw w0 (or_introl eq_refl)) as [Hne Ha].
    cbn [map alts exec].
    change (existsb (fun w => keyword_end w s) (w0 :: w1 :: ws))
      with (keyword_end w0 s || existsb (fun w => keyword_end w s) (w1 :: ws)).
    rewrite <- (IH w1 prev s g k); [|intros w Hw; apply Hkw; right; exact Hw | exact Hk].
    rewrite (word_then_bnd Hne Ha). unfold keyword_end at 1.
    destruct (ci_prefix w0 s) as [[u rest]|]; [|reflexivity].
    destruct (negb (isword_opt (hd_error rest))); [|reflexivity].
    destruct (k (prev_after prev u) rest g) eqn:E; [reflexivity|].
    exfalso. exact (Hk _ _ _ E).
Qed.

Lemma andb_existsb (T : Type) b (f : T -> bool) l :
  b && existsb f l = existsb (fun x => b && f x) l.
Proof.
  induction l as [|x l IH]; simpl.
  - apply andb_false_r.
  - rewrite <- IH. destruct b; reflexivity.
Qed.

Lemma existsb_ext_in (T : Type) (f g : T -> bool) l :
  (forall x, In x l -> f x = g x) -> existsb f l = existsb g l.
Proof.
  induction l as [|x l IH]; intros H; simpl; [reflexivity|].
  rewrite (H x (or_introl eq_refl)), IH; [reflexivity|].
  intros y Hy. apply H. right. exact Hy.
Qed.

Lemma matches_banned prev s :
  matches BANNED_RE prev s = existsb (fun w => word_at w prev s) banned_set.
Proof.
  unfold matches, match_at, BANNED_RE. cbn [exec].
  rewrite <- (existsb_ext_in (fun w => at_boundary prev s && keyword_end w s)).
  2:{ intros w Hw. destruct (banned_alpha Hw).
      apply word_at_keyword_end; assumption. }
  rewrite <- andb_existsb.
  destruct (at_boundary prev s); [|reflexivity].
  cbn [andb]. unfold banned_set.
  pose proof (@exec_alts_keywords _ banned_words (lit "unload") prev s None
    (fun p' s' _ => Some (Some (firstn (List.length s - List.length s') s), s'))
    banned_alpha ltac:(discriminate)) as H.
  exact H.
Qed.

Lemma found_banned prev s :
  found BANNED_RE prev s = existsb (fun w => has_word w prev s) banned_set.
Proof.
  revert prev. induction s as [|c s IH]; intros prev;
    rewrite found_unfold, matches_banned.
  - rewrite orb_false_r. apply existsb_ext_in. intros w _.
    simpl. rewrite orb_false_r. reflexivity.
  - rewrite IH. clear IH.
    induction banned_set as [|w l IHl]; [reflexivity|].
    cbn [existsb]. rewrite <- IHl. cbn [has_word].
    destruct (word_at w prev (c :: s)), (has_word w (Some c) s),
      (existsb (fun w0 => word_at w0 prev (c :: s)) l); reflexivity.
Qed.

(** The banned scan finds something exactly when one of the nine
    keywords stands in the text as a whole word. *)
Lemma banned_scan_iff t :
  re_findall BANNED_RE t <> [] <->
  exists w, In w banned_set /\ contains_word w t.
Proof.
  rewrite re_findall_nil, found_banned, not_false_iff_true, existsb_exists.
  split; intros [w [Hw H]]; exists w; split; auto;
    destruct (banned_alpha Hw) as [Hne Ha];
    apply (contains_word_iff Hne Ha); exact H.
Qed.

(** ** The table-reference pattern *)

Lemma firstn_consumed (u rest : str) :
  firstn (List.length (u ++ rest) - List.length rest) (u ++ rest) = u.
Proof.
  rewrite length_app.
  replace (List.length u + List.length rest - List.length rest)
    with (List.length u) by lia.
  rewrite firstn_app, firstn_all, Nat.sub_diag. simpl. apply app_nil_r.
Qed.

(** [([a-zA-Z0-9_\.]+)] at the end of the pattern. *)
Lemma exec_token_group p2 s2 (g2 : option str) :
  rep istoken 1 p2 s2 g2
    (fun _ s3 _ =>
       Some (Some (firstn (List.length s2 - List.length s3) s2), s3)) =
  match span istoken s2 with
  | ([], _) => None
  | (tok, r3) => Some (Some tok, r3)
  end.
Proof.
  rewrite rep_greedy by discriminate.
  pose proof (span_app istoken s2) as E.
  destruct (span istoken s2) as [[|c u] rest]; [reflexivity|].
  cbn [List.length Nat.leb]. cbv beta. subst s2. rewrite firstn_consumed.
  reflexivity.
Qed.

(** [\s+([a-zA-Z0-9_\.]+)] after the keyword. *)
Lemma exec_table_tail p1 s1 (g1 : option str) :
  rep isspace 1 p1 s1 g1
    (fun p2 s2 g2 =>
       rep istoken 1 p2 s2 g2
         (fun _ s3 _ =>
            Some (Some (firstn (List.length s2 - List.length s3) s2), s3))) =
  with_group (table_tail s1).
Proof.
  rewrite rep_skip.
  - unfold table_tail.
    destruct (span isspace s1) as [[|c ws] r2]; [reflexivity|].
    cbn [List.length Nat.leb]. rewrite exec_token_group.
    destruct (span istoken r2) as [[|d tok] r3]; reflexivity.
  - intros prev' c s' g' Hc. cbn [rep].
    destruct (istoken c) eqn:E; [|reflexivity].
    apply token_not_space in E. congruence.
Qed.

(** FROM and JOIN do not start at the same place. *)
Lemma from_not_join s x :
  ci_prefix (lit "from") s = Some x -> ci_prefix (lit "join") s = None.
Proof.
  destruct s as [|d s]; [discriminate|].
  change (lit "from") with ("f"%char :: lit "rom").
  change (lit "join") with ("j"%char :: lit "oin").
  rewrite !ci_prefix_cons.
  destruct (chr_matches "f" d) eqn:Ef; [|discriminate].
  intros _. destruct (chr_matches "j" d) eqn:Ej; [|reflexivity].
  apply chr_matches_lower in Ef, Ej. rewrite <- Ef in Ej. discriminate.
Qed.

(** [TABLE_RE] at a position. *)
Lemma match_table prev s :
  match_at TABLE_RE prev s = with_group (table_at prev s).
Proof.
  unfold match_at, TABLE_RE, table_at. cbn [exec].
  destruct (at_boundary prev s); [|reflexivity].
  rewrite !exec_word by discriminate.
  destruct (ci_prefix (lit "from") s) as [[u r]|] eqn:Ef.
  - rewrite exec_table_tail, (from_not_join _ Ef).
    destruct (with_group (table_tail r)); reflexivity.
  - destruct (ci_prefix (lit "join") s) as [[u r]|]; [|reflexivity].
    apply exec_table_tail.
Qed.

(** A table reference, in the words of the property, is what the
    pattern matches. *)
Lemma table_tail_ref ws tok post :
  ws <> [] -> all isspace ws -> tok <> [] -> all istoken tok ->
  istoken_opt (hd_error post) = false ->
  table_tail (ws ++ tok ++ post) = Some (tok, post).
Proof.
  intros Hws Hsp Htok Htk Hpost. unfold table_tail.
  rewrite (span_exact (tok ++ post) Hsp).
  - destruct ws as [|c ws]; [congruence|].
    rewrite (span_exact post Htk).
    + destruct tok; [congruence | reflexivity].
    + destruct post; [exact I | exact Hpost].
  - destruct tok as [|c tok]; [congruence|]. inversion Htk; subst.
    simpl. apply token_not_space. assumption.
Qed.

Lemma table_at_ref prev kw ws tok post :
  table_ref prev kw ws tok post ->
  table_at prev (kw ++ ws ++ tok ++ post) = Some (tok, post).
Proof.
  intros [Hp [Hkw [Hws [Hsp [Htok [Htk Hpost]]]]]]. unfold table_at.
  assert (Hb : forall w, w <> [] -> all isalpha_ascii w -> ci_eq kw w ->
            at_boundary prev (kw ++ ws ++ tok ++ post) = true).
  { intros w Hne Ha Hu.
    rewrite (bnd_before Hne Ha prev _ (ci_prefix_app _ Hu)), Hp. reflexivity. }
  destruct Hkw as [Hu | Hu].
  - rewrite (Hb _ lit_ne_from lit_alpha_from Hu), (ci_prefix_app _ Hu).
    apply table_tail_ref; assumption.
  - rewrite (Hb _ lit_ne_join lit_alpha_join Hu).
    destruct (ci_prefix (lit "from") (kw ++ ws ++ tok ++ post)) as [x|] eqn:Ef.
    + apply from_not_join in Ef. rewrite (ci_prefix_app _ Hu) in Ef. discriminate.
    + rewrite (ci_prefix_app _ Hu). apply table_tail_ref; assumption.
Qed.

Lemma table_tail_inv r tok rest :
  table_tail r = Some (tok, rest) ->
  exists ws, r = ws ++ tok ++ rest /\ ws <> [] /\ all isspace ws /\
    tok <> [] /\ all istoken tok /\ istoken_opt (hd_error rest) = false.
Proof.
  unfold table_tail. intros H.
  pose proof (span_app isspace r) as E1. pose proof (span_all isspace r) as A1.
  destruct (span isspace r) as [[|c ws] r2]; [discriminate|].
  pose proof (span_app istoken r2) as E2. pose proof (span_all istoken r2) as A2.
  pose proof (span_rest istoken r2) as R2.
  destruct (span istoken r2) as [[|d t] r3]; [discriminate|].
  injection H as <- <-. simpl in A1, A2, R2.
  exists (c :: ws). subst r2. repeat split; auto; try discriminate.
  destruct r3; [reflexivity | exact R2].
Qed.

Lemma table_at_inv prev s tok rest :
  table_at prev s = Some (tok, rest) ->
  exists kw ws, s = kw ++ ws ++ tok ++ rest /\ table_ref prev kw ws tok rest.
Proof.
  unfold table_at. intros H.
  destruct (at_boundary prev s) eqn:Hb; [|discriminate].
  assert (Hkey : forall w u r, w <> [] -> all isalpha_ascii w ->
            ci_prefix w s = Some (u, r) -> table_tail r = Some (tok, rest) ->
            (ci_eq u (lit "from") \/ ci_eq u w) ->
            (ci_eq u (lit "from") \/ ci_eq u (lit "join")) ->
            exists kw ws, s = kw ++ ws ++ tok ++ rest /\
              table_ref prev kw ws tok rest).
  { intros w u r Hne Ha Ep Ht _ Hkw.
    rewrite (bnd_before Hne Ha prev s Ep) in Hb.
    apply ci_prefix_sound in Ep. destruct Ep as [-> Hu].
    destruct (table_tail_inv _ Ht) as [ws [-> [Hws [Hsp [Htok [Htk Hr]]]]]].
    exists u, ws. split; [reflexivity|].
    unfold table_ref. repeat split; auto.
    apply negb_true_iff, Hb. }
  destruct (ci_prefix (lit "from") s) as [[u r]|] eqn:Ef.
  - apply (Hkey _ u r lit_ne_from lit_alpha_from Ef H).
    + left. apply (ci_prefix_sound _ _ Ef).
    + left. apply (ci_prefix_sound _ _ Ef).
  - destruct (ci_prefix (lit "join") s) as [[u r]|] eqn:Ej; [|discriminate].
    apply (Hkey _ u r lit_ne_join lit_alpha_join Ej H).
    + right. apply (ci_prefix_sound _ _ Ej).
    + right. apply (ci_prefix_sound _ _ Ej).
Qed.

(* ===================================================================== *)
(** ** The steps of [sanitize_sql] *)
(* ===================================================================== *)

Lemma numchar_plain c :
  isnumchar c = true ->
  isspace c = false /\ one_of [SEMI] c = false /\ isword c || Ascii.eqb c "-" = true.
Proof. each_char c. Qed.

Lemma uint_chars d :
  all isnumchar (lit (NilEmpty.string_of_uint d)).
Proof. induction d; simpl; constructor; auto. Qed.

(** [str(n)] is a non-empty numeral. *)
Lemma str_of_int_chars n : all isnumchar (str_of_int n).
Proof.
  unfold str_of_int, NilZero.string_of_int.
  destruct (Z.to_int n) as [d | d]; [|constructor; [reflexivity|]];
    (destruct d; [repeat constructor | apply (uint_chars (_ _)) ..]).
Qed.

Lemma str_of_int_nonempty n : str_of_int n <> [].
Proof.
  unfold str_of_int, NilZero.string_of_int.
  destruct (Z.to_int n) as [d | d]; [|discriminate].
  destruct d; discriminate.
Qed.

Lemma contains_char_app ch a b :
  contains_char ch (a ++ b) = contains_char ch a || contains_char ch b.
Proof. apply existsb_app. Qed.

Lemma contains_char_false ch s :
  contains_char ch s = false <-> none (Ascii.eqb ch) s.
Proof.
  unfold contains_char, none. induction s as [|c s IH]; simpl.
  - split; [constructor | reflexivity].
  - rewrite orb_false_iff, IH. split.
    + intros [H1 H2]. constructor; assumption.
    + intros H. inversion H; auto.
Qed.

Section Validator.

Variable MAX_ROWS : Z.
Variable ALLOWED_SCHEMAS : list str.

Lemma sanitize_sql_steps s :
  sanitize_sql MAX_ROWS ALLOWED_SCHEMAS s =
  if matches SELECT_RE None (strip s) then
    if contains_char SEMI (rstrip_chars [SEMI] (strip s))
    then Raise MultipleStatements
    else finish ALLOWED_SCHEMAS (enforce_limit MAX_ROWS (strip s))
  else Raise NotSelect.
Proof.
  unfold sanitize_sql, matches, re_match, finish. rewrite strip_idem.
  destruct (match_at SELECT_RE None (strip s)); reflexivity.
Qed.

Lemma sanitize_sql_strip s : sanitize_sql MAX_ROWS ALLOWED_SCHEMAS (strip s) = sanitize_sql MAX_ROWS ALLOWED_SCHEMAS s.
Proof. rewrite !sanitize_sql_steps, strip_idem. reflexivity. Qed.

Lemma select_gate_iff s :
  matches SELECT_RE None (strip s) = true <-> begins_with_select s.
Proof.
  rewrite matches_select, <- begins_with_select_iff.
  apply begins_with_select_strip.
Qed.

Lemma check_tables_error ts e :
  check_tables ALLOWED_SCHEMAS ts = Some e ->
  e = SchemaNotAllowed ALLOWED_SCHEMAS.
Proof.
  induction ts as [|t ts IH]; simpl; [discriminate|].
  destruct (check_table ALLOWED_SCHEMAS t) as [e'|] eqn:E; [|exact IH].
  intros H. injection H as <-. unfold check_table in E.
  destruct (contains_char DOT _); [|discriminate].
  destruct (negb _); [|discriminate]. congruence.
Qed.

Lemma check_tables_none ts :
  check_tables ALLOWED_SCHEMAS ts = None <->
  forall t, In t ts -> check_table ALLOWED_SCHEMAS t = None.
Proof.
  induction ts as [|t ts IH]; simpl.
  - split; [intros _ t [] | reflexivity].
  - destruct (check_table ALLOWED_SCHEMAS t) eqn:E.
    + split; [discriminate|]. intros H.
      rewrite (H t (or_introl eq_refl)) in E. discriminate.
    + rewrite IH. split.
      * intros H t' [<- | Ht']; auto.
      * intros H t' Ht'. apply H. right. exact Ht'.
Qed.

(** On a token of the scan the quote strips do nothing: the check looks
    at the text before the first dot. *)
Lemma check_table_token t :
  all istoken t ->
  check_table ALLOWED_SCHEMAS t =
  if contains_char DOT t then
    if mem (schema_of t) ALLOWED_SCHEMAS then None
    else Some (SchemaNotAllowed ALLOWED_SCHEMAS)
  else None.
Proof.
  intros Ht. unfold check_table, strip, strip_chars.
  assert (Hs : none isspace t).
  { eapply Forall_impl; [|exact Ht]. intros c. apply token_not_space. }
  assert (Hq : none (one_of [DQUOTE]) t /\ none (one_of [BACKTICK]) t
               /\ none (one_of [QUOTE]) t).
  { repeat split; (eapply Forall_impl; [|exact Ht]); intros c Hc;
      apply token_not_quote in Hc; tauto. }
  destruct Hq as [H1 [H2 H3]].
  rewrite (strip_by_none Hs), (strip_by_none H1), (strip_by_none H2),
    (strip_by_none H3).
  unfold schema_of. destruct (contains_char DOT t); [|reflexivity].
  destruct (mem _ _); reflexivity.
Qed.

(** The outcomes of the last two steps. *)
Lemma finish_cases t :
  finish ALLOWED_SCHEMAS t = Raise (SchemaNotAllowed ALLOWED_SCHEMAS) \/
  finish ALLOWED_SCHEMAS t = Raise BannedKeyword \/ finish ALLOWED_SCHEMAS t = Ok t.
Proof.
  unfold finish.
  destruct (check_tables _ _) as [e|] eqn:E.
  - left. rewrite (check_tables_error _ E). reflexivity.
  - destruct (re_findall BANNED_RE t); auto.
Qed.

(** When validation succeeds, every gate was passed and the result is
    the limit-enforced trimmed text. *)
Lemma sanitize_ok_inv s out :
  sanitize_sql MAX_ROWS ALLOWED_SCHEMAS s = Ok out ->
  begins_with_select s /\ ~ inner_terminator s /\
  out = enforce_limit MAX_ROWS (strip s) /\
  check_tables ALLOWED_SCHEMAS (re_findall TABLE_RE out) = None /\
  re_findall BANNED_RE out = [].
Proof.
  rewrite sanitize_sql_steps. unfold inner_terminator.
  destruct (matches SELECT_RE None (strip s)) eqn:Hsel; [|discriminate].
  apply select_gate_iff in Hsel.
  destruct (contains_char SEMI _) eqn:Hsemi; [discriminate|].
  unfold finish.
  destruct (check_tables _ _) eqn:Hc; [discriminate|].
  destruct (re_findall BANNED_RE _) eqn:Hb; [|discriminate].
  intros H. injection H as <-. repeat split; auto.
Qed.

Lemma sanitize_ok_intro s :
  begins_with_select s -> ~ inner_terminator s ->
  check_tables ALLOWED_SCHEMAS
    (re_findall TABLE_RE (enforce_limit MAX_ROWS (strip s))) = None ->
  re_findall BANNED_RE (enforce_limit MAX_ROWS (strip s)) = [] ->
  sanitize_sql MAX_ROWS ALLOWED_SCHEMAS s = Ok (enforce_limit MAX_ROWS (strip s)).
Proof.
  intros Hsel Hsemi Hc Hb. rewrite sanitize_sql_steps.
  apply select_gate_iff in Hsel. rewrite Hsel.
  unfold inner_terminator in Hsemi.
  destruct (contains_char SEMI _); [congruence|].
  unfold finish. rewrite Hc, Hb. reflexivity.
Qed.

End Validator.

(* ===================================================================== *)
(** ** The limit step *)
(* ===================================================================== *)

Lemma lstrip_strip_by p s : lstrip_by p (strip_by p s) = strip_by p s.
Proof.
  unfold strip_by. pose proof (lstrip_by_hd p s) as Hh.
  destruct (lstrip_by p s) as [|c x]; [reflexivity|].
  apply lstrip_rstrip_comm_hd, Hh.
Qed.

Lemma semis_nonword ws : all (one_of [SEMI]) ws -> none isword ws.
Proof.
  intros H. eapply Forall_impl; [|exact H]. intros c. each_char c.
Qed.

Lemma semis_repeat ws : all (one_of [SEMI]) ws -> ws = repeat SEMI (List.length ws).
Proof.
  induction 1 as [|c ws Hc _ IH]; simpl; [reflexivity|].
  rewrite one_of_single in Hc. apply Ascii.eqb_eq in Hc. congruence.
Qed.

(** The appended clause: a blank, LIMIT, a blank, the numeral. *)
Lemma limit_clause_split n :
  exists ds d, lit " LIMIT " ++ str_of_int n = (lit " LIMIT " ++ ds) ++ [d]
               /\ isnumchar d = true.
Proof.
  destruct (exists_last (str_of_int_nonempty n)) as [ds [d E]].
  exists ds, d. split.
  - rewrite E, app_assoc. reflexivity.
  - pose proof (str_of_int_chars n) as H. rewrite E in H.
    apply all_app in H. destruct H as [_ H]. inversion H; assumption.
Qed.

Lemma limit_clause_no_semi n :
  contains_char SEMI (lit " LIMIT " ++ str_of_int n) = false.
Proof.
  rewrite contains_char_app. apply orb_false_iff. split; [reflexivity|].
  apply contains_char_false.
  eapply Forall_impl; [|exact (str_of_int_chars n)].
  intros c Hc. apply numchar_plain in Hc. destruct Hc as [_ [Hc _]].
  rewrite one_of_single in Hc. rewrite Ascii.eqb_sym. exact Hc.
Qed.

(** A text that ends with the appended clause has a LIMIT keyword. *)
Lemma appended_has_limit x n :
  contains_word (lit "limit") (x ++ lit " LIMIT " ++ str_of_int n).
Proof.
  exists (x ++ [" "%char]), (lit "LIMIT"), (" "%char :: str_of_int n).
  repeat split.
  - rewrite <- app_assoc. reflexivity.
  - rewrite prev_after_last. reflexivity.
Qed.

Section LimitStep.

Variable MAX_ROWS : Z.

Lemma enforce_limit_absent t :
  ~ contains_word (lit "limit") t ->
  enforce_limit MAX_ROWS t =
  rstrip_chars [SEMI] (rstrip t) ++ lit " LIMIT " ++ str_of_int MAX_ROWS.
Proof.
  intros H. unfold enforce_limit.
  destruct (re_search LIMIT_RE t) eqn:E; [|reflexivity].
  exfalso. apply H, re_search_limit_iff. congruence.
Qed.

Lemma enforce_limit_present t :
  contains_word (lit "limit") t -> enforce_limit MAX_ROWS t = t.
Proof.
  intros H. unfold enforce_limit. apply re_search_limit_iff in H.
  destruct (re_search LIMIT_RE t); [reflexivity | congruence].
Qed.

Lemma contains_word_dec_limit t :
  contains_word (lit "limit") t \/ ~ contains_word (lit "limit") t.
Proof.
  rewrite (contains_word_iff lit_ne_limit lit_alpha_limit).
  destruct (has_word (lit "limit") None t); [left | right]; congruence.
Qed.

(** A whole word of the text is still one after the limit step. *)
Lemma contains_word_enforce_limit w t :
  w <> [] -> all isalpha_ascii w ->
  contains_word w t -> contains_word w (enforce_limit MAX_ROWS t).
Proof.
  intros Hne Ha H.
  destruct (contains_word_dec_limit t) as [Hl | Hl].
  - rewrite enforce_limit_present by exact Hl. exact H.
  - rewrite enforce_limit_absent by exact Hl.
    apply (contains_word_iff Hne Ha). apply has_word_app; [reflexivity|].
    destruct (rstrip_by_split isspace t) as [ws [E1 H1]].
    destruct (rstrip_by_split (one_of [SEMI]) (rstrip t)) as [ss [E2 H2]].
    unfold rstrip_chars.
    rewrite <- (has_word_trail Hne Ha None _ (semis_nonword H2)), <- E2.
    unfold rstrip.
    rewrite <- (has_word_trail Hne Ha None _ (spaces_nonword H1)), <- E1.
    apply (contains_word_iff Hne Ha). exact H.
Qed.

End LimitStep.

(* ===================================================================== *)
(** ** The table scan *)
(* ===================================================================== *)

Lemma mem_In x S : mem x S = true <-> In x S.
Proof. unfold mem. destruct (in_dec str_eq_dec x S); split; congruence. Qed.

Lemma app_same_length (T : Type) (a b x y : list T) :
  List.length a = List.length b -> a ++ x = b ++ y -> a = b /\ x = y.
Proof.
  revert b. induction a as [|c a IH]; intros [|d b] Hl E; try discriminate.
  - auto.
  - simpl in Hl, E. injection Hl as Hl. injection E as -> E.
    destruct (IH b Hl E) as [-> ->]. auto.
Qed.

(** Every token the scan captures is a run of token code points that
    follows a FROM or JOIN keyword. *)
Lemma table_items_tokens text m :
  In m (finditer TABLE_RE text) ->
  exists pre kw ws post,
    text = pre ++ kw ++ ws ++ m_group m ++ post /\
    m_start m = List.length pre /\
    table_ref (prev_after None pre) kw ws (m_group m) post.
Proof.
  intros H. apply finditer_from_sound in H.
  destruct H as [pre [post [g [rest [E [Hs [Hm [Hg _]]]]]]]].
  rewrite match_table in Hm.
  destruct (table_at (prev_after None pre) post) as [[tok r]|] eqn:Ht;
    [|discriminate].
  simpl in Hm. injection Hm as <- <-. simpl in Hg.
  apply table_at_inv in Ht. destruct Ht as [kw [ws [-> Href]]].
  exists pre, kw, ws, r. rewrite Hg. auto.
Qed.

(** A table reference of the text is captured by the scan, unless its
    keyword lies inside an earlier match. *)
Lemma table_ref_found text pre kw ws tok post :
  text = pre ++ kw ++ ws ++ tok ++ post ->
  table_ref (prev_after None pre) kw ws tok post ->
  ~ covered (List.length pre) (finditer TABLE_RE text) ->
  In tok (re_findall TABLE_RE text).
Proof.
  intros -> Href Hcov.
  pose proof (table_at_ref Href) as Hat.
  assert (Hm : match_at TABLE_RE (prev_after None pre) (kw ++ ws ++ tok ++ post)
               = Some (Some tok, post)).
  { rewrite match_table, Hat. reflexivity. }
  assert (Hlen : List.length post < List.length (kw ++ ws ++ tok ++ post)).
  { destruct Href as [_ [_ [_ [_ [Htok _]]]]].
    rewrite !length_app. destruct tok; [congruence | simpl; lia]. }
  destruct (finditer_from_complete TABLE_RE pre 0 None _ (Nat.le_0_l _) Hm Hlen)
    as [Hin | Hc].
  - unfold re_findall, finditer. apply in_map_iff.
    eexists. split; [|exact Hin]. reflexivity.
  - exfalso. apply Hcov. exact Hc.
Qed.

(** A keyword followed by whitespace and a quote starts no match. *)
Lemma table_at_quote prev kw ws q post :
  ci_eq kw (lit "from") \/ ci_eq kw (lit "join") ->
  all isspace ws -> q = DQUOTE \/ q = BACKTICK \/ q = QUOTE ->
  table_at prev (kw ++ ws ++ q :: post) = None.
Proof.
  intros Hkw Hsp Hq. unfold table_at.
  destruct (at_boundary prev _); [|reflexivity].
  assert (Htail : table_tail (ws ++ q :: post) = None).
  { unfold table_tail. rewrite (span_exact (q :: post) Hsp).
    - destruct ws; [reflexivity|]. simpl.
      rewrite (quote_not_token Hq). reflexivity.
    - destruct Hq as [-> | [-> | ->]]; reflexivity. }
  destruct Hkw as [Hu | Hu].
  - rewrite (ci_prefix_app _ Hu). exact Htail.
  - destruct (ci_prefix (lit "from") (kw ++ ws ++ q :: post)) as [x|] eqn:Ef.
    + apply from_not_join in Ef. rewrite (ci_prefix_app _ Hu) in Ef. discriminate.
    + rewrite (ci_prefix_app _ Hu). exact Htail.
Qed.

(* ===================================================================== *)
(** ** Terminators inside the statement *)
(* ===================================================================== *)

Lemma rstrip_by_keep_prefix p x c y :
  p c = false -> exists z, rstrip_by p ((x ++ [c]) ++ y) = (x ++ [c]) ++ z.
Proof.
  intros Hc. induction x as [|d x [z IH]].
  - exists (rstrip_by p y). simpl. apply rstrip_by_cons, Hc.
  - exists z. change (((d :: x) ++ [c]) ++ y) with (d :: ((x ++ [c]) ++ y)).
    cbn [rstrip_by]. rewrite IH.
    destruct ((x ++ [c]) ++ z) eqn:E; [destruct x; discriminate|].
    simpl. rewrite E. reflexivity.
Qed.

(** A terminator is left inside exactly when, in the trimmed text, some
    terminator is followed, anywhere later, by something else. *)
Lemma inner_terminator_iff s :
  inner_terminator s <->
  exists a b c, strip s = a ++ SEMI :: b /\ In c b /\ c <> SEMI.
Proof.
  unfold inner_terminator, rstrip_chars, contains_char. split.
  - intros H. apply existsb_exists in H. destruct H as [x [Hin Hx]].
    apply Ascii.eqb_eq in Hx. subst x.
    apply in_split in Hin. destruct Hin as [a [b E]].
    destruct (rstrip_by_split (one_of [SEMI]) (strip s)) as [ws [Es _]].
    destruct (rstrip_by_last (one_of [SEMI]) (strip s)) as [En | [r [c [Er Hc]]]].
    { rewrite En in E. destruct a; discriminate. }
    rewrite one_of_single in Hc. apply Ascii.eqb_neq in Hc.
    rewrite Er in E.
    destruct b as [|b0 b'] using rev_ind.
    + apply app_inj_tail in E. destruct E as [_ E]. congruence.
    + clear IHb'. change (a ++ SEMI :: b' ++ [b0]) with (a ++ (SEMI :: b') ++ [b0]) in E.
      rewrite app_assoc in E. apply app_inj_tail in E. destruct E as [E ->].
      exists a, ((b' ++ [b0]) ++ ws), b0. repeat split.
      * rewrite Es, Er, E, <- !app_assoc. reflexivity.
      * apply in_or_app. left. apply in_or_app. right. left. reflexivity.
      * exact Hc.
  - intros [a [b [c [E [Hin Hc]]]]].
    apply in_split in Hin. destruct Hin as [b1 [b2 ->]].
    assert (Hp : one_of [SEMI] c = false)
      by (rewrite one_of_single; apply Ascii.eqb_neq, Hc).
    destruct (@rstrip_by_keep_prefix (one_of [SEMI]) (a ++ SEMI :: b1) c b2 Hp)
      as [z Ez].
    replace (strip s) with (((a ++ SEMI :: b1) ++ [c]) ++ b2)
      by (rewrite E, <- !app_assoc; reflexivity).
    rewrite Ez. apply existsb_exists. exists SEMI. split; [|reflexivity].
    apply in_or_app. left. apply in_or_app. left.
    apply in_or_app. right. left. reflexivity.
Qed.

(* ===================================================================== *)
(** ** Sample evaluations *)
(* ===================================================================== *)

Example select_gate_mixed_case :
  matches SELECT_RE None (lit "SeLeCt 1") = true /\
  matches SELECT_RE None (lit "selection") = false /\
  matches SELECT_RE None (lit "with t as (select 1) select * from t") = false.
Proof. repeat split. Qed.

Example table_scan_two_tables :
  re_findall TABLE_RE (lit "select * from  a.b x JOIN c.d y on x.k = y.k")
  = [lit "a.b"; lit "c.d"].
Proof. reflexivity. Qed.

Example table_scan_spans :
  finditer TABLE_RE (lit "select 1 from t join u.v")
  = [(9, 15, lit "t"); (16, 24, lit "u.v")].
Proof. reflexivity. Qed.

Example banned_scan_whole_words :
  re_findall BANNED_RE (lit "select dropped, updated_at, Drop from t")
  = [lit "Drop"].
Proof. reflexivity. Qed.

Example limit_not_a_column_part :
  re_search LIMIT_RE (lit "select rate_limit from t") = None /\
  re_search LIMIT_RE (lit "select 1 from t LiMiT 3") <> None.
Proof. split; [reflexivity | discriminate]. Qed.

Example sanitize_unqualified_table :
  sanitize_sql 100 [lit "nyc_taxi"] (lit " select * from yellow_curated; ")
  = Ok (lit "select * from yellow_curated LIMIT 100").
Proof. reflexivity. Qed.

Example sanitize_terminator_in_literal :
  sanitize_sql 100 [lit "nyc_taxi"] (lit "select ';' from t")
  = Raise MultipleStatements.
Proof. reflexivity. Qed.

(* ===================================================================== *)
(** ** Properties of the validator *)
(* ===================================================================== *)

(** C1.  A candidate that does not begin with the token SELECT
    (case-insensitively, after any leading whitespace) is rejected with
    [NotSelect]; a candidate that does begin with it passes this first
    gate, so whatever [sanitize_sql] does with it is not a [NotSelect]
    rejection. *)
Theorem C1_select_gate (MAX_ROWS : Z) (ALLOWED_SCHEMAS : list str) (s : str) :
  (~ begins_with_select s ->
   sanitize_sql MAX_ROWS ALLOWED_SCHEMAS s = Raise NotSelect) /\
  (begins_with_select s ->
   sanitize_sql MAX_ROWS ALLOWED_SCHEMAS s <> Raise NotSelect).
Proof.
  rewrite sanitize_sql_steps.
  destruct (matches SELECT_RE None (strip s)) eqn:Hsel.
  - apply select_gate_iff in Hsel. split; [contradiction|]. intros _.
    destruct (contains_char SEMI _); [discriminate|].
    destruct (finish_cases ALLOWED_SCHEMAS (enforce_limit MAX_ROWS (strip s)))
      as [E | [E | E]]; rewrite E; discriminate.
  - split; [reflexivity|]. intros H. apply select_gate_iff in H. congruence.
Qed.

Lemma C1_select_gate_witness :
  sanitize_sql 100 [lit "nyc_taxi"] (lit "DROP TABLE x") = Raise NotSelect /\
  sanitize_sql 100 [lit "nyc_taxi"] (lit "  SeLeCt 1") <> Raise NotSelect.
Proof.
  split.
  - apply (C1_select_gate 100 [lit "nyc_taxi"] (lit "DROP TABLE x")).
    intros H. apply begins_with_select_iff in H. vm_compute in H. discriminate.
  - apply (C1_select_gate 100 [lit "nyc_taxi"] (lit "  SeLeCt 1")).
    apply begins_with_select_iff. vm_compute. reflexivity.
Defined.

(** C3, as stated, fails: with two trailing terminators one is left
    after "at most one" is stripped, and the candidate is accepted. *)
Lemma C3_counterexample :
  contains_char SEMI (rstrip_one SEMI (strip (lit "SELECT 1;;"))) = true /\
  sanitize_sql 100 [lit "nyc_taxi"] (lit "SELECT 1;;")
  = Ok (lit "SELECT 1 LIMIT 100").
Proof. split; vm_compute; reflexivity. Qed.

(** C3, amended.  A candidate that begins with SELECT and that, after
    the trim and the removal of all its trailing terminators, still
    contains a terminator is rejected with [MultipleStatements], whatever
    the later steps would have found, and no other candidate is rejected
    with that error.  "SELECT 1; DROP TABLE x" is such a candidate: it
    contains the banned keyword DROP as a whole word and is rejected with
    [MultipleStatements]. *)
Theorem C3_multiple_statements (MAX_ROWS : Z) (ALLOWED_SCHEMAS : list str) :
  (forall s, begins_with_select s -> inner_terminator s ->
     sanitize_sql MAX_ROWS ALLOWED_SCHEMAS s = Raise MultipleStatements) /\
  (forall s, sanitize_sql MAX_ROWS ALLOWED_SCHEMAS s = Raise MultipleStatements ->
     begins_with_select s /\ inner_terminator s) /\
  contains_word (lit "drop") (lit "SELECT 1; DROP TABLE x") /\
  sanitize_sql MAX_ROWS ALLOWED_SCHEMAS (lit "SELECT 1; DROP TABLE x")
  = Raise MultipleStatements.
Proof.
  assert (H : forall s, begins_with_select s -> inner_terminator s ->
     sanitize_sql MAX_ROWS ALLOWED_SCHEMAS s = Raise MultipleStatements).
  { intros s Hsel Hsemi. rewrite sanitize_sql_steps.
    apply select_gate_iff in Hsel. rewrite Hsel.
    unfold inner_terminator in Hsemi. rewrite Hsemi. reflexivity. }
  split; [exact H|]. split.
  { intros s. rewrite sanitize_sql_steps. unfold inner_terminator.
    destruct (matches SELECT_RE None (strip s)) eqn:Hsel; [|discriminate].
    apply select_gate_iff in Hsel.
    destruct (contains_char SEMI _); [auto|].
    destruct (finish_cases ALLOWED_SCHEMAS (enforce_limit MAX_ROWS (strip s)))
      as [E | [E | E]]; rewrite E; discriminate. }
  split.
  - apply (contains_word_iff (w := lit "drop")); [discriminate | repeat constructor|].
    vm_compute. reflexivity.
  - apply H.
    + apply begins_with_select_iff. vm_compute. reflexivity.
    + vm_compute. reflexivity.
Qed.

Lemma C3_multiple_statements_witness :
  sanitize_sql 100 [lit "nyc_taxi"] (lit "select a; select b")
  = Raise MultipleStatements.
Proof.
  apply (proj1 (C3_multiple_statements 100 [lit "nyc_taxi"])).
  - apply begins_with_select_iff. vm_compute. reflexivity.
  - vm_compute. reflexivity.
Defined.



(** C2, as stated, fails: a candidate with a banned keyword that does
    not begin with SELECT is rejected by the first gate, with
    [NotSelect]. *)
Lemma C2_counterexample :
  contains_word (lit "drop") (lit "DROP TABLE x") /\
  sanitize_sql 100 [lit "nyc_taxi"] (lit "DROP TABLE x") = Raise NotSelect.
Proof.
  split; [|vm_compute; reflexivity].
  apply (contains_word_iff (w := lit "drop")); [discriminate | repeat constructor|].
  vm_compute. reflexivity.
Qed.

(** C2, amended.  A candidate that contains one of UNLOAD, CREATE, DROP,
    DELETE, UPDATE, INSERT, GRANT, ALTER, MSCK as a whole word,
    case-insensitively, anywhere in it, is always rejected.  The
    rejection is [BannedKeyword] (whose message is fixed and names no
    keyword) exactly when the three earlier gates let the candidate
    through: it begins with SELECT, has no terminator left after the trim
    and the removal of its trailing terminators, and the schema check
    passes; otherwise the earlier gate's error is raised. *)
Theorem C2_banned_keyword (MAX_ROWS : Z) (ALLOWED_SCHEMAS : list str)
    (s w : str) :
  In w (map lit ["unload"; "create"; "drop"; "delete"; "update"; "insert";
                 "grant"; "alter"; "msck"]%string) ->
  contains_word w s ->
  (exists e, sanitize_sql MAX_ROWS ALLOWED_SCHEMAS s = Raise e) /\
  (sanitize_sql MAX_ROWS ALLOWED_SCHEMAS s = Raise BannedKeyword <->
   begins_with_select s /\ ~ inner_terminator s /\
   check_tables ALLOWED_SCHEMAS
     (re_findall TABLE_RE (enforce_limit MAX_ROWS (strip s))) = None).
Proof.
  intros Hw Hc.
  assert (Hb : In w banned_set).
  { unfold banned_set, banned_words. simpl in Hw |- *. tauto. }
  destruct (banned_alpha Hb) as [Hne Ha].
  assert (Hscan : re_findall BANNED_RE (enforce_limit MAX_ROWS (strip s)) <> []).
  { apply banned_scan_iff. exists w. split; [exact Hb|].
    apply contains_word_enforce_limit; try assumption.
    apply contains_word_strip; assumption. }
  rewrite sanitize_sql_steps. unfold inner_terminator.
  destruct (matches SELECT_RE None (strip s)) eqn:Hsel.
  - apply select_gate_iff in Hsel.
    destruct (contains_char SEMI _) eqn:Hsemi.
    + split; [eexists; reflexivity|]. split; [discriminate|].
      intros [_ [H _]]. congruence.
    + unfold finish.
      destruct (check_tables _ _) as [e|] eqn:Hchk.
      * split; [eexists; reflexivity|].
        rewrite (check_tables_error _ _ Hchk).
        split; [discriminate|]. intros [_ [_ H]]. discriminate.
      * destruct (re_findall BANNED_RE _); [congruence|].
        split; [eexists; reflexivity|]. split; [|reflexivity].
        intros _. repeat split; auto; discriminate.
  - split; [eexists; reflexivity|]. split; [discriminate|].
    intros [H _]. apply select_gate_iff in H. congruence.
Qed.

Lemma C2_banned_keyword_witness :
  (exists e, sanitize_sql 100 [lit "nyc_taxi"]
               (lit "select * from (select 1 from t where Drop = 1) q")
             = Raise e) /\
  sanitize_sql 100 [lit "nyc_taxi"]
    (lit "select * from (select 1 from t where Drop = 1) q")
  = Raise BannedKeyword.
Proof.
  pose proof (@C2_banned_keyword 100 [lit "nyc_taxi"]
    (lit "select * from (select 1 from t where Drop = 1) q") (lit "drop")) as H.
  destruct H as [H1 H2].
  - simpl. tauto.
  - apply (contains_word_iff (w := lit "drop")); [discriminate | repeat constructor|].
    vm_compute. reflexivity.
  - split; [exact H1|]. apply H2. repeat split.
    + apply begins_with_select_iff. vm_compute. reflexivity.
    + vm_compute. discriminate.
Defined.

(** C6, as stated, fails: all trailing terminators of a candidate that
    has a LIMIT are returned with it. *)
Lemma C6_counterexample :
  sanitize_sql 100 [lit "nyc_taxi"] (lit "select 1 limit 5;;")
  = Ok (lit "select 1 limit 5;;") /\
  count_char SEMI (lit "select 1 limit 5;;") = 2.
Proof. split; vm_compute; reflexivity. Qed.

(** C6, amended.  In the text that [sanitize_sql] returns, every
    terminator belongs to one run of terminators that ends the text: the
    text is a terminator-free body followed by that run, with no
    whitespace after it.  The run may be longer than one terminator, and
    it is empty when the candidate had no LIMIT keyword, the limit clause
    having been appended. *)
Theorem C6_terminators_trail (MAX_ROWS : Z) (ALLOWED_SCHEMAS : list str)
    (s out : str) :
  sanitize_sql MAX_ROWS ALLOWED_SCHEMAS s = Ok out ->
  (exists body n,
     out = body ++ repeat SEMI n /\ contains_char SEMI body = false) /\
  rstrip out = out /\
  (~ contains_word (lit "limit") s -> contains_char SEMI out = false).
Proof.
  intros H. apply sanitize_ok_inv in H.
  destruct H as [_ [Hsemi [-> _]]]. unfold inner_terminator in Hsemi.
  apply not_true_is_false in Hsemi.
  assert (Habs : ~ contains_word (lit "limit") (strip s) ->
    enforce_limit MAX_ROWS (strip s) =
    rstrip_chars [SEMI] (strip s) ++ lit " LIMIT " ++ str_of_int MAX_ROWS).
  { intros Hl. rewrite enforce_limit_absent, rstrip_strip by exact Hl.
    reflexivity. }
  assert (Hno : ~ contains_word (lit "limit") (strip s) ->
    contains_char SEMI (enforce_limit MAX_ROWS (strip s)) = false).
  { intros Hl. rewrite (Habs Hl), contains_char_app, Hsemi.
    apply limit_clause_no_semi. }
  destruct (contains_word_dec_limit (strip s)) as [Hl | Hl]; repeat split.
  - rewrite enforce_limit_present by exact Hl.
    destruct (rstrip_by_split (one_of [SEMI]) (strip s)) as [ss [E Hss]].
    exists (rstrip_chars [SEMI] (strip s)), (List.length ss).
    split; [|exact Hsemi]. rewrite <- (semis_repeat Hss). exact E.
  - rewrite enforce_limit_present by exact Hl. apply rstrip_strip.
  - intros Hn. exfalso. apply Hn.
    apply (contains_word_strip s lit_ne_limit lit_alpha_limit). exact Hl.
  - exists (enforce_limit MAX_ROWS (strip s)), 0. simpl.
    rewrite app_nil_r. split; [reflexivity | exact (Hno Hl)].
  - rewrite (Habs Hl).
    destruct (limit_clause_split MAX_ROWS) as [ds [d [E Hd]]].
    rewrite E, app_assoc. apply rstrip_by_keep.
    apply numchar_plain in Hd. tauto.
  - intros _. exact (Hno Hl).
Qed.

Lemma C6_terminators_trail_witness :
  (exists body n,
     lit "select 1 limit 5;;" = body ++ repeat SEMI n /\
     contains_char SEMI body = false) /\
  rstrip (lit "select 1 limit 5;;") = lit "select 1 limit 5;;" /\
  (~ contains_word (lit "limit") (lit " select 1 limit 5;; ") ->
   contains_char SEMI (lit "select 1 limit 5;;") = false).
Proof.
  apply (C6_terminators_trail 100 [lit "nyc_taxi"] (lit " select 1 limit 5;; ")).
  vm_compute. reflexivity.
Defined.

(** C10.  [sanitize_sql] is idempotent on its successes: validating a
    returned text again succeeds and returns it unchanged. *)
Theorem C10_idempotent (MAX_ROWS : Z) (ALLOWED_SCHEMAS : list str)
    (s out : str) :
  sanitize_sql MAX_ROWS ALLOWED_SCHEMAS s = Ok out ->
  sanitize_sql MAX_ROWS ALLOWED_SCHEMAS out = Ok out.
Proof.
  intros H. pose proof (sanitize_ok_inv _ _ _ H) as Hinv.
  destruct Hinv as [Hsel [Hsemi [E [Hchk Hban]]]].
  destruct (contains_word_dec_limit (strip s)) as [Hl | Hl].
  - (* the text had a LIMIT: the result is the trimmed candidate *)
    rewrite enforce_limit_present in E by exact Hl. subst out.
    rewrite sanitize_sql_strip. exact H.
  - (* the clause was appended *)
    rewrite enforce_limit_absent, rstrip_strip in E by exact Hl.
    set (body := rstrip_chars [SEMI] (strip s)) in *.
    set (clause := lit " LIMIT " ++ str_of_int MAX_ROWS) in *.
    destruct (limit_clause_split MAX_ROWS) as [ds [d [Ec Hd]]].
    fold clause in Ec. apply numchar_plain in Hd. destruct Hd as [Hd1 [Hd2 _]].
    assert (Hw : word_at (lit "select") None out = true).
    { subst out. apply word_at_app; [reflexivity|].
      destruct (rstrip_by_split (one_of [SEMI]) (strip s)) as [ss [E2 H2]].
      fold (rstrip_chars [SEMI] (strip s)) in E2. fold body in E2.
      rewrite <- (word_at_trail lit_alpha_select None body (semis_nonword H2)).
      rewrite <- E2.
      apply select_gate_iff in Hsel. rewrite matches_select in Hsel.
      unfold strip in Hsel |- *. rewrite lstrip_strip_by in Hsel. exact Hsel. }
    assert (Hlead : lstrip_by isspace out = out).
    { unfold word_at in Hw. simpl negb in Hw. cbn [andb] in Hw.
      destruct (ci_prefix (lit "select") out) as [[u rest]|] eqn:Ep;
        [|discriminate].
      apply ci_prefix_sound in Ep. destruct Ep as [Eo Hu].
      pose proof (keyword_copy_nonempty lit_ne_select lit_alpha_select Hu) as Hne.
      pose proof (ci_eq_alpha Hu lit_alpha_select) as Ha.
      destruct u as [|c u]; [congruence|]. inversion_clear Ha as [|? ? Hc1 _].
      rewrite Eo. apply lstrip_by_head, alpha_not_space. exact Hc1. }
    assert (Htrail : forall p, p d = false -> rstrip_by p out = out).
    { intros p Hp. subst out. rewrite Ec, app_assoc. apply rstrip_by_keep, Hp. }
    assert (Hstrip : strip out = out).
    { unfold strip, strip_by. rewrite Hlead. apply Htrail, Hd1. }
    assert (Hnosemi : contains_char SEMI (rstrip_chars [SEMI] (strip out)) = false).
    { rewrite Hstrip. unfold rstrip_chars. rewrite (Htrail _ Hd2). subst out.
      rewrite contains_char_app. apply orb_false_iff. split.
      - unfold inner_terminator in Hsemi. apply not_true_is_false in Hsemi.
        exact Hsemi.
      - apply limit_clause_no_semi. }
    assert (Hlim : enforce_limit MAX_ROWS out = out).
    { apply enforce_limit_present. subst out. apply appended_has_limit. }
    rewrite sanitize_sql_steps, Hnosemi, Hstrip, matches_select, Hlead, Hw, Hlim.
    unfold finish. rewrite Hchk, Hban. reflexivity.
Qed.

Lemma C10_idempotent_witness :
  sanitize_sql 100 [lit "nyc_taxi"]
    (lit "SELECT * FROM nyc_taxi.yellow_curated LIMIT 100")
  = Ok (lit "SELECT * FROM nyc_taxi.yellow_curated LIMIT 100").
Proof.
  apply (C10_idempotent 100 [lit "nyc_taxi"]
           (lit " SELECT * FROM nyc_taxi.yellow_curated; ")).
  vm_compute. reflexivity.
Defined.

(** C4, as stated, fails: here the keyword JOIN is followed by the
    qualified token [other.t], whose schema is not in the allow-list, and
    the candidate is accepted, the scan having taken JOIN itself for the
    table of the preceding FROM. *)
Lemma C4_counterexample :
  lit "select * from join other.t"
  = lit "select * from " ++ lit "join" ++ lit " " ++ lit "other.t" ++ [] /\
  table_ref (prev_after None (lit "select * from "))
    (lit "join") (lit " ") (lit "other.t") [] /\
  ~ In (schema_of (lit "other.t")) [lit "nyc_taxi"] /\
  sanitize_sql 100 [lit "nyc_taxi"] (lit "select * from join other.t")
  = Ok (lit "select * from join other.t LIMIT 100").
Proof.
  split; [reflexivity|]. split; [|split].
  - unfold table_ref.
    repeat split; try discriminate; try (right; reflexivity);
      repeat constructor.
  - intros [H | []]. vm_compute in H. discriminate.
  - vm_compute. reflexivity.
Qed.

(** C4, amended.  Take a candidate that passes the SELECT and the
    single-statement gates, and the text the schema step scans: the
    trimmed, limit-enforced candidate.  If in that text a FROM or JOIN
    keyword that is not inside an earlier match of the scan is followed by
    whitespace and a token with a dot whose segment before the first dot
    is not in the allow-list, the candidate is rejected with
    [SchemaNotAllowed], whose message lists the allow-list and does not
    name the schema.  If the schema segment of every captured token with a
    dot is in the allow-list, validation goes on to the banned-keyword
    scan, so it ends in [BannedKeyword] or in success.  The candidate
    "select * from other_schema.t limit 10" with allow-list {nyc_taxi} is
    rejected with [SchemaNotAllowed]. *)
Theorem C4_schema_allow_list (MAX_ROWS : Z) (ALLOWED_SCHEMAS : list str) :
  (forall s pre kw ws tok post,
     begins_with_select s -> ~ inner_terminator s ->
     enforce_limit MAX_ROWS (strip s) = pre ++ kw ++ ws ++ tok ++ post ->
     table_ref (prev_after None pre) kw ws tok post ->
     ~ covered (List.length pre)
         (finditer TABLE_RE (enforce_limit MAX_ROWS (strip s))) ->
     contains_char DOT tok = true ->
     ~ In (schema_of tok) ALLOWED_SCHEMAS ->
     sanitize_sql MAX_ROWS ALLOWED_SCHEMAS s
     = Raise (SchemaNotAllowed ALLOWED_SCHEMAS)) /\
  (forall s,
     begins_with_select s -> ~ inner_terminator s ->
     (forall tok,
        In tok (re_findall TABLE_RE (enforce_limit MAX_ROWS (strip s))) ->
        contains_char DOT tok = true -> In (schema_of tok) ALLOWED_SCHEMAS) ->
     sanitize_sql MAX_ROWS ALLOWED_SCHEMAS s = Raise BannedKeyword \/
     sanitize_sql MAX_ROWS ALLOWED_SCHEMAS s
     = Ok (enforce_limit MAX_ROWS (strip s))) /\
  sanitize_sql 100 [lit "nyc_taxi"] (lit "select * from other_schema.t limit 10")
  = Raise (SchemaNotAllowed [lit "nyc_taxi"]).
Proof.
  assert (Hgates : forall s, begins_with_select s -> ~ inner_terminator s ->
    sanitize_sql MAX_ROWS ALLOWED_SCHEMAS s =
    finish ALLOWED_SCHEMAS (enforce_limit MAX_ROWS (strip s))).
  { intros s Hsel Hsemi. rewrite sanitize_sql_steps.
    apply select_gate_iff in Hsel. rewrite Hsel.
    unfold inner_terminator in Hsemi.
    destruct (contains_char SEMI _); [congruence | reflexivity]. }
  split; [|split].
  - intros s pre kw ws tok post Hsel Hsemi E Href Hcov Hdot Hout.
    rewrite (Hgates s Hsel Hsemi). unfold finish.
    destruct (check_tables _ _) as [e|] eqn:Hchk.
    + rewrite (check_tables_error _ _ Hchk). reflexivity.
    + exfalso.
      pose proof (@table_ref_found _ _ _ _ _ _ E Href Hcov) as Hin.
      rewrite check_tables_none in Hchk. specialize (Hchk tok Hin).
      destruct Href as [_ [_ [_ [_ [_ [Htk _]]]]]].
      rewrite (check_table_token _ Htk), Hdot in Hchk.
      destruct (mem (schema_of tok) ALLOWED_SCHEMAS) eqn:Hm; [|discriminate].
      apply mem_In in Hm. contradiction.
  - intros s Hsel Hsemi Hall. rewrite (Hgates s Hsel Hsemi). unfold finish.
    assert (Hchk : check_tables ALLOWED_SCHEMAS
              (re_findall TABLE_RE (enforce_limit MAX_ROWS (strip s))) = None).
    { apply check_tables_none. intros tok Hin.
      pose proof Hin as Hin'. unfold re_findall in Hin'.
      apply in_map_iff in Hin'. destruct Hin' as [m [<- Hm]].
      destruct (@table_items_tokens _ _ Hm)
        as [pre [kw [ws [post [_ [_ [_ [_ [_ [_ [_ [Htk _]]]]]]]]]]]].
      rewrite (check_table_token _ Htk).
      destruct (contains_char DOT (m_group m)) eqn:Hdot; [|reflexivity].
      apply (Hall _ Hin) in Hdot. apply mem_In in Hdot. rewrite Hdot.
      reflexivity. }
    rewrite Hchk. destruct (re_findall BANNED_RE _); auto.
  - vm_compute. reflexivity.
Qed.

Lemma C4_schema_allow_list_witness :
  sanitize_sql 100 [lit "nyc_taxi"] (lit " Select a from x join other.t ; ")
  = Raise (SchemaNotAllowed [lit "nyc_taxi"]) /\
  (sanitize_sql 100 [lit "nyc_taxi"] (lit "select a from nyc_taxi.t")
   = Raise BannedKeyword \/
   sanitize_sql 100 [lit "nyc_taxi"] (lit "select a from nyc_taxi.t")
   = Ok (enforce_limit 100 (strip (lit "select a from nyc_taxi.t")))).
Proof.
  split.
  - apply (proj1 (C4_schema_allow_list 100 [lit "nyc_taxi"])
             (lit " Select a from x join other.t ; ")
             (lit "Select a from x ") (lit "join") (lit " ")
             (lit "other.t") (lit "  LIMIT 100")).
    + apply begins_with_select_iff. vm_compute. reflexivity.
    + vm_compute. discriminate.
    + vm_compute. reflexivity.
    + unfold table_ref.
      repeat split; try discriminate; try (right; reflexivity);
        repeat constructor.
    + intros [m [Hm Hc]]. vm_compute in Hm.
      destruct Hm as [<- | [<- | []]]; vm_compute in Hc; lia.
    + vm_compute. reflexivity.
    + intros [H | []]. vm_compute in H. discriminate.
  - apply (proj1 (proj2 (C4_schema_allow_list 100 [lit "nyc_taxi"]))
             (lit "select a from nyc_taxi.t")).
    + apply begins_with_select_iff. vm_compute. reflexivity.
    + vm_compute. discriminate.
    + intros tok Hin _. vm_compute in Hin. destruct Hin as [<- | []].
      vm_compute. left. reflexivity.
Defined.

(** C9.  Where a FROM or JOIN keyword is followed by whitespace (any
    amount of it) and then a double quote, a backtick or a single quote,
    the table pattern does
    not match at that keyword, so no item of the scan starts there; the
    tokens the scan does capture are made of letters, digits, underscore
    and dot only.  A quoted reference is thus never checked against the
    allow-list: whatever the allow-list, [select * from "other_schema".t]
    passes validation. *)
Theorem C9_quoted_reference_skipped :
  (forall text pre kw ws q post,
     text = pre ++ kw ++ ws ++ q :: post ->
     ci_eq kw (lit "from") \/ ci_eq kw (lit "join") ->
     all isspace ws ->
     q = DQUOTE \/ q = BACKTICK \/ q = QUOTE ->
     match_at TABLE_RE (prev_after None pre) (kw ++ ws ++ q :: post) = None /\
     (forall m, In m (finditer TABLE_RE text) ->
        m_start m <> List.length pre /\ all istoken (m_group m))) /\
  (forall ALLOWED_SCHEMAS,
     sanitize_sql 100 ALLOWED_SCHEMAS
       (lit "select * from " ++ [DQUOTE] ++ lit "other_schema" ++ [DQUOTE]
        ++ lit ".t")
     = Ok (lit "select * from " ++ [DQUOTE] ++ lit "other_schema" ++ [DQUOTE]
           ++ lit ".t LIMIT 100")).
Proof.
  split.
  - intros text pre kw ws q post -> Hkw Hsp Hq.
    assert (Hno : forall prev,
      match_at TABLE_RE prev (kw ++ ws ++ q :: post) = None).
    { intros prev. rewrite match_table, (table_at_quote prev post Hkw Hsp Hq).
      reflexivity. }
    split; [apply Hno|]. intros m Hm. split.
    + intros Hs. apply finditer_from_sound in Hm.
      destruct Hm as [pre' [post' [g [rest [E [Hs' [Hm _]]]]]]].
      simpl in Hs'. rewrite Hs in Hs'. symmetry in Hs'.
      destruct (app_same_length _ _ _ _ Hs' (eq_sym E)) as [-> ->].
      rewrite Hno in Hm. discriminate.
    + destruct (@table_items_tokens _ _ Hm)
        as [pre' [kw' [ws' [post' [_ [_ [_ [_ [_ [_ [_ [Htk _]]]]]]]]]]]].
      exact Htk.
  - intros A. vm_compute. reflexivity.
Qed.

Lemma C9_quoted_reference_skipped_witness :
  match_at TABLE_RE (prev_after None (lit "select a "))
    (lit "FROM" ++ lit "  " ++ BACKTICK :: lit "s`.t") = None /\
  (forall m, In m (finditer TABLE_RE (lit "select a FROM  `s`.t")) ->
     m_start m <> List.length (lit "select a ") /\ all istoken (m_group m)).
Proof.
  apply (proj1 C9_quoted_reference_skipped (lit "select a FROM  `s`.t")
           (lit "select a ") (lit "FROM") (lit "  ") BACKTICK (lit "s`.t")).
  - reflexivity.
  - left. reflexivity.
  - repeat constructor.
  - right. left. reflexivity.
Defined.

(* ===================================================================== *)
(** ** Properties of the invoker *)
(* ===================================================================== *)

Section RetryFacts.

Import Invoker.

Variables response exn : Type.
Variable invoke_model : nat -> outcome response exn.
Variable uniform : nat -> Q.
Variable max_attempts : Z.

Lemma retry_loop_step fuel attempt w :
  retry_loop invoke_model uniform max_attempts (S fuel) attempt w =
  if retried max_attempts attempt (invoke_model (calls w))
  then retry_loop invoke_model uniform max_attempts fuel (S attempt)
         (after_sleep uniform attempt w)
  else Some (invoke_model (calls w), after_call w).
Proof.
  cbn [retry_loop]. unfold retried.
  destruct (invoke_model (calls w)) as [r | code | e]; reflexivity.
Qed.

Lemma retried_bound attempt (o : outcome response exn) :
  retried max_attempts attempt o = true ->
  (Z.of_nat attempt < max_attempts - 1)%Z.
Proof.
  destruct o as [r | code | e]; try discriminate. simpl.
  intros H. apply andb_true_iff in H. destruct H as [_ H].
  apply Z.ltb_lt, H.
Qed.

(** The loop ends within its fuel: every retry uses up one of the
    attempts that are left. *)
Lemma retry_loop_total fuel : forall attempt w,
  Z.to_nat (max_attempts - 1 - Z.of_nat attempt) < fuel ->
  exists r, retry_loop invoke_model uniform max_attempts fuel attempt w = Some r.
Proof.
  induction fuel as [|fuel IH]; intros attempt w Hf; [lia|].
  rewrite retry_loop_step.
  destruct (retried max_attempts attempt (invoke_model (calls w))) eqn:E.
  - apply IH. apply retried_bound in E. lia.
  - eexists. reflexivity.
Qed.

Lemma invoke_bedrock_with_retry_total :
  exists r, invoke_bedrock_with_retry invoke_model uniform max_attempts = Some r.
Proof. apply retry_loop_total. simpl. lia. Qed.



End RetryFacts.




(* ===================================================================== *)
(** ** Properties of the query runner *)
(* ===================================================================== *)

Section RunnerFacts.

Import Runner.

Variable MAX_ROWS : Z.

(** A later page never takes the rows beyond the cap. *)
Lemma append_rows_cap page_rows : forall rows,
  (len rows < MAX_ROWS)%Z ->
  (len (append_rows MAX_ROWS rows page_rows) <= MAX_ROWS)%Z.
Proof.
  induction page_rows as [|r rest IH]; intros rows H; simpl; [lia|].
  destruct (len (rows ++ [r]) >=? MAX_ROWS)%Z eqn:E.
  - unfold len in *. rewrite length_app in *. simpl in *. lia.
  - apply IH. rewrite Z.geb_leb in E. apply Z.leb_gt in E. exact E.
Qed.

Lemma append_rows_prefix page_rows : forall rows,
  exists more, append_rows MAX_ROWS rows page_rows = rows ++ more.
Proof.
  induction page_rows as [|r rest IH]; intros rows; simpl.
  - exists []. symmetry. apply app_nil_r.
  - destruct (len (rows ++ [r]) >=? MAX_ROWS)%Z.
    + exists [r]. reflexivity.
    + destruct (IH (rows ++ [r])) as [more E]. exists (r :: more).
      rewrite E, <- app_assoc. reflexivity.
Qed.

(** After the first page, the rows stay within the larger of the cap and
    the first page's size, and the first page's rows stay in front. *)
Lemma fetch_more_bound pages : forall next_token rows out,
  fetch_more MAX_ROWS pages next_token rows = Some out ->
  (len out <= Z.max MAX_ROWS (len rows))%Z /\ exists more, out = rows ++ more.
Proof.
  induction pages as [|res pages IH]; intros next_token rows out; simpl.
  - destruct (truthy next_token && (len rows <? MAX_ROWS)%Z); [discriminate|].
    intros H. injection H as <-. split; [lia|].
    exists []. symmetry. apply app_nil_r.
  - destruct (truthy next_token && (len rows <? MAX_ROWS)%Z) eqn:E.
    + intros H. apply IH in H. destruct H as [Hb [more Hm]].
      apply andb_true_iff in E. destruct E as [_ E]. apply Z.ltb_lt in E.
      pose proof (append_rows_cap (Rows res) rows E) as Hc.
      destruct (append_rows_prefix (Rows res) rows) as [more' E'].
      split; [lia|]. exists (more' ++ more).
      rewrite Hm, E', <- app_assoc. reflexivity.
    + intros H. injection H as <-. split; [lia|].
      exists []. symmetry. apply app_nil_r.
Qed.

(** What the runner does guarantee: the header row is left out, and the
    rows number at most the larger of the cap and the data rows of the
    first page. *)
Lemma fetch_results_bound res pages headers rows :
  fetch_results MAX_ROWS (res :: pages) = Some (ResultSet headers rows) ->
  header_names (hd [] (Rows res)) = Some headers /\
  (exists more, rows = tl (Rows res) ++ more) /\
  (len rows <= Z.max MAX_ROWS (len (tl (Rows res))))%Z.
Proof.
  unfold fetch_results. destruct (Rows res) as [|r0 data]; [discriminate|].
  simpl. destruct (header_names r0) as [hs|]; [|discriminate].
  destruct (fetch_more MAX_ROWS pages (NextToken res) data) as [out|] eqn:E;
    [|discriminate].
  intros H. injection H as <- <-. apply fetch_more_bound in E.
  destruct E as [Hb Hm]. auto.
Qed.

End RunnerFacts.

(** C8, at a failing input.  With a row limit of 100, a query that has
    SUCCEEDED and a single page of a header row and 101 data rows, the
    runner leaves the header out and returns all 101 rows: the rows of
    the first page are not counted against the limit. *)
Theorem C8_row_cap_exceeded :
  Runner.run_athena 100 [Runner.RUNNING; Runner.SUCCEEDED] [one_column_page 101]
  = Some (Runner.ResultSet [lit "n"] (repeat [Some (lit "1")] 101)) /\
  (100 < Runner.len (repeat [Some (lit "1")] 101))%Z.
Proof. split; vm_compute; reflexivity. Qed.

(** Three pages of 40 rows with a row limit of 100: the third page is
    read up to the hundredth row. *)
Example three_pages_of_forty :
  Runner.fetch_results 100
    [{| Runner.Rows := [Some (lit "n")] :: repeat [Some (lit "1")] 40;
        Runner.NextToken := Some (lit "a") |};
     {| Runner.Rows := repeat [Some (lit "2")] 40;
        Runner.NextToken := Some (lit "b") |};
     {| Runner.Rows := repeat [Some (lit "3")] 40;
        Runner.NextToken := None |}]
  = Some (Runner.ResultSet [lit "n"]
            (repeat [Some (lit "1")] 40 ++ repeat [Some (lit "2")] 40
             ++ repeat [Some (lit "3")] 20)).
Proof. vm_compute. reflexivity. Qed.

(* ===================================================================== *)
(** ** What a validated statement looks like *)
(* ===================================================================== *)

Import Env Json Summary Handler.

Lemma word_at_starts w prev x :
  w <> [] -> all isalpha_ascii w ->
  word_at w prev x = true -> lstrip_by isspace x = x.
Proof.
  intros Hne Ha H. unfold word_at in H. apply andb_true_iff in H.
  destruct H as [_ H].
  destruct (ci_prefix w x) as [[u rest]|] eqn:Ep; [|discriminate].
  apply ci_prefix_sound in Ep. destruct Ep as [Eo Hu].
  pose proof (keyword_copy_nonempty Hne Ha Hu) as Hu1.
  pose proof (ci_eq_alpha Hu Ha) as Hu2.
  destruct u as [|c u]; [congruence|]. inversion_clear Hu2 as [|? ? Hc _].
  rewrite Eo. apply lstrip_by_head, alpha_not_space. exact Hc.
Qed.

(** The facts about a returned text that a second validation would
    test. *)
Lemma sanitize_output_facts MAX_ROWS ALLOWED_SCHEMAS s out :
  sanitize_sql MAX_ROWS ALLOWED_SCHEMAS s = Ok out ->
  strip out = out /\
  word_at (lit "select") None out = true /\
  contains_char SEMI (rstrip_chars [SEMI] out) = false /\
  contains_word (lit "limit") out.
Proof.
  intros H. apply sanitize_ok_inv in H.
  destruct H as [Hsel [Hsemi [E _]]].
  unfold inner_terminator in Hsemi. apply not_true_is_false in Hsemi.
  apply select_gate_iff in Hsel. rewrite matches_select in Hsel.
  unfold strip in Hsel at 1. rewrite lstrip_strip_by in Hsel.
  fold (strip s) in Hsel.
  destruct (contains_word_dec_limit (strip s)) as [Hl | Hl].
  - rewrite enforce_limit_present in E by exact Hl. subst out.
    repeat split; auto. apply strip_idem.
  - rewrite enforce_limit_absent, rstrip_strip in E by exact Hl.
    destruct (limit_clause_split MAX_ROWS) as [ds [d [Ec Hd]]].
    apply numchar_plain in Hd. destruct Hd as [Hd1 [Hd2 _]].
    assert (Hw : word_at (lit "select") None out = true).
    { subst out. apply word_at_app; [reflexivity|].
      destruct (rstrip_by_split (one_of [SEMI]) (strip s)) as [ss [E2 H2]].
      rewrite <- (word_at_trail lit_alpha_select None
                    (rstrip_chars [SEMI] (strip s)) (semis_nonword H2)).
      unfold rstrip_chars. rewrite <- E2. exact Hsel. }
    assert (Htrail : forall p, p d = false -> rstrip_by p out = out).
    { intros p Hp. subst out. rewrite Ec, app_assoc. apply rstrip_by_keep, Hp. }
    repeat split.
    + unfold strip, strip_by.
      rewrite (@word_at_starts _ _ _ lit_ne_select lit_alpha_select Hw).
      apply Htrail, Hd1.
    + exact Hw.
    + unfold rstrip_chars. rewrite (Htrail _ Hd2). subst out.
      rewrite contains_char_app, Hsemi. apply limit_clause_no_semi.
    + subst out. apply appended_has_limit.
Qed.

(** X1.  A text returned by [sanitize_sql] is trimmed, begins with the
    token SELECT, has a whole-word LIMIT keyword, and has no terminator
    left once its trailing terminators are removed. *)
Theorem validated_shape (MAX_ROWS : Z) (ALLOWED_SCHEMAS : list str)
    (s out : str) :
  sanitize_sql MAX_ROWS ALLOWED_SCHEMAS s = Ok out ->
  strip out = out /\ begins_with_select out /\
  contains_word (lit "limit") out /\ ~ inner_terminator out.
Proof.
  intros H. apply sanitize_output_facts in H.
  destruct H as [Hs [Hw [Hsemi Hl]]]. repeat split; auto.
  - apply begins_with_select_iff.
    rewrite (@word_at_starts _ _ _ lit_ne_select lit_alpha_select Hw). exact Hw.
  - unfold inner_terminator. rewrite Hs, Hsemi. discriminate.
Qed.

Lemma validated_shape_witness :
  strip (lit "select 1 LIMIT 100") = lit "select 1 LIMIT 100" /\
  begins_with_select (lit "select 1 LIMIT 100") /\
  contains_word (lit "limit") (lit "select 1 LIMIT 100") /\
  ~ inner_terminator (lit "select 1 LIMIT 100").
Proof.
  apply (@validated_shape 100 [lit "nyc_taxi"] (lit "  select 1; ")).
  vm_compute. reflexivity.
Defined.

(** X2.  A text returned by [sanitize_sql] contains none of the nine
    banned keywords as a whole word, in any case. *)
Theorem validated_has_no_banned_keyword (MAX_ROWS : Z)
    (ALLOWED_SCHEMAS : list str) (s out w : str) :
  sanitize_sql MAX_ROWS ALLOWED_SCHEMAS s = Ok out ->
  In w (map lit ["unload"; "create"; "drop"; "delete"; "update"; "insert";
                 "grant"; "alter"; "msck"]%string) ->
  ~ contains_word w out.
Proof.
  intros H Hw' Hc.
  assert (Hw : In w banned_set).
  { unfold banned_set, banned_words. simpl in Hw' |- *. tauto. }
  apply sanitize_ok_inv in H.
  destruct H as [_ [_ [_ [_ Hb]]]].
  assert (Hne : re_findall BANNED_RE out <> []).
  { apply banned_scan_iff. exists w. auto. }
  congruence.
Qed.

Lemma validated_has_no_banned_keyword_witness :
  ~ contains_word (lit "delete") (lit "select deleted from t LIMIT 100").
Proof.
  apply (@validated_has_no_banned_keyword 100 [lit "nyc_taxi"]
           (lit "select deleted from t") (lit "select deleted from t LIMIT 100")
           (lit "delete")).
  - vm_compute. reflexivity.
  - right. right. right. left. reflexivity.
Defined.

(** X3.  In a text returned by [sanitize_sql], every FROM or JOIN
    keyword that is not inside an earlier match of the table scan and is
    followed by whitespace and a token with a dot has the token's schema
    segment in the allow-list. *)
Theorem validated_schemas_allowed (MAX_ROWS : Z) (ALLOWED_SCHEMAS : list str)
    (s out pre kw ws tok post : str) :
  sanitize_sql MAX_ROWS ALLOWED_SCHEMAS s = Ok out ->
  out = pre ++ kw ++ ws ++ tok ++ post ->
  table_ref (prev_after None pre) kw ws tok post ->
  ~ covered (List.length pre) (finditer TABLE_RE out) ->
  contains_char DOT tok = true ->
  In (schema_of tok) ALLOWED_SCHEMAS.
Proof.
  intros H E Href Hcov Hdot. apply sanitize_ok_inv in H.
  destruct H as [_ [_ [_ [Hchk _]]]].
  pose proof (@table_ref_found _ _ _ _ _ _ E Href Hcov) as Hin.
  rewrite check_tables_none in Hchk. specialize (Hchk tok Hin).
  destruct Href as [_ [_ [_ [_ [_ [Htk _]]]]]].
  rewrite (check_table_token _ Htk), Hdot in Hchk.
  destruct (mem (schema_of tok) ALLOWED_SCHEMAS) eqn:Hm; [|discriminate].
  apply mem_In, Hm.
Qed.

Lemma validated_schemas_allowed_witness :
  In (schema_of (lit "nyc_taxi.t")) [lit "nyc_taxi"].
Proof.
  apply (@validated_schemas_allowed 100 [lit "nyc_taxi"]
           (lit "select a from nyc_taxi.t limit 5")
           (lit "select a from nyc_taxi.t limit 5")
           (lit "select a ") (lit "from") (lit " ") (lit "nyc_taxi.t")
           (lit " limit 5")).
  - vm_compute. reflexivity.
  - reflexivity.
  - unfold table_ref.
    repeat split; try discriminate; try (left; reflexivity);
      repeat constructor.
  - intros [m [Hm Hc]]. vm_compute in Hm.
    destruct Hm as [<- | []]; vm_compute in Hc; lia.
  - vm_compute. reflexivity.
Defined.

(* ===================================================================== *)
(** ** How validation depends on its inputs *)
(* ===================================================================== *)

Lemma lstrip_by_app_stop p a y :
  match y with c :: _ => p c = false | [] => False end ->
  lstrip_by p (a ++ y) = lstrip_by p a ++ y.
Proof.
  intros Hy. induction a as [|c a IH]; simpl.
  - destruct y as [|d y]; [contradiction|]. simpl. rewrite Hy. reflexivity.
  - destruct (p c); [exact IH | reflexivity].
Qed.

Lemma rstrip_by_app_stop p y c b :
  p c = false ->
  rstrip_by p ((y ++ [c]) ++ b) = (y ++ [c]) ++ rstrip_by p b.
Proof.
  intros Hc. induction y as [|d y IH].
  - simpl. rewrite Hc. destruct (rstrip_by p b); reflexivity.
  - change (((d :: y) ++ [c]) ++ b) with (d :: ((y ++ [c]) ++ b)).
    cbn [rstrip_by]. rewrite IH.
    destruct ((y ++ [c]) ++ rstrip_by p b) eqn:E; [destruct y; discriminate|].
    simpl. rewrite E. reflexivity.
Qed.

Lemma lstrip_by_app p s r :
  lstrip_by p (s ++ r) =
  match lstrip_by p s with [] => lstrip_by p r | x => x ++ r end.
Proof.
  induction s as [|c s IH]; simpl; [reflexivity|].
  destruct (p c); [exact IH | reflexivity].
Qed.

Lemma lstrip_by_all_nil p r : all p r -> lstrip_by p r = [].
Proof.
  intros H. rewrite <- (app_nil_r r). apply (@lstrip_by_all p r [] H).
Qed.

(** Whitespace around a text does not change its trim. *)
Lemma strip_padded l s r :
  all isspace l -> all isspace r -> strip (l ++ s ++ r) = strip s.
Proof.
  intros Hl Hr. unfold strip, strip_by.
  rewrite lstrip_by_all by exact Hl. rewrite lstrip_by_app.
  destruct (lstrip_by isspace s) as [|c x].
  - rewrite lstrip_by_all_nil by exact Hr. reflexivity.
  - apply rstrip_by_app_all, Hr.
Qed.

(** X4.  Whitespace before and after the candidate does not change what
    [sanitize_sql] does with it. *)
Theorem sanitize_ignores_padding (MAX_ROWS : Z) (ALLOWED_SCHEMAS : list str)
    (l s r : str) :
  all isspace l -> all isspace r ->
  sanitize_sql MAX_ROWS ALLOWED_SCHEMAS (l ++ s ++ r)
  = sanitize_sql MAX_ROWS ALLOWED_SCHEMAS s.
Proof.
  intros Hl Hr.
  rewrite <- (sanitize_sql_strip _ _ (l ++ s ++ r)), <- (sanitize_sql_strip _ _ s).
  rewrite strip_padded by assumption. reflexivity.
Qed.

Lemma sanitize_ignores_padding_witness :
  sanitize_sql 100 [lit "nyc_taxi"] (lit "  " ++ lit "select 1" ++ lit " ")
  = sanitize_sql 100 [lit "nyc_taxi"] (lit "select 1").
Proof.
  apply (@sanitize_ignores_padding 100 [lit "nyc_taxi"]
           (lit "  ") (lit "select 1") (lit " ")); repeat constructor.
Defined.

(** X5.  An empty candidate, or one of whitespace only, is rejected with
    [NotSelect]. *)
Theorem blank_candidate_rejected (MAX_ROWS : Z) (ALLOWED_SCHEMAS : list str)
    (s : str) :
  all isspace s ->
  sanitize_sql MAX_ROWS ALLOWED_SCHEMAS s = Raise NotSelect.
Proof.
  intros H. rewrite <- (sanitize_sql_strip _ _ s).
  assert (E : strip (s ++ [] ++ []) = strip [])
    by (apply strip_padded; [exact H | constructor]).
  simpl in E. rewrite app_nil_r in E. rewrite E. reflexivity.
Qed.

Lemma blank_candidate_rejected_witness :
  sanitize_sql 100 [lit "nyc_taxi"] (lit "   ") = Raise NotSelect.
Proof.
  apply (@blank_candidate_rejected 100 [lit "nyc_taxi"] (lit "   ")).
  repeat constructor.
Defined.

(** X6.  A candidate that validates under an allow-list validates to the
    same text under every larger allow-list. *)
Theorem larger_allow_list_accepts (MAX_ROWS : Z) (A A' : list str)
    (s out : str) :
  (forall x, In x A -> In x A') ->
  sanitize_sql MAX_ROWS A s = Ok out ->
  sanitize_sql MAX_ROWS A' s = Ok out.
Proof.
  intros Hsub H. apply sanitize_ok_inv in H.
  destruct H as [Hsel [Hsemi [-> [Hchk Hban]]]].
  apply sanitize_ok_intro; try assumption.
  rewrite check_tables_none in Hchk |- *. intros t Ht.
  specialize (Hchk t Ht). unfold check_table in Hchk |- *.
  destruct (contains_char DOT _); [|reflexivity].
  destruct (mem _ A) eqn:Hm; [|discriminate].
  apply mem_In, Hsub in Hm. apply mem_In in Hm. rewrite Hm. reflexivity.
Qed.

Lemma larger_allow_list_accepts_witness :
  sanitize_sql 100 [lit "other"; lit "nyc_taxi"] (lit "select a from nyc_taxi.t")
  = Ok (lit "select a from nyc_taxi.t LIMIT 100").
Proof.
  apply (@larger_allow_list_accepts 100 [lit "nyc_taxi"]
           [lit "other"; lit "nyc_taxi"]).
  - intros x Hx. right. exact Hx.
  - vm_compute. reflexivity.
Defined.

(** X7.  For a candidate that has a LIMIT keyword of its own the
    configured row limit plays no part: the result is the same for every
    [MAX_ROWS], and a success returns the trimmed candidate, whatever
    number follows its LIMIT. *)
Theorem own_limit_is_kept (M M' : Z) (ALLOWED_SCHEMAS : list str) (s : str) :
  contains_word (lit "limit") s ->
  sanitize_sql M ALLOWED_SCHEMAS s = sanitize_sql M' ALLOWED_SCHEMAS s /\
  (forall out, sanitize_sql M ALLOWED_SCHEMAS s = Ok out -> out = strip s).
Proof.
  intros H.
  apply (contains_word_strip s lit_ne_limit lit_alpha_limit) in H.
  rewrite !sanitize_sql_steps, !enforce_limit_present by exact H.
  split; [reflexivity|]. intros out.
  destruct (matches SELECT_RE None (strip s)); [|discriminate].
  destruct (contains_char SEMI _); [discriminate|].
  destruct (finish_cases ALLOWED_SCHEMAS (strip s)) as [E | [E | E]];
    rewrite E; congruence.
Qed.

Lemma own_limit_is_kept_witness :
  sanitize_sql 100 [lit "nyc_taxi"] (lit "select a from t limit 1000000")
  = sanitize_sql 5 [lit "nyc_taxi"] (lit "select a from t limit 1000000") /\
  (forall out,
     sanitize_sql 100 [lit "nyc_taxi"] (lit "select a from t limit 1000000")
     = Ok out ->
     out = strip (lit "select a from t limit 1000000")).
Proof.
  apply (@own_limit_is_kept 100 5 [lit "nyc_taxi"]
           (lit "select a from t limit 1000000")).
  apply (contains_word_iff lit_ne_limit lit_alpha_limit).
  vm_compute. reflexivity.
Defined.

Lemma contains_char_sub ch l t r :
  contains_char ch (l ++ t ++ r) = false -> contains_char ch t = false.
Proof.
  rewrite !contains_char_app. intros H.
  apply orb_false_iff in H. destruct H as [_ H].
  apply orb_false_iff in H. tauto.
Qed.

Lemma numchar_not_dot c : isnumchar c = true -> Ascii.eqb DOT c = false.
Proof. each_char c. Qed.

(** X8.  A candidate without any dot is never rejected by the schema
    step: unqualified table names are not checked. *)
Theorem no_dot_no_schema_error (MAX_ROWS : Z) (ALLOWED_SCHEMAS : list str)
    (s : str) (allowed : list str) :
  contains_char DOT s = false ->
  sanitize_sql MAX_ROWS ALLOWED_SCHEMAS s <> Raise (SchemaNotAllowed allowed).
Proof.
  intros Hdot. rewrite sanitize_sql_steps.
  destruct (matches SELECT_RE None (strip s)); [|discriminate].
  destruct (contains_char SEMI _); [discriminate|].
  assert (Ht : contains_char DOT (strip s) = false).
  { destruct (strip_by_split isspace s) as [l [r [E _]]].
    fold (strip s) in E. rewrite E in Hdot.
    apply (contains_char_sub _ _ _ _ Hdot). }
  assert (Htext : contains_char DOT (enforce_limit MAX_ROWS (strip s)) = false).
  { destruct (contains_word_dec_limit (strip s)) as [Hl | Hl].
    - rewrite enforce_limit_present by exact Hl. exact Ht.
    - rewrite enforce_limit_absent, rstrip_strip by exact Hl.
      rewrite !contains_char_app. apply orb_false_iff. split.
      + destruct (rstrip_by_split (one_of [SEMI]) (strip s)) as [ss [E _]].
        rewrite E, contains_char_app in Ht. apply orb_false_iff in Ht. tauto.
      + apply orb_false_iff. split; [reflexivity|].
        apply contains_char_false.
        eapply Forall_impl; [|exact (str_of_int_chars MAX_ROWS)].
        intros c. apply numchar_not_dot. }
  unfold finish.
  assert (Hchk : check_tables ALLOWED_SCHEMAS
            (re_findall TABLE_RE (enforce_limit MAX_ROWS (strip s))) = None).
  { apply check_tables_none. intros tok Hin.
    unfold re_findall in Hin. apply in_map_iff in Hin.
    destruct Hin as [m [<- Hm]].
    destruct (@table_items_tokens _ _ Hm)
      as [pre [kw [ws [post [E [_ [_ [_ [_ [_ [_ [Htk _]]]]]]]]]]]].
    rewrite (check_table_token _ Htk).
    rewrite E, !contains_char_app in Htext.
    repeat (apply orb_false_iff in Htext; destruct Htext as [? Htext]).
    match goal with H : contains_char DOT (m_group m) = false |- _ =>
      rewrite H end.
    reflexivity. }
  rewrite Hchk. destruct (re_findall BANNED_RE _); discriminate.
Qed.

Lemma no_dot_no_schema_error_witness :
  sanitize_sql 100 [lit "nyc_taxi"] (lit "select a from secrets")
  <> Raise (SchemaNotAllowed [lit "nyc_taxi"]).
Proof.
  apply (@no_dot_no_schema_error 100 [lit "nyc_taxi"]
           (lit "select a from secrets") [lit "nyc_taxi"]).
  vm_compute. reflexivity.
Defined.

(* ===================================================================== *)
(** ** Splitting, joining and the allow-list setting *)
(* ===================================================================== *)

Lemma split_on_nonempty sep s : split_on sep s <> [].
Proof.
  destruct s as [|c s]; simpl; [discriminate|].
  destruct (Ascii.eqb c sep); [discriminate|].
  destruct (split_on sep s); discriminate.
Qed.

Lemma split_on_cons sep c s :
  Ascii.eqb c sep = false ->
  exists w ws, split_on sep s = w :: ws /\ split_on sep (c :: s) = (c :: w) :: ws.
Proof.
  intros H. simpl. rewrite H.
  destruct (split_on sep s) as [|w ws] eqn:E.
  - exfalso. exact (@split_on_nonempty _ _ E).
  - exists w, ws. auto.
Qed.

(** No piece of a split holds the separator. *)
Lemma split_on_no_sep sep s w :
  In w (split_on sep s) -> contains_char sep w = false.
Proof.
  revert w. induction s as [|c s IH]; intros w Hw.
  - destruct Hw as [<- | []]. reflexivity.
  - destruct (Ascii.eqb c sep) eqn:E.
    + simpl in Hw. rewrite E in Hw. destruct Hw as [<- | Hw]; [reflexivity|].
      apply IH, Hw.
    + destruct (@split_on_cons sep c s E) as [w0 [ws [E0 E1]]].
      rewrite E1 in Hw. rewrite E0 in IH. destruct Hw as [<- | Hw].
      * simpl. rewrite Ascii.eqb_sym, E. apply IH. left. reflexivity.
      * apply IH. right. exact Hw.
Qed.

Lemma split_on_plain sep x :
  contains_char sep x = false -> split_on sep x = [x].
Proof.
  induction x as [|c x IH]; simpl; [reflexivity|].
  intros H. apply orb_false_iff in H. destruct H as [Hc Hx].
  rewrite Ascii.eqb_sym, Hc, (IH Hx). reflexivity.
Qed.

Lemma split_on_app_sep sep x rest :
  contains_char sep x = false ->
  split_on sep (x ++ sep :: rest) = x :: split_on sep rest.
Proof.
  induction x as [|c x IH]; simpl.
  - intros _. rewrite Ascii.eqb_refl. reflexivity.
  - intros H. apply orb_false_iff in H. destruct H as [Hc Hx].
    rewrite Ascii.eqb_sym, Hc, (IH Hx). reflexivity.
Qed.

(** Splitting undoes joining, for parts that do not hold the separator. *)
Lemma split_join sep xs :
  xs <> [] -> (forall x, In x xs -> contains_char sep x = false) ->
  split_on sep (join [sep] xs) = xs.
Proof.
  induction xs as [|x xs IH]; intros Hne H; [congruence|].
  destruct xs as [|y xs].
  - apply split_on_plain, H. left. reflexivity.
  - change (join [sep] (x :: y :: xs)) with (x ++ sep :: join [sep] (y :: xs)).
    rewrite split_on_app_sep by (apply H; left; reflexivity).
    rewrite IH; [reflexivity | discriminate|].
    intros z Hz. apply H. right. exact Hz.
Qed.

Lemma contains_char_strip ch x :
  contains_char ch x = false -> contains_char ch (strip x) = false.
Proof.
  intros H. destruct (strip_by_split isspace x) as [l [r [E _]]].
  fold (strip x) in E. rewrite E in H. apply (contains_char_sub _ _ _ _ H).
Qed.

(** X9.  Whatever the ALLOWED_SCHEMAS setting, the allow-list is not
    empty, and each of its members is trimmed and holds no comma; without
    the setting the list is {nyc_taxi}. *)
Theorem allowed_schemas_members (env : option str) :
  allowed_schemas env <> [] /\
  (forall x, In x (allowed_schemas env) ->
     strip x = x /\ contains_char COMMA x = false) /\
  allowed_schemas None = [lit "nyc_taxi"].
Proof.
  unfold allowed_schemas. split; [|split; [|reflexivity]].
  - intros E. apply map_eq_nil in E. exact (@split_on_nonempty _ _ E).
  - intros x Hx. apply in_map_iff in Hx. destruct Hx as [w [<- Hw]].
    split; [apply strip_idem|].
    apply contains_char_strip. apply (@split_on_no_sep _ _ _ Hw).
Qed.



(* ===================================================================== *)
(** ** The generated text *)
(* ===================================================================== *)

Lemma tick_class c : one_of (lit "```") c = Ascii.eqb c BACKTICK.
Proof. each_char c. Qed.

Lemma tick_not_space c : one_of (lit "```") c = true -> isspace c = false.
Proof. each_char c. Qed.

Lemma space_not_tick c : isspace c = true -> one_of (lit "```") c = false.
Proof. each_char c. Qed.

Lemma ticks_all n : all (one_of (lit "```")) (repeat BACKTICK n).
Proof. induction n; simpl; constructor; auto. Qed.

Lemma spaces_no_tick ws : all isspace ws -> none (one_of (lit "```")) ws.
Proof.
  intros H. eapply Forall_impl; [|exact H]. intros c. apply space_not_tick.
Qed.

(** A strip stops at a core whose first and last code points are outside
    the class. *)
Lemma strip_by_around p a y c b :
  match y ++ [c] with h :: _ => p h = false | [] => False end ->
  p c = false ->
  strip_by p (a ++ (y ++ [c]) ++ b) = lstrip_by p a ++ (y ++ [c]) ++ rstrip_by p b.
Proof.
  intros Hh Hc. unfold strip_by.
  rewrite lstrip_by_app_stop.
  - replace (lstrip_by p a ++ (y ++ [c]) ++ b)
      with (((lstrip_by p a ++ y) ++ [c]) ++ b)
      by (rewrite <- !app_assoc; reflexivity).
    rewrite rstrip_by_app_stop by exact Hc.
    rewrite <- !app_assoc. reflexivity.
  - destruct y; simpl in *; exact Hh.
Qed.

Lemma fence_left n ws :
  all isspace ws ->
  lstrip_by isspace
    (lstrip_by (one_of (lit "```")) (lstrip_by isspace (repeat BACKTICK n ++ ws)))
  = [].
Proof.
  intros Hws. destruct n as [|n].
  - simpl. rewrite (lstrip_by_all_nil Hws). reflexivity.
  - change (repeat BACKTICK (S n) ++ ws)
      with (BACKTICK :: repeat BACKTICK n ++ ws).
    rewrite (lstrip_by_head isspace); [|reflexivity].
    change (BACKTICK :: repeat BACKTICK n ++ ws)
      with (repeat BACKTICK (S n) ++ ws).
    rewrite (lstrip_by_all _ (ticks_all (S n))).
    rewrite (lstrip_by_none (spaces_no_tick Hws)).
    apply lstrip_by_all_nil, Hws.
Qed.

Lemma fence_right m ws :
  all isspace ws ->
  rstrip_by isspace
    (rstrip_by (one_of (lit "```")) (rstrip_by isspace (ws ++ repeat BACKTICK m)))
  = [].
Proof.
  intros Hws. destruct m as [|m].
  - simpl. rewrite app_nil_r, (rstrip_by_all Hws). reflexivity.
  - change (repeat BACKTICK (S m)) with (BACKTICK :: repeat BACKTICK m).
    rewrite repeat_cons, app_assoc.
    rewrite (rstrip_by_keep isspace); [|reflexivity].
    rewrite <- app_assoc, <- repeat_cons.
    change (BACKTICK :: repeat BACKTICK m) with (repeat BACKTICK (S m)).
    rewrite (rstrip_by_app_all _ (ticks_all (S m))).
    rewrite (rstrip_by_none (spaces_no_tick Hws)).
    apply rstrip_by_all, Hws.
Qed.

(** X11.  [clean_sql] takes a fence of backticks off: a statement that
    is trimmed and neither starts nor ends with a backtick comes back as
    it is, whether it arrives bare, padded with whitespace, or between
    runs of backticks of any length. *)
Theorem clean_sql_unwraps (n m : nat) (ws1 ws2 y : str) (c : ascii) :
  all isspace ws1 -> all isspace ws2 ->
  match y ++ [c] with
  | h :: _ => isspace h = false /\ h <> BACKTICK
  | [] => False
  end ->
  isspace c = false -> c <> BACKTICK ->
  clean_sql (repeat BACKTICK n ++ ws1 ++ (y ++ [c]) ++ ws2 ++ repeat BACKTICK m)
  = y ++ [c].
Proof.
  intros H1 H2 Hh Hc1 Hc2. unfold clean_sql, strip, strip_chars.
  assert (Hct : one_of (lit "```") c = false)
    by (rewrite tick_class; apply Ascii.eqb_neq, Hc2).
  assert (Hhs : match y ++ [c] with h :: _ => isspace h = false | [] => False end)
    by (destruct (y ++ [c]); tauto).
  assert (Hht : match y ++ [c] with
                | h :: _ => one_of (lit "```") h = false | [] => False end).
  { destruct (y ++ [c]) as [|h t]; [tauto|]. rewrite tick_class.
    apply Ascii.eqb_neq. tauto. }
  replace (repeat BACKTICK n ++ ws1 ++ (y ++ [c]) ++ ws2 ++ repeat BACKTICK m)
    with ((repeat BACKTICK n ++ ws1) ++ (y ++ [c]) ++ (ws2 ++ repeat BACKTICK m))
    by (rewrite <- !app_assoc; reflexivity).
  rewrite (@strip_by_around isspace _ y c _ Hhs Hc1).
  rewrite (@strip_by_around (one_of (lit "```")) _ y c _ Hht Hct).
  rewrite (@strip_by_around isspace _ y c _ Hhs Hc1).
  rewrite (fence_left n H1), (fence_right m H2), app_nil_r. reflexivity.
Qed.

Lemma clean_sql_unwraps_witness :
  clean_sql (repeat BACKTICK 3 ++ (lit " ") ++ (lit "SELECT " ++ ["1"%char])
             ++ (lit "  ") ++ repeat BACKTICK 3)
  = lit "SELECT " ++ ["1"%char].
Proof.
  apply (@clean_sql_unwraps 3 3 (lit " ") (lit "  ") (lit "SELECT ") "1"%char).
  - repeat constructor.
  - repeat constructor.
  - split; [reflexivity | discriminate].
  - reflexivity.
  - discriminate.
Defined.

(** X12.  A reply that opens with a fence carrying the language tag
    [sql] keeps the tag after [clean_sql], and [sanitize_sql] rejects it
    with [NotSelect], whatever follows the tag. *)
Theorem tagged_fence_rejected (MAX_ROWS : Z) (ALLOWED_SCHEMAS : list str)
    (rest : str) :
  (exists r, clean_sql (lit "```sql" ++ rest) = lit "sql" ++ r) /\
  sanitize_sql MAX_ROWS ALLOWED_SCHEMAS (clean_sql (lit "```sql" ++ rest))
  = Raise NotSelect.
Proof.
  assert (E : exists r, clean_sql (lit "```sql" ++ rest) = lit "sql" ++ r).
  { unfold clean_sql, strip, strip_chars, strip_by. simpl lstrip_by at 3.
    change (lit "```sql" ++ rest)
      with ("`"%char :: "`"%char :: "`"%char :: "s"%char :: "q"%char
            :: "l"%char :: rest).
    rewrite !(rstrip_by_cons isspace) by reflexivity.
    simpl lstrip_by at 2.
    rewrite !(rstrip_by_cons (one_of (lit "```"))) by reflexivity.
    simpl lstrip_by.
    rewrite !(rstrip_by_cons isspace) by reflexivity.
    eexists. reflexivity. }
  split; [exact E|]. destruct E as [r ->].
  rewrite sanitize_sql_steps, matches_select.
  unfold strip, strip_by. simpl lstrip_by at 2.
  change (lit "sql" ++ r) with ("s"%char :: "q"%char :: "l"%char :: r).
  rewrite !(rstrip_by_cons isspace) by reflexivity.
  reflexivity.
Qed.

(* ===================================================================== *)
(** ** The preview sent for the summary *)
(* ===================================================================== *)

Lemma firstn_min_length (T : Type) n (l : list T) :
  firstn (Nat.min n (List.length l)) l = firstn n l.
Proof.
  revert n. induction l as [|x l IH]; intros [|n]; simpl; try reflexivity.
  rewrite IH. reflexivity.
Qed.

Lemma contains_char_join ch sep xs :
  Ascii.eqb ch sep = false ->
  (forall x, In x xs -> contains_char ch x = false) ->
  contains_char ch (join [sep] xs) = false.
Proof.
  intros Hsep. induction xs as [|x xs IH]; intros H; [reflexivity|].
  destruct xs as [|y xs].
  - apply H. left. reflexivity.
  - change (join [sep] (x :: y :: xs)) with (x ++ sep :: join [sep] (y :: xs)).
    rewrite contains_char_app. apply orb_false_iff. split.
    + apply H. left. reflexivity.
    + simpl. rewrite Hsep. apply IH. intros z Hz. apply H. right. exact Hz.
Qed.

(** X13.  The preview can be read back: when no header and no cell holds
    a tab or a newline, and the header and every row have at least one
    column, splitting the preview at newlines and then at tabs gives the
    headers followed by the first 30 rows at most, a missing cell read
    as the empty text. *)
Theorem preview_reads_back (headers : list str) (rows : list Runner.Row) :
  headers <> [] ->
  (forall h, In h headers ->
     contains_char TAB h = false /\ contains_char NEWLINE h = false) ->
  (forall r, In r rows ->
     r <> [] /\
     forall v, In v r ->
       contains_char TAB (cell_text v) = false /\
       contains_char NEWLINE (cell_text v) = false) ->
  map (split_on TAB) (split_on NEWLINE (preview_tsv headers rows))
  = headers :: map (map cell_text) (firstn 30 rows).
Proof.
  intros Hne Hh Hr. unfold preview_tsv, preview_lines, max_preview.
  rewrite firstn_min_length.
  assert (Hrows : forall r, In r (firstn 30 rows) -> In r rows).
  { intros r Hi. rewrite <- (firstn_skipn 30 rows).
    apply in_or_app. left. exact Hi. }
  rewrite split_join.
  - cbn [map]. rewrite split_join; [|exact Hne | intros h Hi; apply Hh, Hi].
    f_equal. rewrite map_map. apply map_ext_in. intros r Hi.
    destruct (Hr r (Hrows r Hi)) as [Hrne Hc].
    apply split_join.
    + intros E. apply map_eq_nil in E. contradiction.
    + intros x Hx. apply in_map_iff in Hx. destruct Hx as [v [<- Hv]].
      apply Hc, Hv.
  - discriminate.
  - intros x [<- | Hx].
    + apply contains_char_join; [reflexivity|]. intros h Hi. apply Hh, Hi.
    + apply in_map_iff in Hx. destruct Hx as [r [<- Hi]].
      apply contains_char_join; [reflexivity|].
      intros x Hx. apply in_map_iff in Hx. destruct Hx as [v [<- Hv]].
      apply (Hr r (Hrows r Hi)), Hv.
Qed.

Lemma preview_reads_back_witness :
  map (split_on TAB)
    (split_on NEWLINE
       (preview_tsv [lit "zone"; lit "trips"]
          [[Some (lit "JFK"); Some (lit "12")]; [None; Some (lit "3")]]))
  = [lit "zone"; lit "trips"]
      :: map (map cell_text)
           (firstn 30 [[Some (lit "JFK"); Some (lit "12")];
                       [None; Some (lit "3")]]).
Proof.
  apply (@preview_reads_back [lit "zone"; lit "trips"]
           [[Some (lit "JFK"); Some (lit "12")]; [None; Some (lit "3")]]).
  - discriminate.
  - intros h [<- | [<- | []]]; split; reflexivity.
  - intros r [<- | [<- | []]]; (split; [discriminate|]);
      intros v [<- | [<- | []]]; split; reflexivity.
Defined.

(* ===================================================================== *)
(** ** Every run of the invoker *)
(* ===================================================================== *)

Section RetryRuns.

Import Invoker.

Variables response exn : Type.
Variable invoke_model : nat -> outcome response exn.
Variable uniform : nat -> Q.
Variable max_attempts : Z.

(** A run of the loop is a number [k] of retried attempts followed by one
    that is not retried. *)
Lemma retry_loop_run fuel : forall attempt w o w',
  retry_loop invoke_model uniform max_attempts fuel attempt w = Some (o, w') ->
  exists k,
    calls w' = calls w + S k /\
    samples w' = samples w + k /\
    slept w' = slept w
               ++ map (fun i => backoff (attempt + i) (uniform (samples w + i)))
                    (seq 0 k) /\
    o = invoke_model (calls w + k) /\
    (forall i, i < k ->
       retried max_attempts (attempt + i) (invoke_model (calls w + i)) = true) /\
    retried max_attempts (attempt + k) o = false.
Proof.
  induction fuel as [|fuel IH]; intros attempt w o w' H; [discriminate|].
  rewrite retry_loop_step in H.
  destruct (retried max_attempts attempt (invoke_model (calls w))) eqn:E.
  - apply IH in H. destruct H as [k [Hc [Hs [Hsl [Ho [Hr Hl]]]]]].
    exists (S k). simpl in Hc, Hs, Hsl.
    repeat split.
    + lia.
    + lia.
    + rewrite Hsl, <- app_assoc. f_equal. simpl. rewrite !Nat.add_0_r. f_equal.
      rewrite <- seq_shift, map_map. apply map_ext. intros i.
      f_equal; [lia | f_equal; lia].
    + rewrite Ho. f_equal. simpl. lia.
    + intros [|i] Hi.
      * rewrite !Nat.add_0_r. exact E.
      * rewrite !Nat.add_succ_r. apply (Hr i). lia.
    + rewrite Nat.add_succ_r. exact Hl.
  - injection H as <- <-. exists 0. simpl. rewrite !Nat.add_0_r, app_nil_r.
    repeat split; auto; try lia.
Qed.

End RetryRuns.

(** X14.  Whatever the service does, [invoke_bedrock_with_retry] ends:
    with one sleep and one jitter sample between consecutive calls, after
    at most [max(1, max_attempts)] calls, with the outcome of its last
    call, every earlier call having raised a throttling error; and when
    the outcome is itself a throttling error, [max_attempts] calls were
    made. *)
Theorem invoker_runs (response exn : Type)
    (invoke_model : nat -> Invoker.outcome response exn)
    (uniform : nat -> Q) (max_attempts : Z) :
  exists o w,
    Invoker.invoke_bedrock_with_retry invoke_model uniform max_attempts
    = Some (o, w) /\
    Invoker.calls w = S (List.length (Invoker.slept w)) /\
    Invoker.samples w = List.length (Invoker.slept w) /\
    (Z.of_nat (Invoker.calls w) <= Z.max 1 max_attempts)%Z /\
    o = invoke_model (Invoker.calls w - 1) /\
    (forall i, i < Invoker.calls w - 1 ->
       exists code, invoke_model i = Invoker.ClientError _ _ code /\
                    Invoker.throttled code = true) /\
    (forall code, o = Invoker.ClientError _ _ code ->
       Invoker.throttled code = true ->
       (max_attempts <= Z.of_nat (Invoker.calls w))%Z).
Proof.
  destruct (invoke_bedrock_with_retry_total invoke_model uniform max_attempts)
    as [[o w] E].
  exists o, w. split; [exact E|].
  apply retry_loop_run in E. destruct E as [k [Hc [Hs [Hsl [Ho [Hr Hl]]]]]].
  simpl in Hc, Hs, Hsl, Ho, Hr, Hl.
  assert (Hlen : List.length (Invoker.slept w) = k)
    by (rewrite Hsl, length_map, length_seq; reflexivity).
  assert (Hthr : forall i, i < k ->
    exists code, invoke_model i = Invoker.ClientError _ _ code /\
      Invoker.throttled code = true /\ (Z.of_nat i < max_attempts - 1)%Z).
  { intros i Hi. specialize (Hr i Hi). unfold retried in Hr.
    destruct (invoke_model i) as [r | code | e]; try discriminate.
    apply andb_true_iff in Hr. destruct Hr as [Ht Hb].
    exists code. repeat split; auto. apply Z.ltb_lt, Hb. }
  rewrite Hlen, Hc. replace (S k - 1) with k by lia.
  repeat split; auto.
  - destruct k as [|k]; [lia|].
    destruct (Hthr k (Nat.lt_succ_diag_r k)) as [_ [_ [_ Hb]]]. lia.
  - intros i Hi. destruct (Hthr i Hi) as [code [E [Ht _]]]. eauto.
  - intros code Eo Ht. rewrite Eo in Hl. simpl in Hl. rewrite Ht in Hl.
    simpl in Hl. apply Z.ltb_ge in Hl. lia.
Qed.

Lemma backoff_bounds i u :
  (0 <= u <= 3 # 10)%Q ->
  (1 # 2 <= Invoker.backoff i u <= 83 # 10)%Q.
Proof.
  intros [H0 H1]. unfold Invoker.backoff.
  assert (Hpow : (1 <= 2 ^ Z.of_nat i)%Z).
  { change 1%Z with (2 ^ 0)%Z. apply Z.pow_le_mono_r; lia. }
  assert (Hlo : (1 # 2 <= Qmin 8 (inject_Z (2 ^ Z.of_nat i) * (1 # 2)))%Q).
  { apply Q.min_glb; [discriminate|].
    unfold Qle. simpl. lia. }
  assert (Hhi : (Qmin 8 (inject_Z (2 ^ Z.of_nat i) * (1 # 2)) <= 8)%Q)
    by apply Q.le_min_l.
  split.
  - rewrite <- (Qplus_0_r (1 # 2)). apply Qplus_le_compat; assumption.
  - setoid_replace (83 # 10)%Q with (8 + (3 # 10))%Q by reflexivity.
    apply Qplus_le_compat; assumption.
Qed.

(** X15.  When every jitter sample lies between 0 and 0.3, every sleep
    of the invoker lasts between 0.5 and 8.3 seconds, and the sleeps
    number at most [max_attempts - 1]. *)
Theorem invoker_sleeps_bounded (response exn : Type)
    (invoke_model : nat -> Invoker.outcome response exn)
    (uniform : nat -> Q) (max_attempts : Z) o w :
  (forall k, 0 <= uniform k <= 3 # 10)%Q ->
  Invoker.invoke_bedrock_with_retry invoke_model uniform max_attempts
  = Some (o, w) ->
  Forall (fun d => 1 # 2 <= d <= 83 # 10)%Q (Invoker.slept w) /\
  List.length (Invoker.slept w) <= Z.to_nat (max_attempts - 1).
Proof.
  intros Hu E. apply retry_loop_run in E.
  destruct E as [k [_ [_ [Hsl [_ [Hr _]]]]]]. simpl in Hsl, Hr.
  rewrite Hsl. split.
  - apply Forall_forall. intros d Hd. apply in_map_iff in Hd.
    destruct Hd as [i [<- _]]. apply backoff_bounds, Hu.
  - rewrite length_map, length_seq. destruct k as [|k]; [lia|].
    specialize (Hr k (Nat.lt_succ_diag_r k)). apply retried_bound in Hr. lia.
Qed.

Lemma invoker_sleeps_bounded_witness :
  Forall (fun d => 1 # 2 <= d <= 83 # 10)%Q
    (Invoker.slept (trace_after steady_jitter 3)) /\
  List.length (Invoker.slept (trace_after steady_jitter 3)) <= Z.to_nat (6 - 1).
Proof.
  apply (@invoker_sleeps_bounded nat unit (throttled_then 2 7) steady_jitter 6
           (Invoker.Returns unit 7) (trace_after steady_jitter 3)).
  - intros k. split; discriminate.
  - reflexivity.
Defined.

(** X16.  The backoff grows and then stays: for a given jitter, the sleep
    of an attempt is at most that of the next one, and from the fifth
    attempt on it is 8 seconds plus the jitter. *)
Theorem backoff_schedule (i : nat) (u : Q) :
  (Invoker.backoff i u <= Invoker.backoff (S i) u)%Q /\
  (4 <= i -> (Invoker.backoff i u == 8 + u)%Q).
Proof.
  unfold Invoker.backoff. split.
  - apply Qplus_le_compat; [|apply Qle_refl].
    apply Q.min_le_compat_l.
    apply Qmult_le_compat_r; [|discriminate].
    rewrite <- Zle_Qle. apply Z.pow_le_mono_r; lia.
  - intros Hi. apply Qplus_comp; [|reflexivity].
    apply Q.min_l.
    assert (Hpow : (2 ^ 4 <= 2 ^ Z.of_nat i)%Z)
      by (apply Z.pow_le_mono_r; lia).
    unfold Qle. simpl. change (2 ^ 4)%Z with 16%Z in Hpow. lia.
Qed.

Lemma backoff_schedule_witness :
  (Invoker.backoff 5 (1 # 10) == 8 + (1 # 10))%Q.
Proof.
  apply (proj2 (backoff_schedule 5 (1 # 10))). lia.
Defined.

(* ===================================================================== *)
(** ** Every run of the query runner *)
(* ===================================================================== *)

Section RunnerRuns.

Import Runner.

Variable MAX_ROWS : Z.

(** A later page is taken whole, or up to the row that reaches the cap. *)
Lemma append_rows_taken page_rows : forall rows,
  exists j, j <= List.length page_rows /\
    append_rows MAX_ROWS rows page_rows = rows ++ firstn j page_rows /\
    (j = List.length page_rows \/
     (len (append_rows MAX_ROWS rows page_rows) <? MAX_ROWS)%Z = false).
Proof.
  induction page_rows as [|r rest IH]; intros rows.
  - exists 0. simpl. rewrite app_nil_r. auto.
  - simpl. destruct (len (rows ++ [r]) >=? MAX_ROWS)%Z eqn:E.
    + exists 1. simpl. repeat split; [lia|]. right.
      rewrite Z.geb_leb in E. apply Z.leb_le in E. apply Z.ltb_ge. exact E.
    + destruct (IH (rows ++ [r])) as [j [Hj [Ej Hc]]].
      exists (S j). split; [lia|]. split.
      * rewrite Ej, <- app_assoc. reflexivity.
      * destruct Hc as [-> | Hc]; [left; reflexivity | right; exact Hc].
Qed.

Lemma fetch_more_full pages next_token rows :
  (len rows <? MAX_ROWS)%Z = false ->
  fetch_more MAX_ROWS pages next_token rows = Some rows.
Proof.
  intros H. destruct pages; simpl; rewrite H, andb_false_r; reflexivity.
Qed.

(** The rows fetched are the rows held so far followed by a prefix of the
    rows of the later pages, in the engine's order. *)
Lemma fetch_more_prefix pages : forall next_token rows out,
  fetch_more MAX_ROWS pages next_token rows = Some out ->
  exists k, out = rows ++ firstn k (List.concat (map Rows pages)).
Proof.
  induction pages as [|res pages IH]; intros next_token rows out; simpl.
  - destruct (truthy next_token && (len rows <? MAX_ROWS)%Z); [discriminate|].
    intros H. injection H as <-. exists 0. symmetry. apply app_nil_r.
  - destruct (truthy next_token && (len rows <? MAX_ROWS)%Z).
    + destruct (append_rows_taken (Rows res) rows) as [j [Hj [Ej Hc]]].
      destruct Hc as [-> | Hc].
      * rewrite firstn_all in Ej. intros H. apply IH in H.
        destruct H as [k ->]. exists (List.length (Rows res) + k).
        rewrite Ej, <- app_assoc, firstn_app_2. reflexivity.
      * rewrite (fetch_more_full _ _ _ Hc). intros H. injection H as <-.
        exists j. rewrite Ej. f_equal. rewrite firstn_app.
        replace (j - List.length (Rows res)) with 0 by lia.
        simpl. symmetry. apply app_nil_r.
    + intros H. injection H as <-. exists 0. symmetry. apply app_nil_r.
Qed.

Lemma wait_first pre s post :
  Forall (fun x => terminal x = false) pre -> terminal s = true ->
  wait (pre ++ s :: post) = Some s.
Proof.
  intros Hpre Hs. induction Hpre as [|x pre Hx _ IH]; simpl.
  - rewrite Hs. reflexivity.
  - rewrite Hx. exact IH.
Qed.

Lemma wait_pending pre :
  Forall (fun x => terminal x = false) pre -> wait pre = None.
Proof.
  induction 1 as [|x pre Hx _ IH]; simpl; [reflexivity|].
  rewrite Hx. exact IH.
Qed.

End RunnerRuns.

(** X17.  A result of [run_athena] has the names of the first row of the
    first page as its headers, begins with the other rows of that page,
    and holds at most [MAX_ROWS] rows or as many as that page gave,
    whichever is larger. *)
Theorem runner_result_bound (MAX_ROWS : Z) (polls : list Runner.State)
    (res : Runner.page) (pages : list Runner.page)
    (headers : list str) (rows : list Runner.Row) :
  Runner.run_athena MAX_ROWS polls (res :: pages)
  = Some (Runner.ResultSet headers rows) ->
  Runner.header_names (hd [] (Runner.Rows res)) = Some headers /\
  (exists more, rows = tl (Runner.Rows res) ++ more) /\
  (Runner.len rows <= Z.max MAX_ROWS (Runner.len (tl (Runner.Rows res))))%Z.
Proof.
  unfold Runner.run_athena.
  destruct (Runner.wait polls) as [[] |]; try discriminate.
  apply fetch_results_bound.
Qed.

Lemma runner_result_bound_witness :
  Runner.header_names (hd [] (Runner.Rows (one_column_page 101)))
  = Some [lit "n"] /\
  (exists more,
     repeat [Some (lit "1")] 101
     = tl (Runner.Rows (one_column_page 101)) ++ more) /\
  (Runner.len (repeat [Some (lit "1")] 101)
   <= Z.max 100 (Runner.len (tl (Runner.Rows (one_column_page 101)))))%Z.
Proof.
  apply (@runner_result_bound 100 [Runner.SUCCEEDED] (one_column_page 101) []
           [lit "n"] (repeat [Some (lit "1")] 101)).
  vm_compute. reflexivity.
Defined.

(** X18.  The rows that [run_athena] returns are a prefix of the rows
    the engine holds, in the engine's order: the rows after the header of
    the first page, then those of the later pages.  No row is skipped or
    reordered. *)
Theorem runner_rows_in_order (MAX_ROWS : Z) (polls : list Runner.State)
    (res : Runner.page) (pages : list Runner.page)
    (headers : list str) (rows : list Runner.Row) :
  Runner.run_athena MAX_ROWS polls (res :: pages)
  = Some (Runner.ResultSet headers rows) ->
  exists k,
    rows = firstn k (tl (Runner.Rows res) ++ List.concat (map Runner.Rows pages)).
Proof.
  unfold Runner.run_athena.
  destruct (Runner.wait polls) as [[] |]; try discriminate.
  unfold Runner.fetch_results.
  destruct (Runner.Rows res) as [|r0 data]; [discriminate|].
  destruct (Runner.header_names r0); [|discriminate].
  destruct (Runner.fetch_more MAX_ROWS pages (Runner.NextToken res) data)
    as [out|] eqn:E; [|discriminate].
  intros H. injection H as _ <-. apply fetch_more_prefix in E.
  destruct E as [k ->]. exists (List.length data + k).
  simpl. rewrite firstn_app_2. reflexivity.
Qed.

Lemma runner_rows_in_order_witness :
  exists k,
    repeat [Some (lit "1")] 101
    = firstn k (tl (Runner.Rows (one_column_page 101))
                ++ List.concat (map Runner.Rows [])).
Proof.
  apply (@runner_rows_in_order 100 [Runner.SUCCEEDED] (one_column_page 101) []
           [lit "n"] (repeat [Some (lit "1")] 101)).
  vm_compute. reflexivity.
Defined.

(** X19.  Polling stops at the first terminal state: replies after it
    are not read; FAILED and CANCELLED end in a [RuntimeError] carrying
    the state, no page being fetched; and as long as the engine reports
    no terminal state, [run_athena] does not return. *)
Theorem runner_polling (MAX_ROWS : Z) (pre post : list Runner.State)
    (s : Runner.State) (pages : list Runner.page) :
  Forall (fun x => Runner.terminal x = false) pre ->
  Runner.terminal s = true ->
  Runner.run_athena MAX_ROWS (pre ++ s :: post) pages
  = Runner.run_athena MAX_ROWS [s] pages /\
  (s <> Runner.SUCCEEDED ->
   Runner.run_athena MAX_ROWS (pre ++ s :: post) pages
   = Some (Runner.RuntimeError s)) /\
  Runner.run_athena MAX_ROWS pre pages = None.
Proof.
  intros Hpre Hs. unfold Runner.run_athena.
  rewrite (@wait_first pre s post Hpre Hs), (@wait_pending pre Hpre).
  simpl. rewrite Hs. repeat split.
  intros Hne. destruct s; try discriminate; try reflexivity. congruence.
Qed.

Lemma runner_polling_witness :
  Runner.run_athena 100
    ([Runner.QUEUED; Runner.RUNNING] ++ Runner.FAILED :: [Runner.SUCCEEDED])
    [one_column_page 1]
  = Some (Runner.RuntimeError Runner.FAILED).
Proof.
  apply (@runner_polling 100 [Runner.QUEUED; Runner.RUNNING]
           [Runner.SUCCEEDED] Runner.FAILED [one_column_page 1]).
  - repeat constructor.
  - reflexivity.
  - discriminate.
Defined.

Example demo_run_succeeds :
  Demo.run Demo.candidate (Demo.event (JStr Demo.question))
  = Some (Demo.answer, Demo.done).
Proof. vm_compute. reflexivity. Qed.

(* ===================================================================== *)
(** ** Every run of the handler *)
(* ===================================================================== *)

Section ReplyFacts.

Variable exn : Type.

Lemma reply_text_error (out : json) (e : error exn) :
  reply_text out = inl e -> e = TypeError \/ e = AttributeError.
Proof.
  assert (Hsel : forall blocks e', selected (exn := exn) blocks = inl e' ->
                                   e' = AttributeError).
  { induction blocks as [|b blocks IH]; intros e' H; [discriminate|].
    simpl in H. destruct b; try (injection H as <-; reflexivity).
    destruct (is_text _).
    - destruct (selected blocks); [|discriminate].
      injection H as <-. apply IH. reflexivity.
    - apply IH, H. }
  assert (Hjoin : forall items e', join_items (exn := exn) items = inl e' ->
                                   e' = TypeError).
  { induction items as [|b items IH]; intros e' H; [discriminate|].
    simpl in H. destruct b; try (injection H as <-; reflexivity).
    destruct (join_items items); [|discriminate].
    injection H as <-. apply IH. reflexivity. }
  unfold reply_text. destruct out; try (intros H; injection H as <-; auto).
  destruct (iterate _) as [e1 | blocks] eqn:Ei.
  - intros H. injection H as <-. left.
    unfold iterate in Ei. destruct (get_default _ _ _); congruence.
  - destruct (selected blocks) as [e1 | items] eqn:Es.
    + intros H. injection H as <-. right. apply (Hsel _ _ Es).
    + destruct (join_items items) as [e1 | t] eqn:Ej; [|discriminate].
      intros H. injection H as <-. left. apply (Hjoin _ _ Ej).
Qed.

Lemma reply_text_stripped (out : json) (t : str) :
  reply_text (exn := exn) out = inr t -> strip t = t.
Proof.
  unfold reply_text. destruct out; try discriminate.
  destruct (iterate _); [discriminate|].
  destruct (selected _); [discriminate|].
  destruct (join_items _); [discriminate|].
  intros H. injection H as <-. apply strip_idem.
Qed.

End ReplyFacts.

Section HandlerRuns.

Variable exn : Type.
Variable json_loads : str -> option json.
Variable bedrock : nat -> payload -> Invoker.outcome json exn.
Variable uniform : nat -> Q.
Variable athena : str -> list Runner.State * list Runner.page.
Variable MAX_ROWS : Z.
Variable ALLOWED_SCHEMAS : list str.

(** One use of the invoker by the handler: between one and six calls,
    a sleep between consecutive calls, the outcome that of the last. *)
Lemma invoke_run calls0 samples0 p o w :
  invoke bedrock uniform calls0 samples0 p = Some (o, w) ->
  Invoker.calls w = S (List.length (Invoker.slept w)) /\
  Invoker.samples w = List.length (Invoker.slept w) /\
  List.length (Invoker.slept w) <= 5 /\
  o = bedrock (calls0 + List.length (Invoker.slept w)) p /\
  Invoker.slept w
  = map (fun i => Invoker.backoff i (uniform (samples0 + i)))
      (seq 0 (List.length (Invoker.slept w))).
Proof.
  unfold invoke, Invoker.invoke_bedrock_with_retry. intros E.
  apply retry_loop_run in E. destruct E as [k [Hc [Hs [Hsl [Ho [Hr _]]]]]].
  simpl in Hc, Hs, Hsl, Ho, Hr.
  assert (Hlen : List.length (Invoker.slept w) = k)
    by (rewrite Hsl, length_map, length_seq; reflexivity).
  rewrite Hlen. repeat split; auto.
  destruct k as [|k]; [lia|].
  specialize (Hr k (Nat.lt_succ_diag_r k)). apply retried_bound in Hr.
  unfold Invoker.DEFAULT_MAX_ATTEMPTS in Hr. lia.
Qed.

Lemma invoke_returns calls0 samples0 p :
  exists o w, invoke bedrock uniform calls0 samples0 p = Some (o, w).
Proof.
  destruct (invoke_bedrock_with_retry_total
              (fun i => bedrock (calls0 + i) p)
              (fun i => uniform (samples0 + i))
              Invoker.DEFAULT_MAX_ATTEMPTS) as [[o w] E].
  exists o, w. exact E.
Qed.

(** The ways [summarize_and_return] ends. *)
Lemma summarize_and_return_inv q sql headers rows fx0 samples0 r fx :
  summarize_and_return bedrock uniform q sql headers rows fx0 samples0
  = Some (r, fx) ->
  exists o w,
    invoke bedrock uniform (bedrock_calls fx0) samples0
      (SummaryRequest q (max_preview rows) (preview_tsv headers rows))
    = Some (o, w) /\
    fx = after_invoke fx0 w /\
    ((exists e, narrative_of o = inl e /\ r = Status500 e) \/
     (exists narrative,
        narrative_of o = inr narrative /\
        r = Status200 q sql headers rows (List.length rows) narrative)).
Proof.
  unfold summarize_and_return.
  destruct (invoke _ _ _ _ _) as [[o w]|] eqn:E; [|discriminate].
  intros H. exists o, w. split; [reflexivity|].
  destruct (narrative_of o) as [e | narrative] eqn:En;
    injection H as <- <-; split; eauto.
Qed.

(** The ways [validate_and_run] ends. *)
Lemma validate_and_run_inv q candidate fx0 samples0 r fx :
  validate_and_run bedrock uniform athena MAX_ROWS ALLOWED_SCHEMAS
    q candidate fx0 samples0 = Some (r, fx) ->
  (exists e,
     sanitize_sql MAX_ROWS ALLOWED_SCHEMAS candidate = Raise e /\
     r = Status500 (ValueError e) /\ fx = fx0) \/
  (exists sql,
     sanitize_sql MAX_ROWS ALLOWED_SCHEMAS candidate = Ok sql /\
     ((exists e,
         r = Status500 e /\ fx = after_query fx0 sql /\
         (forall v, e <> ValueError v) /\
         forall headers rows,
           Runner.run_athena MAX_ROWS (fst (athena sql)) (snd (athena sql))
           <> Some (Runner.ResultSet headers rows)) \/
      (exists headers rows,
         Runner.run_athena MAX_ROWS (fst (athena sql)) (snd (athena sql))
         = Some (Runner.ResultSet headers rows) /\
         summarize_and_return bedrock uniform q sql headers rows
           (after_query fx0 sql) samples0 = Some (r, fx)))).
Proof.
  unfold validate_and_run.
  destruct (sanitize_sql MAX_ROWS ALLOWED_SCHEMAS candidate) as [sql | e] eqn:Es.
  - intros H. right. exists sql. split; [reflexivity|].
    destruct (Runner.run_athena _ _ _) as [[headers rows | state | |]|] eqn:Er;
      try discriminate.
    + right. exists headers, rows. auto.
    + left. injection H as <- <-. eexists. repeat split; discriminate.
    + left. injection H as <- <-. eexists. repeat split; discriminate.
    + left. injection H as <- <-. eexists. repeat split; discriminate.
  - intros H. injection H as <- <-. left. exists e. auto.
Qed.

(** The ways the handler ends before the validator is reached, and its
    hand-over to the rest. *)
Lemma lambda_handler_inv event r fx :
  lambda_handler json_loads bedrock uniform athena MAX_ROWS ALLOWED_SCHEMAS
    event = Some (r, fx) ->
  (fx = no_effects /\
   ((exists e, parse_question exn json_loads event = inl e /\ r = Status500 e) \/
    (exists v, parse_question exn json_loads event = inr v /\
               truthy v = false /\ r = Status400) \/
    (exists v, parse_question exn json_loads event = inr v /\
               truthy v = true /\ (forall q, v <> JStr q) /\
               r = Status500 TypeError))) \/
  (exists q o w,
     parse_question exn json_loads event = inr (JStr q) /\
     q <> [] /\
     invoke bedrock uniform 0 0 (SqlRequest q) = Some (o, w) /\
     ((exists e, generated_sql o = inl e /\ r = Status500 e /\
                 fx = after_invoke no_effects w) \/
      (exists candidate,
         generated_sql o = inr candidate /\
         validate_and_run bedrock uniform athena MAX_ROWS ALLOWED_SCHEMAS
           q candidate (after_invoke no_effects w) (Invoker.samples w)
         = Some (r, fx)))).
Proof.
  unfold lambda_handler.
  destruct (parse_question exn json_loads event) as [e | v] eqn:Ep.
  - intros H. injection H as <- <-. left. split; eauto.
  - destruct (truthy v) eqn:Ev; simpl.
    + destruct v as [| b | n | q | l | d];
        try (intros H; injection H as <- <-; left; split; auto;
             right; right; eexists; repeat split; eauto; discriminate).
      destruct (invoke _ _ _ _ _) as [[o w]|] eqn:Ei; [|discriminate].
      intros H. right. exists q, o, w. repeat split; auto.
      * intros ->. discriminate.
      * destruct (generated_sql o) as [e | candidate] eqn:Eg.
        -- injection H as <- <-. left. eauto.
        -- right. eauto.
    + intros H. injection H as <- <-. left. split; [reflexivity|].
      right. left. exists v. auto.
Qed.

(** A [ValueError] comes from the validator only. *)
Lemma parse_question_error event e :
  parse_question exn json_loads event = inl e ->
  forall v, e <> ValueError v.
Proof.
  unfold parse_question.
  destruct (truthy (get event (lit "isBase64Encoded")));
    [intros H; injection H as <-; discriminate|].
  cbv zeta.
  destruct (get event (lit "body")) as [| b | n | t | l | d];
    [| | | destruct (json_loads t) as [[| b | n | t' | l | d]|] | |];
    intros H; try discriminate H; injection H as <-; discriminate.
Qed.

Lemma returned_error (o : Invoker.outcome json exn) e :
  returned o = inl e -> forall v, e <> ValueError v.
Proof.
  destruct o; simpl; intros H; try discriminate;
    injection H as <-; discriminate.
Qed.

Lemma generated_sql_error (o : Invoker.outcome json exn) e :
  generated_sql o = inl e -> forall v, e <> ValueError v.
Proof.
  unfold generated_sql. destruct (returned o) as [e1 | out] eqn:Er.
  - intros H. injection H as <-. apply (returned_error _ Er).
  - destruct (reply_text out) as [e1 | t] eqn:Et; [|discriminate].
    intros H. injection H as <-.
    destruct (reply_text_error _ Et) as [-> | ->]; discriminate.
Qed.

Lemma narrative_of_error (o : Invoker.outcome json exn) e :
  narrative_of o = inl e -> forall v, e <> ValueError v.
Proof.
  unfold narrative_of. destruct (returned o) as [e1 | out] eqn:Er.
  - intros H. injection H as <-. apply (returned_error _ Er).
  - intros Et. destruct (reply_text_error _ Et) as [-> | ->]; discriminate.
Qed.

End HandlerRuns.

(** X20.  The validator cannot be bypassed: a run of the handler submits
    at most one statement to the query engine, and a statement it submits
    is what [sanitize_sql] returned for the cleaned reply of the
    generator to the request made from the question; it begins with
    SELECT and has none of the banned keywords. *)
Theorem executed_statement_validated (exn : Type)
    (json_loads : str -> option json)
    (bedrock : nat -> payload -> Invoker.outcome json exn)
    (uniform : nat -> Q)
    (athena : str -> list Runner.State * list Runner.page)
    (MAX_ROWS : Z) (ALLOWED_SCHEMAS : list str)
    (event : dict) (r : response exn) (fx : effects) :
  lambda_handler json_loads bedrock uniform athena MAX_ROWS ALLOWED_SCHEMAS
    event = Some (r, fx) ->
  List.length (athena_queries fx) <= 1 /\
  forall sql, In sql (athena_queries fx) ->
    (exists q k candidate,
       parse_question exn json_loads event = inr (JStr q) /\
       generated_sql (bedrock k (SqlRequest q)) = inr candidate /\
       sanitize_sql MAX_ROWS ALLOWED_SCHEMAS candidate = Ok sql) /\
    begins_with_select sql /\
    forall w, In w banned_set -> ~ contains_word w sql.
Proof.
  intros H. apply lambda_handler_inv in H.
  destruct H as [[-> _] | [q [o [w [Hq [_ [Hi [[e [_ [_ ->]]] | [c [Hg Hv]]]]]]]]]];
    try (split; [simpl; lia | intros sql []]).
  apply invoke_run in Hi. destruct Hi as [_ [_ [_ [Ho _]]]].
  apply validate_and_run_inv in Hv.
  destruct Hv as [[e [_ [_ ->]]] | [sql [Hs Hv]]];
    try (split; [simpl; lia | intros sql []]).
  assert (Hfx : athena_queries fx = [sql]).
  { destruct Hv as [[e [_ [-> _]]] | [hs [rows [_ Hv]]]]; [reflexivity|].
    apply summarize_and_return_inv in Hv.
    destruct Hv as [o2 [w2 [_ [-> _]]]]. reflexivity. }
  rewrite Hfx. split; [simpl; lia|].
  intros sql' [<- | []]. split; [|split].
  - exists q, (0 + List.length (Invoker.slept w)), c.
    rewrite <- Ho. auto.
  - apply sanitize_output_facts in Hs. destruct Hs as [_ [Hw _]].
    apply begins_with_select_iff.
    rewrite (@word_at_starts _ _ _ lit_ne_select lit_alpha_select Hw). exact Hw.
  - intros b Hb Hc. apply sanitize_ok_inv in Hs.
    destruct Hs as [_ [_ [_ [_ Hn]]]].
    assert (Hne : re_findall BANNED_RE sql <> [])
      by (apply banned_scan_iff; exists b; auto).
    congruence.
Qed.

Lemma executed_statement_validated_witness :
  List.length (athena_queries Demo.done) <= 1 /\
  forall sql, In sql (athena_queries Demo.done) ->
    (exists q k candidate,
       parse_question unit Demo.json_loads (Demo.event (JStr Demo.question))
       = inr (JStr q) /\
       generated_sql (Demo.bedrock Demo.candidate k (SqlRequest q))
       = inr candidate /\
       sanitize_sql 100 [lit "nyc_taxi"] candidate = Ok sql) /\
    begins_with_select sql /\
    forall w, In w banned_set -> ~ contains_word w sql.
Proof.
  apply (@executed_statement_validated unit Demo.json_loads
           (Demo.bedrock Demo.candidate) Demo.uniform (Demo.athena 2) 100
           [lit "nyc_taxi"] (Demo.event (JStr Demo.question))
           Demo.answer Demo.done).
  vm_compute. reflexivity.
Defined.

(** X21.  An answer with status 200 is consistent: its question is the
    one read from the request, its statement is the one that was
    submitted, and the only one; its columns and rows are what
    [run_athena] returned for that statement, its row count is the
    number of its rows, its narrative is trimmed, and the generator was
    called at least twice. *)
Theorem answer_is_consistent (exn : Type)
    (json_loads : str -> option json)
    (bedrock : nat -> payload -> Invoker.outcome json exn)
    (uniform : nat -> Q)
    (athena : str -> list Runner.State * list Runner.page)
    (MAX_ROWS : Z) (ALLOWED_SCHEMAS : list str)
    (event : dict) (fx : effects)
    (q sql : str) (columns : list str) (rows : list Runner.Row)
    (row_count : nat) (narrative : str) :
  lambda_handler json_loads bedrock uniform athena MAX_ROWS ALLOWED_SCHEMAS
    event
  = Some (Status200 (exn := exn) q sql columns rows row_count narrative, fx) ->
  parse_question exn json_loads event = inr (JStr q) /\
  athena_queries fx = [sql] /\
  Runner.run_athena MAX_ROWS (fst (athena sql)) (snd (athena sql))
  = Some (Runner.ResultSet columns rows) /\
  row_count = List.length rows /\
  strip narrative = narrative /\
  2 <= bedrock_calls fx.
Proof.
  intros H. apply lambda_handler_inv in H.
  destruct H as [[_ [[e [_ H]] | [[v [_ [_ H]]] | [v [_ [_ [_ H]]]]]]]
                | [q' [o [w [Hq [_ [Hi [[e [_ [H _]]] | [c [_ Hv]]]]]]]]]];
    try discriminate.
  apply validate_and_run_inv in Hv.
  destruct Hv as [[e [_ [H _]]] | [s [_ [[e [H _]] | [hs [rs [Hr Hv]]]]]]];
    try discriminate.
  apply summarize_and_return_inv in Hv.
  destruct Hv as [o2 [w2 [Hi2 [-> [[e [_ H]] | [n [Hn H]]]]]]];
    [discriminate|].
  injection H as -> -> -> -> -> ->.
  apply invoke_run in Hi, Hi2.
  destruct Hi as [Hc _], Hi2 as [Hc2 _].
  unfold narrative_of in Hn.
  destruct (returned o2) as [|out]; [discriminate|].
  apply reply_text_stripped in Hn.
  repeat split; auto. simpl. lia.
Qed.

Lemma answer_is_consistent_witness :
  parse_question unit Demo.json_loads (Demo.event (JStr Demo.question))
  = inr (JStr Demo.question) /\
  athena_queries Demo.done = [Demo.statement] /\
  Runner.run_athena 100 (fst (Demo.athena 2 Demo.statement))
    (snd (Demo.athena 2 Demo.statement))
  = Some (Runner.ResultSet [lit "n"] [[Some (lit "1")]; [Some (lit "1")]]) /\
  2 = List.length [[Some (lit "1")]; [Some (lit "1")]] /\
  strip (lit "Two trips.") = lit "Two trips." /\
  2 <= bedrock_calls Demo.done.
Proof.
  apply (@answer_is_consistent unit Demo.json_loads
           (Demo.bedrock Demo.candidate) Demo.uniform (Demo.athena 2) 100
           [lit "nyc_taxi"] (Demo.event (JStr Demo.question)) Demo.done
           Demo.question Demo.statement [lit "n"]
           [[Some (lit "1")]; [Some (lit "1")]] 2 (lit "Two trips.")).
  vm_compute. reflexivity.
Defined.





(** X24.  A statement that the validator rejects is never run: an answer
    with status 500 that carries a validation error comes from a run
    that called the generator for the statement only, submitted nothing
    to the query engine, and had the reply of the generator rejected with
    that error. *)
Theorem rejected_statement_not_run (exn : Type)
    (json_loads : str -> option json)
    (bedrock : nat -> payload -> Invoker.outcome json exn)
    (uniform : nat -> Q)
    (athena : str -> list Runner.State * list Runner.page)
    (MAX_ROWS : Z) (ALLOWED_SCHEMAS : list str)
    (event : dict) (e : ValidationError) (fx : effects) :
  lambda_handler json_loads bedrock uniform athena MAX_ROWS ALLOWED_SCHEMAS
    event = Some (Status500 (exn := exn) (ValueError e), fx) ->
  athena_queries fx = [] /\
  1 <= bedrock_calls fx <= 6 /\
  exists q k candidate,
    parse_question exn json_loads event = inr (JStr q) /\
    generated_sql (bedrock k (SqlRequest q)) = inr candidate /\
    sanitize_sql MAX_ROWS ALLOWED_SCHEMAS candidate = Raise e.
Proof.
  intros H. apply lambda_handler_inv in H.
  destruct H as [[_ [[e1 [Hp H]] | [[v [_ [_ H]]] | [v [_ [_ [_ H]]]]]]]
                | [q [o [w [Hq [_ [Hi [[e1 [Hg [H _]]] | [c [Hg Hv]]]]]]]]]];
    try discriminate.
  - injection H as <-. destruct (parse_question_error _ _ Hp (eq_refl _)).
  - injection H as <-. destruct (generated_sql_error _ Hg (eq_refl _)).
  - apply invoke_run in Hi. destruct Hi as [Hc [_ [Hl [Ho _]]]].
    apply validate_and_run_inv in Hv.
    destruct Hv as [[e1 [Hs [H ->]]]
                   | [s [_ [[e1 [H [_ [Hn _]]]] | [hs [rs [_ Hv]]]]]]].
    + injection H as <-. simpl. repeat split; try lia.
      exists q, (0 + List.length (Invoker.slept w)), c.
      rewrite <- Ho. auto.
    + injection H as <-. destruct (Hn e (eq_refl _)).
    + apply summarize_and_return_inv in Hv.
      destruct Hv as [o2 [w2 [_ [_ [[e1 [Hn H]] | [n [_ H]]]]]]];
        [|discriminate].
      injection H as <-. destruct (narrative_of_error _ Hn (eq_refl _)).
Qed.

Lemma rejected_statement_not_run_witness :
  athena_queries
    {| bedrock_calls := 1; sleeps := []; athena_queries := [] |} = [] /\
  1 <= bedrock_calls
         {| bedrock_calls := 1; sleeps := []; athena_queries := [] |} <= 6 /\
  exists q k candidate,
    parse_question unit Demo.json_loads (Demo.event (JStr Demo.question))
    = inr (JStr q) /\
    generated_sql (Demo.bedrock (lit "select 1; drop table t") k (SqlRequest q))
    = inr candidate /\
    sanitize_sql 100 [lit "nyc_taxi"] candidate = Raise MultipleStatements.
Proof.
  apply (@rejected_statement_not_run unit Demo.json_loads
           (Demo.bedrock (lit "select 1; drop table t")) Demo.uniform
           (Demo.athena 2) 100 [lit "nyc_taxi"]
           (Demo.event (JStr Demo.question)) MultipleStatements
           {| bedrock_calls := 1; sleeps := []; athena_queries := [] |}).
  vm_compute. reflexivity.
Defined.

(** X25.  The handler answers every request, unless the query engine
    never finishes a statement that passed the validator: whatever the
    request, the generator and the jitter are, either there is an answer,
    or [run_athena] does not return for the validated reply of the
    generator. *)
Theorem handler_answers_unless_engine_stalls (exn : Type)
    (json_loads : str -> option json)
    (bedrock : nat -> payload -> Invoker.outcome json exn)
    (uniform : nat -> Q)
    (athena : str -> list Runner.State * list Runner.page)
    (MAX_ROWS : Z) (ALLOWED_SCHEMAS : list str) (event : dict) :
  (exists r fx,
     lambda_handler json_loads bedrock uniform athena MAX_ROWS ALLOWED_SCHEMAS
       event = Some (r, fx)) \/
  (exists q k candidate sql,
     parse_question exn json_loads event = inr (JStr q) /\
     generated_sql (bedrock k (SqlRequest q)) = inr candidate /\
     sanitize_sql MAX_ROWS ALLOWED_SCHEMAS candidate = Ok sql /\
     Runner.run_athena MAX_ROWS (fst (athena sql)) (snd (athena sql)) = None).
Proof.
  unfold lambda_handler.
  destruct (parse_question exn json_loads event) as [e | v] eqn:Ep;
    [left; eauto|].
  destruct (negb (truthy v)); [left; eauto|].
  destruct v as [| b | n | q | l | d]; try (left; eauto; fail).
  destruct (invoke_returns bedrock uniform 0 0 (SqlRequest q)) as [o [w Ei]].
  rewrite Ei. apply invoke_run in Ei. destruct Ei as [_ [_ [_ [Ho _]]]].
  destruct (generated_sql o) as [e | c] eqn:Eg; [left; eauto|].
  unfold validate_and_run.
  destruct (sanitize_sql MAX_ROWS ALLOWED_SCHEMAS c) as [sql | e] eqn:Es;
    [|left; eauto].
  destruct (Runner.run_athena _ _ _) as [[hs rows | state | |]|] eqn:Er;
    try (left; eauto; fail).
  - left. unfold summarize_and_return.
    match goal with
    | |- context [invoke ?b ?u ?c0 ?s0 ?p] =>
        destruct (invoke_returns b u c0 s0 p) as [o2 [w2 Ei2]]
    end.
    rewrite Ei2. destruct (narrative_of o2); eauto.
  - right. exists q, (0 + List.length (Invoker.slept w)), c, sql.
    rewrite <- Ho. auto.
Qed.

(** X26.  A request that carries its payload as a JSON text under
    [body] is answered as the payload itself is when it is given as the
    event, as long as the payload has no [body] of its own and is not
    flagged as base64-encoded. *)
Theorem body_is_read_as_event (exn : Type)
    (json_loads : str -> option json)
    (bedrock : nat -> payload -> Invoker.outcome json exn)
    (uniform : nat -> Q)
    (athena : str -> list Runner.State * list Runner.page)
    (MAX_ROWS : Z) (ALLOWED_SCHEMAS : list str)
    (event : dict) (t : str) (d : dict) :
  truthy (get event (lit "isBase64Encoded")) = false ->
  get event (lit "body") = JStr t ->
  json_loads t = Some (JObj d) ->
  truthy (get d (lit "isBase64Encoded")) = false ->
  get d (lit "body") = JNull ->
  lambda_handler json_loads bedrock uniform athena MAX_ROWS ALLOWED_SCHEMAS
    event
  = lambda_handler (exn := exn) json_loads bedrock uniform athena MAX_ROWS
      ALLOWED_SCHEMAS d.
Proof.
  intros Hb Hbody Hl Hb' Hbody'.
  unfold lambda_handler, parse_question.
  rewrite Hb, Hbody, Hl, Hb', Hbody'. reflexivity.
Qed.

Lemma body_is_read_as_event_witness :
  lambda_handler (fun _ => Some (JObj (Demo.event (JStr Demo.question))))
    (Demo.bedrock Demo.candidate) Demo.uniform (Demo.athena 2) 100
    [lit "nyc_taxi"] [(lit "body", JStr (lit "{...}"))]
  = lambda_handler (fun _ => Some (JObj (Demo.event (JStr Demo.question))))
      (Demo.bedrock Demo.candidate) Demo.uniform (Demo.athena 2) 100
      [lit "nyc_taxi"] (Demo.event (JStr Demo.question)).
Proof.
  apply (@body_is_read_as_event unit
           (fun _ => Some (JObj (Demo.event (JStr Demo.question))))
           (Demo.bedrock Demo.candidate) Demo.uniform (Demo.athena 2) 100
           [lit "nyc_taxi"] [(lit "body", JStr (lit "{...}"))] (lit "{...}")
           (Demo.event (JStr Demo.question))); reflexivity.
Defined.

(** X27.  The text read from a reply is the texts of its blocks of type
    [text], in their order, put together and trimmed; blocks of another
    type are skipped, and a reply without such a block reads as the
    empty text. *)
Theorem reply_text_of_blocks (exn : Type) (blocks : list (str * str)) :
  reply_text (exn := exn) (Demo.reply blocks)
  = inr (strip (Demo.texts blocks)).
Proof.
  unfold Demo.reply, reply_text. simpl.
  assert (H : forall bs,
    match selected (exn := exn) (map Demo.block bs) with
    | inl e => inl e
    | inr items => join_items items
    end = inr (Demo.texts bs)).
  { induction bs as [|[ty text] bs IH]; [reflexivity|].
    unfold Demo.texts in *. simpl.
    match goal with
    | |- context [str_eq_dec ty ?x] => destruct (str_eq_dec ty x) as [E | E]
    end.
    - destruct (selected (map Demo.block bs)) as [e | items];
        [discriminate|].
      simpl. rewrite IH. reflexivity.
    - exact IH. }
  specialize (H blocks).
  destruct (selected (map Demo.block blocks)) as [e | items];
    [discriminate|].
  rewrite H. reflexivity.
Qed.

Example demo_engine_stalls :
  lambda_handler (exn := unit) Demo.json_loads (Demo.bedrock Demo.candidate)
    Demo.uniform Demo.stuck 100 [lit "nyc_taxi"]
    (Demo.event (JStr Demo.question))
  = None.
Proof. vm_compute. reflexivity. Qed.
